(** * The consistent-hashing target allocator
    (cmd/otel-allocator/allocation/consistent_hashing.go)

    A shallow embedding of [consistentHashingAllocator] and of its four
    public operations, over an explicit memory: the Go code keeps
    [*Collector] and [*TargetItem] pointers in its maps and hands the same
    pointers out in its snapshots, so objects and maps live in stores and
    are addressed by pointers.  A panic (nil dereference) is [None].

    The mutex [m] is not modelled: calls are taken one at a time, which is
    what the exclusive lock enforces for the two mutating operations. *)

From stdpp Require Import base option list strings gmap fin_maps fin_sets relations.
From Stdlib Require Import ZArith Lia.

Set Warnings "-clear-no-such-hyp".

(** ** Machine integers *)

(** Go's [int] on the 64-bit targets of the operator: two's complement,
    increments and decrements wrap around. *)
Definition int_wrap (z : Z) : Z := ((z + 2 ^ 63) `mod` 2 ^ 64 - 2 ^ 63)%Z.

Definition int_incr (z : Z) : Z := int_wrap (z + 1).   (* n++ *)
Definition int_decr (z : Z) : Z := int_wrap (z - 1).   (* n-- *)

(** ** Pointers and the monad of allocator code *)

(** A pointer is an index into the store of its type; there is no null
    index, a nil pointer is the absence of one ([None]). *)
Abbreviation ptr := nat (only parsing).

Module Mem.

(** Stateful, fallible code over a state [S]: [None] is a panic. *)
Definition M (S A : Type) : Type := S → option (A * S).

Definition ret {S A} (a : A) : M S A := λ s, Some (a, s).

Definition bind {S A B} (m : M S A) (k : A → M S B) : M S B :=
  λ s, match m s with
       | Some (a, s') => k a s'
       | None => None
       end.

Definition panic {S A} : M S A := λ _, None.

Definition get {S} : M S S := λ s, Some (s, s).

Definition modify {S} (f : S → S) : M S unit := λ s, Some (tt, f s).

(** A value that must not be nil. *)
Definition must {S A} (o : option A) : M S A :=
  match o with
  | Some a => ret a
  | None => panic
  end.

(** A loop body run over the elements of [l], in that order. *)
Fixpoint for_each {S A} (l : list A) (body : A → M S unit) : M S unit :=
  match l with
  | [] => ret tt
  | a :: l' => bind (body a) (λ _, for_each l' body)
  end.

(** [iteration body l s a s']: the loop over [l], started in [s], comes to
    run [body a], and does so in the state [s']. *)
Inductive iteration {S A} (body : A → M S unit)
    : list A → S → A → S → Prop :=
| iteration_here a l s : iteration body (a :: l) s a s
| iteration_next a l s s' b sb :
    body a s = Some (tt, s') →
    iteration body l s' b sb →
    iteration body (a :: l) s b sb.

End Mem.

Notation "x <- m ;; k" := (Mem.bind m (λ x, k))
  (at level 100, m at next level, right associativity).
Notation "m ;;; k" := (Mem.bind m (λ _, k))
  (at level 100, right associativity).

(** ** The diff package *)

Module diff.

Record Changes (T : Type) : Type := mkChanges {
  additions : gmap string T;
  removals : gmap string T
}.
Global Arguments mkChanges {T} _ _.
Global Arguments additions {T} _.
Global Arguments removals {T} _.

(** Modelled from the spec: [diff.Maps] (its file is not among the
    sources).  Additions are the elements whose key is present in [new]
    but not in [current], removals those whose key is present in
    [current] but not in [new]; an element whose key is in both is
    neither, whatever its other fields. *)
Definition Maps {T} (current new : gmap string T) : Changes T :=
  {| additions := filter (λ kv, current !! kv.1 = None) new;
     removals := filter (λ kv, new !! kv.1 = None) current |}.

End diff.

(** The sum of [f n x] over the entries [n ↦ x] of a map. *)
Definition sum_over {X} (f : string → X → Z) (m : gmap string X) : Z :=
  map_fold (λ n x acc, (f n x + acc)%Z) 0%Z m.

(** ** Parameters: what the allocator takes from other packages *)

(** The configuration of the ring of github.com/buraksezer/consistent. *)
Record Config := mkConfig {
  PartitionCount : Z;
  ReplicationFactor : Z;
  Load : Z * Z          (* a ratio: 1.1 is (11, 10) *)
}.

Class Env := {
  (** [model.LabelSet] of the Prometheus client, opaque here. *)
  LabelSet : Type;
  (** Modelled from the spec: the deterministic hash over job name, URL and
      labels behind [TargetItem.Hash] (declared next to the struct, outside
      the sources). *)
  fingerprint : string → string → LabelSet → string;
  (** [url.QueryEscape] of the Go standard library. *)
  QueryEscape : string → string;
  (** [locate cfg members key] is the name of the member that owns the
      partition of [key] when the ring holds exactly [members]; [None] when
      the partition has no owner ([LocateKey] then returns a nil [Member]).
      The library recomputes its partition table from the member names on
      every [Add] and [Remove], so the owner is a function of the
      membership. *)
  locate : Config → gset string → string → option string
}.

Section Allocator.
Context `{Env}.

(** ** Data model *)

Record Collector := mkCollector {
  Name : string;
  NumTargets : Z
}.

(** Modelled from the spec: [NewCollector] (declared next to the struct,
    outside the sources): a collector of that name with no target yet. *)
Definition NewCollector (name : string) : Collector :=
  {| Name := name; NumTargets := 0 |}.

Record TargetItem := mkTargetItem {
  JobName : string;
  Link : string;          (* LinkJSON{Link: ...} *)
  TargetURL : string;
  Label : LabelSet;
  CollectorName : string
}.

Definition Hash (t : TargetItem) : string :=
  fingerprint (JobName t) (TargetURL t) (Label t).

Definition consistentHashingStrategyName : string := "consistent-hashing".

(** What the code sends to the metrics registry and to the logger, in
    program order.  A gauge is set to [float64] of an [int]; the integer
    is recorded.  The duration observed by a timer is real time and is
    not recorded, only that the observation is made. *)
Inductive event :=
| TargetsPerCollector_Set (collector strategy : string) (value : Z)
| CollectorsAllocatable_Set (strategy : string) (value : Z)
| TimeToAssign_Observe (method strategy : string)
| Log_Info (msg : string).

(** The memory of the process and, in it, the one allocator instance:
    [consistentHasher], [collectors] and [targetItems] are the fields of
    the struct, the last two being references to map objects. *)
Record state := mkState {
  collectorObjs : list Collector;           (* every Collector object *)
  targetObjs : list TargetItem;             (* every TargetItem object *)
  collectorMaps : list (gmap string ptr);   (* every map[string]*Collector *)
  targetMaps : list (gmap string ptr);      (* every map[string]*TargetItem *)
  consistentHasher : gmap string ptr;       (* ring members, by name at Add *)
  collectors : ptr;
  targetItems : ptr;
  events : list event
}.

Definition M := Mem.M state.

(** ** Memory operations *)

Definition set_collectorObjs (v : list Collector) (s : state) : state :=
  mkState v (targetObjs s) (collectorMaps s) (targetMaps s)
    (consistentHasher s) (collectors s) (targetItems s) (events s).

Definition set_targetObjs (v : list TargetItem) (s : state) : state :=
  mkState (collectorObjs s) v (collectorMaps s) (targetMaps s)
    (consistentHasher s) (collectors s) (targetItems s) (events s).

Definition set_collectorMaps (v : list (gmap string ptr)) (s : state) : state :=
  mkState (collectorObjs s) (targetObjs s) v (targetMaps s)
    (consistentHasher s) (collectors s) (targetItems s) (events s).

Definition set_targetMaps (v : list (gmap string ptr)) (s : state) : state :=
  mkState (collectorObjs s) (targetObjs s) (collectorMaps s) v
    (consistentHasher s) (collectors s) (targetItems s) (events s).

Definition set_consistentHasher (v : gmap string ptr) (s : state) : state :=
  mkState (collectorObjs s) (targetObjs s) (collectorMaps s) (targetMaps s)
    v (collectors s) (targetItems s) (events s).

Definition set_events (v : list event) (s : state) : state :=
  mkState (collectorObjs s) (targetObjs s) (collectorMaps s) (targetMaps s)
    (consistentHasher s) (collectors s) (targetItems s) v.

Definition emit (e : event) : M unit :=
  Mem.modify (λ s, set_events (events s ++ [e]) s).

(** [*p] for a [*Collector]. *)
Definition load_Collector (p : ptr) : M Collector :=
  s <- Mem.get ;; Mem.must (collectorObjs s !! p).

(** [*p = c] *)
Definition store_Collector (p : ptr) (c : Collector) : M unit :=
  _ <- load_Collector p ;;
  Mem.modify (λ s, set_collectorObjs (<[p := c]> (collectorObjs s)) s).

(** [&Collector{...}] *)
Definition alloc_Collector (c : Collector) : M ptr :=
  s <- Mem.get ;;
  Mem.modify (set_collectorObjs (collectorObjs s ++ [c])) ;;;
  Mem.ret (length (collectorObjs s)).

Definition decr_NumTargets (c : Collector) : Collector :=
  {| Name := Name c; NumTargets := int_decr (NumTargets c) |}.

Definition incr_NumTargets (c : Collector) : Collector :=
  {| Name := Name c; NumTargets := int_incr (NumTargets c) |}.

(** [p.NumTargets--] and [p.NumTargets++] *)
Definition NumTargets_decr (p : ptr) : M unit :=
  c <- load_Collector p ;; store_Collector p (decr_NumTargets c).

Definition NumTargets_incr (p : ptr) : M unit :=
  c <- load_Collector p ;; store_Collector p (incr_NumTargets c).

(** [*p] for a [*TargetItem]. *)
Definition load_TargetItem (p : ptr) : M TargetItem :=
  s <- Mem.get ;; Mem.must (targetObjs s !! p).

(** [&TargetItem{...}] *)
Definition alloc_TargetItem (t : TargetItem) : M ptr :=
  s <- Mem.get ;;
  Mem.modify (set_targetObjs (targetObjs s ++ [t])) ;;;
  Mem.ret (length (targetObjs s)).

(** The contents of a [map[string]*Collector]. *)
Definition read_collectorMap (r : ptr) : M (gmap string ptr) :=
  s <- Mem.get ;; Mem.must (collectorMaps s !! r).

Definition write_collectorMap (r : ptr) (m : gmap string ptr) : M unit :=
  _ <- read_collectorMap r ;;
  Mem.modify (λ s, set_collectorMaps (<[r := m]> (collectorMaps s)) s).

(** [make(map[string]*Collector)] *)
Definition make_collectorMap : M ptr :=
  s <- Mem.get ;;
  Mem.modify (set_collectorMaps (collectorMaps s ++ [∅])) ;;;
  Mem.ret (length (collectorMaps s)).

(** The contents of a [map[string]*TargetItem]. *)
Definition read_targetMap (r : ptr) : M (gmap string ptr) :=
  s <- Mem.get ;; Mem.must (targetMaps s !! r).

Definition write_targetMap (r : ptr) (m : gmap string ptr) : M unit :=
  _ <- read_targetMap r ;;
  Mem.modify (λ s, set_targetMaps (<[r := m]> (targetMaps s)) s).

(** [make(map[string]*TargetItem)] *)
Definition make_targetMap : M ptr :=
  s <- Mem.get ;;
  Mem.modify (set_targetMaps (targetMaps s ++ [∅])) ;;;
  Mem.ret (length (targetMaps s)).

(** [m[k] = v] and [delete(m, k)] on the two kinds of map. *)
Definition collectorMap_assign (r : ptr) (k : string) (v : ptr) : M unit :=
  m <- read_collectorMap r ;; write_collectorMap r (<[k := v]> m).

Definition collectorMap_delete (r : ptr) (k : string) : M unit :=
  m <- read_collectorMap r ;; write_collectorMap r (delete k m).

Definition targetMap_assign (r : ptr) (k : string) (v : ptr) : M unit :=
  m <- read_targetMap r ;; write_targetMap r (<[k := v]> m).

Definition targetMap_delete (r : ptr) (k : string) : M unit :=
  m <- read_targetMap r ;; write_targetMap r (delete k m).

(** ** Ranging over a map

    Go leaves the iteration order of a map unspecified.  A loop takes the
    order as a list of keys; [is_order] says that the list is a possible
    order for a map: every key once.  At each key the loop reads the entry
    the map has then, and passes over a key whose entry is gone. *)
Definition is_order {T} (order : list string) (m : gmap string T) : Prop :=
  NoDup order ∧ list_to_set order = dom m.

Definition range_step {T} (m : gmap string T) (body : string → T → M unit)
    (k : string) : M unit :=
  match m !! k with
  | Some v => body k v
  | None => Mem.ret tt
  end.

Definition range {T} (order : list string) (m : gmap string T)
    (body : string → T → M unit) : M unit :=
  Mem.for_each order (range_step m body).

Definition range_targetMap_step (r : ptr) (body : string → ptr → M unit)
    (k : string) : M unit :=
  m <- read_targetMap r ;; range_step m body k.

Definition range_targetMap (order : list string) (r : ptr)
    (body : string → ptr → M unit) : M unit :=
  Mem.for_each order (range_targetMap_step r body).

Definition range_collectorMap_step (r : ptr) (body : string → ptr → M unit)
    (k : string) : M unit :=
  m <- read_collectorMap r ;; range_step m body k.

Definition range_collectorMap (order : list string) (r : ptr)
    (body : string → ptr → M unit) : M unit :=
  Mem.for_each order (range_collectorMap_step r body).

(** ** The ring *)

Definition config : Config :=
  {| PartitionCount := 1061; ReplicationFactor := 5; Load := (11, 10)%Z |}.

(** [Collector.String], called through a [*Collector]. *)
Definition String (p : ptr) : M string :=
  c <- load_Collector p ;; Mem.ret (Name c).

(** [String] on a [Member] that may be nil. *)
Definition Member_String (member : option ptr) : M string :=
  p <- Mem.must member ;; String p.

(** [Add] does nothing for a name the ring has already. *)
Definition consistent_Add (member : ptr) : M unit :=
  name <- String member ;;
  s <- Mem.get ;;
  match consistentHasher s !! name with
  | Some _ => Mem.ret tt
  | None => Mem.modify (set_consistentHasher (<[name := member]> (consistentHasher s)))
  end.

Definition consistent_Remove (name : string) : M unit :=
  s <- Mem.get ;;
  Mem.modify (set_consistentHasher (delete name (consistentHasher s))).

Definition consistent_LocateKey (key : string) : M (option ptr) :=
  s <- Mem.get ;;
  Mem.ret (name ← locate config (dom (consistentHasher s)) key;
           consistentHasher s !! name).

(** ** The allocator *)

(** [c.collectors] and [c.targetItems], read as maps. *)
Definition c_collectors : M (gmap string ptr) :=
  s <- Mem.get ;; read_collectorMap (collectors s).

Definition c_targetItems : M (gmap string ptr) :=
  s <- Mem.get ;; read_targetMap (targetItems s).

(** [newConsistentHashingAllocator] in a fresh process: the two maps are
    made, the ring has no member. *)
Definition newConsistentHashingAllocator : state :=
  {| collectorObjs := []; targetObjs := [];
     collectorMaps := [∅]; targetMaps := [∅];
     consistentHasher := ∅;
     collectors := 0; targetItems := 0;
     events := [] |}.

(** [c.collectors[name].NumTargets], a nil dereference when the name has
    no collector. *)
Definition c_collectors_NumTargets (name : string) : M Z :=
  cs <- c_collectors ;;
  p <- Mem.must (cs !! name) ;;
  col <- load_Collector p ;;
  Mem.ret (NumTargets col).

(** The fields of [target] are only read, and no [TargetItem] is written
    once made, so they are read once, on entry. *)
Definition addTargetToTargetItems (target : ptr) : M unit :=
  t <- load_TargetItem target ;;
  cs <- c_collectors ;;
  (match cs !! CollectorName t with
   | Some previousColName =>
       NumTargets_decr previousColName ;;;
       name <- String previousColName ;;
       n <- c_collectors_NumTargets name ;;
       emit (TargetsPerCollector_Set name consistentHashingStrategyName n)
   | None => Mem.ret tt
   end) ;;;
  colOwner <- consistent_LocateKey (Hash t) ;;
  owner <- Member_String colOwner ;;
  let item :=
    {| JobName := JobName t;
       Link := "/jobs/" +:+ QueryEscape (JobName t) +:+ "/targets";
       TargetURL := TargetURL t;
       Label := Label t;
       CollectorName := owner |} in
  targetItem <- alloc_TargetItem item ;;
  s <- Mem.get ;;
  targetMap_assign (targetItems s) (Hash item) targetItem ;;;
  cs <- c_collectors ;;
  p <- Mem.must (cs !! owner) ;;
  NumTargets_incr p ;;;
  n <- c_collectors_NumTargets owner ;;
  emit (TargetsPerCollector_Set owner consistentHashingStrategyName n).

(** First loop of [handleTargets]: "Check for removals". *)
Definition removeTargets (order : list string) (d : diff.Changes ptr) : M unit :=
  s <- Mem.get ;;
  range_targetMap order (targetItems s) (λ k target,
    match diff.removals d !! k with
    | Some _ =>
        t <- load_TargetItem target ;;
        cs <- c_collectors ;;
        col <- Mem.must (cs !! CollectorName t) ;;
        NumTargets_decr col ;;;
        targetMap_delete (targetItems s) k ;;;
        c <- load_Collector col ;;
        emit (TargetsPerCollector_Set (CollectorName t)
                consistentHashingStrategyName (NumTargets c))
    | None => Mem.ret tt
    end).

(** Second loop of [handleTargets]: "Check for additions". *)
Definition addTargets_body (k : string) (target : ptr) : M unit :=
  ts <- c_targetItems ;;
  match ts !! k with
  | Some _ => Mem.ret tt
  | None => addTargetToTargetItems target
  end.

Definition addTargets (order : list string) (d : diff.Changes ptr) : M unit :=
  range order (diff.additions d) addTargets_body.

Definition handleTargets (order1 order2 : list string) (d : diff.Changes ptr)
    : M unit :=
  removeTargets order1 d ;;;
  addTargets order2 d.

(** First loop of [handleCollectors]: "Clear removed collectors". *)
Definition clearCollectors (order : list string) (d : diff.Changes ptr)
    : M unit :=
  range order (diff.removals d) (λ _ k,
    s <- Mem.get ;;
    name <- String k ;;
    collectorMap_delete (collectors s) name ;;;
    consistent_Remove name ;;;
    emit (TargetsPerCollector_Set name consistentHashingStrategyName 0)).

(** Second loop of [handleCollectors]: "Insert the new collectors". *)
Definition insertCollectors (order : list string) (d : diff.Changes ptr)
    : M unit :=
  range order (diff.additions d) (λ _ i,
    s <- Mem.get ;;
    name <- String i ;;
    p <- alloc_Collector (NewCollector name) ;;
    collectorMap_assign (collectors s) name p ;;;
    cs <- c_collectors ;;
    member <- Mem.must (cs !! name) ;;
    consistent_Add member).

(** Third loop of [handleCollectors]: "Re-Allocate all targets". *)
Definition reallocateTargets_body (k : string) (item : ptr) : M unit :=
  addTargetToTargetItems item.

Definition reallocateTargets (order : list string) : M unit :=
  s <- Mem.get ;;
  range_targetMap order (targetItems s) reallocateTargets_body.

Definition handleCollectors (order1 order2 order3 : list string)
    (d : diff.Changes ptr) : M unit :=
  clearCollectors order1 d ;;;
  insertCollectors order2 d ;;;
  reallocateTargets order3.

(** [len(d.Additions()) != 0 || len(d.Removals()) != 0] *)
Definition has_changes {T} (d : diff.Changes T) : bool :=
  negb (size (diff.additions d) =? 0)%nat || negb (size (diff.removals d) =? 0)%nat.

(** The deferred [timer.ObserveDuration()] is the last effect of a call
    that returns. *)
Definition SetTargets (order1 order2 : list string) (targets : gmap string ptr)
    : M unit :=
  cs <- c_collectors ;;
  (if (size cs =? 0)%nat then
     emit (Log_Info "No collector instances present, cannot set targets")
   else
     ts <- c_targetItems ;;
     let targetsDiff := diff.Maps ts targets in
     if has_changes targetsDiff
     then handleTargets order1 order2 targetsDiff
     else Mem.ret tt) ;;;
  emit (TimeToAssign_Observe "SetTargets" consistentHashingStrategyName).

Definition SetCollectors (order1 order2 order3 : list string)
    (collectors : gmap string ptr) : M unit :=
  emit (CollectorsAllocatable_Set consistentHashingStrategyName
          (Z.of_nat (size collectors))) ;;;
  (if (size collectors =? 0)%nat then
     emit (Log_Info "No collector instances present")
   else
     cs <- c_collectors ;;
     let collectorsDiff := diff.Maps cs collectors in
     if has_changes collectorsDiff
     then handleCollectors order1 order2 order3 collectorsDiff
     else Mem.ret tt) ;;;
  emit (TimeToAssign_Observe "SetCollectors" consistentHashingStrategyName).

(** [TargetItems]: a new map with the entries of [c.targetItems]. *)
Definition TargetItems (order : list string) : M ptr :=
  targetItemsCopy <- make_targetMap ;;
  s <- Mem.get ;;
  range_targetMap order (targetItems s) (λ k v,
    targetMap_assign targetItemsCopy k v) ;;;
  Mem.ret targetItemsCopy.

(** [Collectors]: a new map with the entries of [c.collectors]. *)
Definition Collectors (order : list string) : M ptr :=
  collectorsCopy <- make_collectorMap ;;
  s <- Mem.get ;;
  range_collectorMap order (collectors s) (λ k v,
    collectorMap_assign collectorsCopy k v) ;;;
  Mem.ret collectorsCopy.

(** ** What the claims speak about *)

(** The live collector map and the live targetItems map: the contents of
    the two map objects the allocator holds. *)
Definition live_collectors (s : state) : gmap string ptr :=
  default ∅ (collectorMaps s !! collectors s).

Definition live_targets (s : state) : gmap string ptr :=
  default ∅ (targetMaps s !! targetItems s).

Definition NumTargets_at (s : state) (p : ptr) : Z :=
  default 0%Z (NumTargets <$> collectorObjs s !! p).

(** The sum of [NumTargets] over the collectors of the live map. *)
Definition sum_NumTargets (s : state) : Z :=
  sum_over (λ _ p, NumTargets_at s p) (live_collectors s).

(** The target-to-collector assignment: the [CollectorName] of every live
    target, by the key of the target. *)
Definition assignment (s : state) : gmap string string :=
  omap (λ p, CollectorName <$> targetObjs s !! p) (live_targets s).

(** The number of live targets whose [CollectorName] is [n]. *)
Definition owned_count (s : state) (n : string) : nat :=
  size (filter (λ kv, kv.2 = n) (assignment s)).

(** [LocateKey(key).String()], read off a state. *)
Definition ring_owner (s : state) (key : string) : option string :=
  name ← locate config (dom (consistentHasher s)) key;
  p ← consistentHasher s !! name;
  Name <$> collectorObjs s !! p.

(** The shape the allocator keeps its memory in: its two maps exist, every
    collector of the live map and every member of the ring is an object
    under its own name, the ring has the names of the live map, and every
    live target is an object under its own hash. *)
Record well_formed (s : state) : Prop := {
  wf_collectors_ref : is_Some (collectorMaps s !! collectors s);
  wf_targets_ref : is_Some (targetMaps s !! targetItems s);
  wf_collectors : ∀ n p, live_collectors s !! n = Some p →
    ∃ c, collectorObjs s !! p = Some c ∧ Name c = n;
  wf_ring : ∀ n p, consistentHasher s !! n = Some p →
    ∃ c, collectorObjs s !! p = Some c ∧ Name c = n;
  wf_ring_dom : dom (consistentHasher s) = dom (live_collectors s);
  wf_targets : ∀ k p, live_targets s !! k = Some p →
    ∃ t, targetObjs s !! p = Some t ∧ Hash t = k
}.

(** Every live target is owned by the collector the ring locates for it. *)
Definition located (s : state) : Prop :=
  ∀ k p t, live_targets s !! k = Some p → targetObjs s !! p = Some t →
    ring_owner s k = Some (CollectorName t).

(** Every collector of the live map counts the live targets it owns. *)
Definition counts_exact (s : state) : Prop :=
  ∀ n p c, live_collectors s !! n = Some p → collectorObjs s !! p = Some c →
    NumTargets c = int_wrap (Z.of_nat (owned_count s n)).

(** ** Calls *)

(** What a caller may be held to.  The maps it passes are keyed by the
    hash of each target, resp. the name of each collector, as the names
    of the parameters say ([allTargetsByHash], [allCollectorsByName]); and
    a target that is new to the allocator is not yet owned by a live
    collector (the ownership field is written by the allocator). *)
Definition keyed_by_hash (s : state) (targets : gmap string ptr) : Prop :=
  map_Forall (λ k p, Hash <$> targetObjs s !! p = Some k) targets.

Definition new_unowned (s : state) (targets : gmap string ptr) : Prop :=
  map_Forall (λ k p,
    live_targets s !! k = None →
    (t ← targetObjs s !! p; live_collectors s !! CollectorName t) = None)
    targets.

Definition keyed_by_name (s : state) (cs : gmap string ptr) : Prop :=
  map_Forall (λ k p, Name <$> collectorObjs s !! p = Some k) cs.

Definition any_input (s : state) (m : gmap string ptr) : Prop := True.

Definition in_contract_targets (s : state) (targets : gmap string ptr) : Prop :=
  keyed_by_hash s targets ∧ new_unowned s targets.

(** A step that does not change the allocator: a snapshot is taken, or the
    caller makes an object of its own. *)
Inductive idle : state → state → Prop :=
| idle_TargetItems s order r s' :
    is_order order (live_targets s) →
    TargetItems order s = Some (r, s') →
    idle s s'
| idle_Collectors s order r s' :
    is_order order (live_collectors s) →
    Collectors order s = Some (r, s') →
    idle s s'
| idle_new_TargetItem s t p s' :
    alloc_TargetItem t s = Some (p, s') →
    idle s s'
| idle_new_Collector s c p s' :
    alloc_Collector c s = Some (p, s') →
    idle s s'.

(** One step of a run: a public operation that returns, with an iteration
    order for each of its loops, or an idle step.  [okT] and [okC] are
    what the inputs of [SetTargets] and [SetCollectors] are held to. *)
Inductive step (okT okC : state → gmap string ptr → Prop)
    : state → state → Prop :=
| step_SetTargets s order1 order2 targets s' :
    okT s targets →
    is_order order1 (live_targets s) →
    is_order order2 (diff.additions (diff.Maps (live_targets s) targets)) →
    SetTargets order1 order2 targets s = Some (tt, s') →
    step okT okC s s'
| step_SetCollectors s order1 order2 order3 cs s' :
    okC s cs →
    is_order order1 (diff.removals (diff.Maps (live_collectors s) cs)) →
    is_order order2 (diff.additions (diff.Maps (live_collectors s) cs)) →
    is_order order3 (live_targets s) →
    SetCollectors order1 order2 order3 cs s = Some (tt, s') →
    step okT okC s s'
| step_idle s s' :
    idle s s' →
    step okT okC s s'.

(** The states reachable by calls with any inputs, and by calls within the
    caller's contract. *)
Definition reachable (s : state) : Prop :=
  rtc (step any_input any_input) newConsistentHashingAllocator s.

Definition reachable_in_contract (s : state) : Prop :=
  rtc (step in_contract_targets keyed_by_name) newConsistentHashingAllocator s.

(** [enters_addTargetToTargetItems s target s']: a public operation called
    in [s] comes to call [addTargetToTargetItems target], and does so in
    the state [s'].  The two places of call are the second loop of
    [handleTargets] and the third loop of [handleCollectors]. *)
Inductive enters_addTargetToTargetItems (s : state) (target : ptr) (s' : state)
    : Prop :=
| enters_from_SetTargets order1 order2 targets s1 k :
    is_order order1 (live_targets s) →
    is_order order2 (diff.additions (diff.Maps (live_targets s) targets)) →
    (size (live_collectors s) =? 0) = false →
    has_changes (diff.Maps (live_targets s) targets) = true →
    removeTargets order1 (diff.Maps (live_targets s) targets) s
      = Some (tt, s1) →
    Mem.iteration
      (range_step (diff.additions (diff.Maps (live_targets s) targets))
         addTargets_body) order2 s1 k s' →
    diff.additions (diff.Maps (live_targets s) targets) !! k = Some target →
    live_targets s' !! k = None →
    enters_addTargetToTargetItems s target s'
| enters_from_SetCollectors order1 order2 order3 cs s0 s1 s2 k :
    is_order order1 (diff.removals (diff.Maps (live_collectors s) cs)) →
    is_order order2 (diff.additions (diff.Maps (live_collectors s) cs)) →
    is_order order3 (live_targets s) →
    emit (CollectorsAllocatable_Set consistentHashingStrategyName
            (Z.of_nat (size cs))) s = Some (tt, s0) →
    (size cs =? 0) = false →
    has_changes (diff.Maps (live_collectors s) cs) = true →
    clearCollectors order1 (diff.Maps (live_collectors s) cs) s0
      = Some (tt, s1) →
    insertCollectors order2 (diff.Maps (live_collectors s) cs) s1
      = Some (tt, s2) →
    Mem.iteration (range_targetMap_step (targetItems s2) reallocateTargets_body)
      order3 s2 k s' →
    live_targets s' !! k = Some target →
    enters_addTargetToTargetItems s target s'.

(** What a [TargetItems()] call made in [s] returns: the contents of the
    map it hands out. *)
Definition TargetItems_contents (order : list string) (s : state)
    : option (gmap string ptr) :=
  match TargetItems order s with
  | Some (r, s') => targetMaps s' !! r
  | None => None
  end.

(** ** What a caller can tell apart

    [agree rc rt s1 s2]: the two states have the same objects, ring and
    events, the same two maps of the allocator (at [rc] and [rt]) and as
    many maps; the contents of the other maps, the ones the accessors have
    handed out, may differ. *)
Record agree (rc rt : ptr) (s1 s2 : state) : Prop := {
  agr_collectorObjs : collectorObjs s1 = collectorObjs s2;
  agr_targetObjs : targetObjs s1 = targetObjs s2;
  agr_ring : consistentHasher s1 = consistentHasher s2;
  agr_events : events s1 = events s2;
  agr_collectors_l : collectors s1 = rc;
  agr_collectors_r : collectors s2 = rc;
  agr_targets_l : targetItems s1 = rt;
  agr_targets_r : targetItems s2 = rt;
  agr_collectorMaps : length (collectorMaps s1) = length (collectorMaps s2);
  agr_targetMaps : length (targetMaps s1) = length (targetMaps s2);
  agr_live_collectors : collectorMaps s1 !! rc = collectorMaps s2 !! rc;
  agr_live_targets : targetMaps s1 !! rt = targetMaps s2 !! rt
}.

(** Two outcomes a caller cannot tell apart. *)
Definition related (rc rt : ptr) {A} (x y : option (A * state)) : Prop :=
  match x, y with
  | Some (a1, s1), Some (a2, s2) => a1 = a2 ∧ agree rc rt s1 s2
  | None, None => True
  | _, _ => False
  end.

(** A computation that takes states that agree to outcomes that cannot be
    told apart. *)
Definition sim (rc rt : ptr) {A} (m : M A) : Prop :=
  ∀ s1 s2, agree rc rt s1 s2 → related rc rt (m s1) (m s2).

(** The calls of the interface, with the orders of their loops. *)
Inductive call : Type :=
| call_SetTargets (order1 order2 : list string) (targets : gmap string ptr)
| call_SetCollectors (order1 order2 order3 : list string)
    (collectors : gmap string ptr)
| call_TargetItems (order : list string)
| call_Collectors (order : list string).

Definition run_call (c : call) : M (option ptr) :=
  match c with
  | call_SetTargets order1 order2 targets =>
      SetTargets order1 order2 targets ;;; Mem.ret None
  | call_SetCollectors order1 order2 order3 collectors =>
      SetCollectors order1 order2 order3 collectors ;;; Mem.ret None
  | call_TargetItems order => r <- TargetItems order ;; Mem.ret (Some r)
  | call_Collectors order => r <- Collectors order ;; Mem.ret (Some r)
  end.

Fixpoint run_calls (cs : list call) : M (list (option ptr)) :=
  match cs with
  | [] => Mem.ret []
  | c :: cs' => x <- run_call c ;; xs <- run_calls cs' ;; Mem.ret (x :: xs)
  end.

(** ** Two runs of the same calls *)

(** What an input map holds: under each key, the object pointed to. *)
Definition targets_of (s : state) (m : gmap string ptr)
    : gmap string (option TargetItem) :=
  (λ p, targetObjs s !! p) <$> m.

Definition collectors_of (s : state) (m : gmap string ptr)
    : gmap string (option Collector) :=
  (λ p, collectorObjs s !! p) <$> m.

(** No pointer of the argument is nil. *)
Definition non_nil (s : state) (cs : gmap string ptr) : Prop :=
  map_Forall (λ _ p, is_Some (collectorObjs s !! p)) cs.

(** [same_calls okT okC s1 s2]: [s1] and [s2] are reached from the
    initial state by the same sequence of [SetTargets] and [SetCollectors]
    calls with the same inputs, each loop of each run in an order of its
    own; idle steps may come in between, in either run. *)
Inductive same_calls (okT okC : state → gmap string ptr → Prop)
    : state → state → Prop :=
| same_new :
    same_calls okT okC
      newConsistentHashingAllocator newConsistentHashingAllocator
| same_SetTargets s1 s2 o1 o2 o1' o2' m1 m2 s1' s2' :
    same_calls okT okC s1 s2 →
    targets_of s1 m1 = targets_of s2 m2 →
    okT s1 m1 →
    is_order o1 (live_targets s1) →
    is_order o2 (diff.additions (diff.Maps (live_targets s1) m1)) →
    is_order o1' (live_targets s2) →
    is_order o2' (diff.additions (diff.Maps (live_targets s2) m2)) →
    SetTargets o1 o2 m1 s1 = Some (tt, s1') →
    SetTargets o1' o2' m2 s2 = Some (tt, s2') →
    same_calls okT okC s1' s2'
| same_SetCollectors s1 s2 o1 o2 o3 o1' o2' o3' m1 m2 s1' s2' :
    same_calls okT okC s1 s2 →
    collectors_of s1 m1 = collectors_of s2 m2 →
    okC s1 m1 →
    is_order o1 (diff.removals (diff.Maps (live_collectors s1) m1)) →
    is_order o2 (diff.additions (diff.Maps (live_collectors s1) m1)) →
    is_order o3 (live_targets s1) →
    is_order o1' (diff.removals (diff.Maps (live_collectors s2) m2)) →
    is_order o2' (diff.additions (diff.Maps (live_collectors s2) m2)) →
    is_order o3' (live_targets s2) →
    SetCollectors o1 o2 o3 m1 s1 = Some (tt, s1') →
    SetCollectors o1' o2' o3' m2 s2 = Some (tt, s2') →
    same_calls okT okC s1' s2'
| same_idle_l s1 s2 s1' :
    same_calls okT okC s1 s2 → idle s1 s1' → same_calls okT okC s1' s2
| same_idle_r s1 s2 s2' :
    same_calls okT okC s1 s2 → idle s2 s2' → same_calls okT okC s1 s2'.

(** ** The states the steps of the allocator lead to *)

(** The collector objects and the events after the first step, the release
    of the previous owner. *)
Definition released_objs (s : state) (t : TargetItem) : list Collector :=
  match live_collectors s !! CollectorName t with
  | Some prev => alter decr_NumTargets prev (collectorObjs s)
  | None => collectorObjs s
  end.

Definition released_events (s : state) (t : TargetItem) : list event :=
  match live_collectors s !! CollectorName t with
  | Some prev =>
      [TargetsPerCollector_Set (CollectorName t) consistentHashingStrategyName
         (int_decr (NumTargets_at s prev))]
  | None => []
  end.

(** The item made for [t] when the ring gives it to [owner]. *)
Definition item_for (t : TargetItem) (owner : string) : TargetItem :=
  {| JobName := JobName t;
     Link := "/jobs/" +:+ QueryEscape (JobName t) +:+ "/targets";
     TargetURL := TargetURL t;
     Label := Label t;
     CollectorName := owner |}.

(** The state [addTargetToTargetItems] returns in, for a target [t] that
    the ring gives to [owner], the collector at [po]. *)
Definition assigned (s : state) (t : TargetItem) (owner : string) (po : ptr)
    : state :=
  let objs := alter incr_NumTargets po (released_objs s t) in
  {| collectorObjs := objs;
     targetObjs := targetObjs s ++ [item_for t owner];
     collectorMaps := collectorMaps s;
     targetMaps :=
       <[targetItems s := <[Hash t := length (targetObjs s)]> (live_targets s)]>
         (targetMaps s);
     consistentHasher := consistentHasher s;
     collectors := collectors s;
     targetItems := targetItems s;
     events := events s ++ released_events s t ++
       [TargetsPerCollector_Set owner consistentHashingStrategyName
          (default 0%Z (NumTargets <$> objs !! po))] |}.

(** What the loop keeps at every iteration, and what it has done for the
    keys it has passed. *)
Record reallocating (s0 : state) (done : list string) (s : state) : Prop := {
  rea_wf : well_formed s;
  rea_collectors : live_collectors s = live_collectors s0;
  rea_ring : consistentHasher s = consistentHasher s0;
  rea_collectorMaps : collectorMaps s = collectorMaps s0;
  rea_collectors_ref : collectors s = collectors s0;
  rea_targets_ref : targetItems s = targetItems s0;
  rea_dom : dom (live_targets s) = dom (live_targets s0);
  rea_heap : length (targetObjs s0) ≤ length (targetObjs s);
  rea_done : ∀ k p t, k ∈ done → live_targets s !! k = Some p →
    targetObjs s !! p = Some t →
    ring_owner s k = Some (CollectorName t) ∧ length (targetObjs s0) ≤ p;
  rea_counts : counts_exact s0 → counts_exact s
}.

(** The state after the removal of the target [t] at key [k], owned by the
    collector at [col]. *)
Definition removed (s : state) (k : string) (t : TargetItem) (col : ptr)
    : state :=
  {| collectorObjs := alter decr_NumTargets col (collectorObjs s);
     targetObjs := targetObjs s;
     collectorMaps := collectorMaps s;
     targetMaps := <[targetItems s := delete k (live_targets s)]> (targetMaps s);
     consistentHasher := consistentHasher s;
     collectors := collectors s;
     targetItems := targetItems s;
     events := events s ++
       [TargetsPerCollector_Set (CollectorName t) consistentHashingStrategyName
          (int_decr (NumTargets_at s col))] |}.

Record removing (s0 : state) (d : diff.Changes ptr) (done : list string)
    (s : state) : Prop := {
  rem_wf : well_formed s;
  rem_collectors : live_collectors s = live_collectors s0;
  rem_ring : consistentHasher s = consistentHasher s0;
  rem_collectorMaps : collectorMaps s = collectorMaps s0;
  rem_collectors_ref : collectors s = collectors s0;
  rem_targets_ref : targetItems s = targetItems s0;
  rem_targetObjs : targetObjs s = targetObjs s0;
  rem_targets : ∀ k, live_targets s !! k =
    if decide (k ∈ done ∧ is_Some (diff.removals d !! k)) then None
    else live_targets s0 !! k;
  rem_located : located s0 → located s;
  rem_counts : counts_exact s0 → counts_exact s
}.

Record adding (s1 : state) (d : diff.Changes ptr) (done : list string)
    (s : state) : Prop := {
  add_wf : well_formed s;
  add_collectors : live_collectors s = live_collectors s1;
  add_ring : consistentHasher s = consistentHasher s1;
  add_collectorMaps : collectorMaps s = collectorMaps s1;
  add_collectors_ref : collectors s = collectors s1;
  add_targets_ref : targetItems s = targetItems s1;
  add_heap : ∀ p t, targetObjs s1 !! p = Some t → targetObjs s !! p = Some t;
  add_located : located s1 → located s;
  add_dom_lower : dom (live_targets s1) ⊆ dom (live_targets s);
  add_dom : (∀ k p, diff.additions d !! k = Some p →
               ∃ t, targetObjs s1 !! p = Some t ∧ Hash t = k) →
    dom (live_targets s)
    = dom (live_targets s1) ∪ (list_to_set done ∩ dom (diff.additions d));
  add_counts : (∀ k p, diff.additions d !! k = Some p →
                  ∃ t, targetObjs s1 !! p = Some t ∧ Hash t = k ∧
                       live_collectors s1 !! CollectorName t = None) →
    counts_exact s1 → counts_exact s
}.

(** The state after the collector [name] is cleared. *)
Definition cleared (s : state) (name : string) : state :=
  {| collectorObjs := collectorObjs s;
     targetObjs := targetObjs s;
     collectorMaps :=
       <[collectors s := delete name (live_collectors s)]> (collectorMaps s);
     targetMaps := targetMaps s;
     consistentHasher := delete name (consistentHasher s);
     collectors := collectors s;
     targetItems := targetItems s;
     events := events s ++
       [TargetsPerCollector_Set name consistentHashingStrategyName 0] |}.

Record clearing (s0 : state) (d : diff.Changes ptr) (done : list string)
    (s : state) : Prop := {
  clr_wf : well_formed s;
  clr_collectorObjs : collectorObjs s = collectorObjs s0;
  clr_targetObjs : targetObjs s = targetObjs s0;
  clr_targetMaps : targetMaps s = targetMaps s0;
  clr_collectors_ref : collectors s = collectors s0;
  clr_targets_ref : targetItems s = targetItems s0;
  clr_collectors : ∀ n, live_collectors s !! n =
    if decide (n ∈ done ∧ is_Some (diff.removals d !! n)) then None
    else live_collectors s0 !! n;
  clr_counts : counts_exact s0 → counts_exact s
}.

(** The state after a new collector [name] is inserted. *)
Definition inserted (s : state) (name : string) : state :=
  {| collectorObjs := collectorObjs s ++ [NewCollector name];
     targetObjs := targetObjs s;
     collectorMaps :=
       <[collectors s := <[name := length (collectorObjs s)]> (live_collectors s)]>
         (collectorMaps s);
     targetMaps := targetMaps s;
     consistentHasher :=
       match consistentHasher s !! name with
       | Some _ => consistentHasher s
       | None => <[name := length (collectorObjs s)]> (consistentHasher s)
       end;
     collectors := collectors s;
     targetItems := targetItems s;
     events := events s |}.

(** The names of the collectors the loop has inserted so far. *)
Definition added_names (s1 : state) (d : diff.Changes ptr)
    (done : list string) : gset string :=
  list_to_set
    (omap (λ k, p ← diff.additions d !! k; Name <$> collectorObjs s1 !! p) done).

Record inserting (s1 : state) (d : diff.Changes ptr) (done : list string)
    (s : state) : Prop := {
  ins_wf : well_formed s;
  ins_targetObjs : targetObjs s = targetObjs s1;
  ins_targetMaps : targetMaps s = targetMaps s1;
  ins_collectors_ref : collectors s = collectors s1;
  ins_targets_ref : targetItems s = targetItems s1;
  ins_heap : ∀ p c, collectorObjs s1 !! p = Some c → collectorObjs s !! p = Some c;
  ins_lower : dom (live_collectors s1) ⊆ dom (live_collectors s);
  ins_nonempty : (∃ k, k ∈ done ∧ is_Some (diff.additions d !! k)) →
    live_collectors s ≠ ∅;
  ins_dom :
    (∀ k p, diff.additions d !! k = Some p → is_Some (collectorObjs s1 !! p)) →
    dom (live_collectors s)
    = dom (live_collectors s1) ∪ added_names s1 d done;
  ins_counts :
    (∀ k p, diff.additions d !! k = Some p →
       ∃ c, collectorObjs s1 !! p = Some c ∧ Name c = k) →
    (∀ k, is_Some (diff.additions d !! k) →
       live_collectors s1 !! k = None ∧ ∀ key, assignment s1 !! key ≠ Some k) →
    counts_exact s1 → counts_exact s
}.

Definition observed (method : string) (s : state) : state :=
  set_events
    (events s ++ [TimeToAssign_Observe method consistentHashingStrategyName]) s.

(** [s'] has what [s] has, where the allocator looks: its two maps, its
    ring, and the objects that exist in [s]. *)
Record extends (s s' : state) : Prop := {
  ext_collectorMaps :
    collectorMaps s' !! collectors s' = collectorMaps s !! collectors s;
  ext_targetMaps :
    targetMaps s' !! targetItems s' = targetMaps s !! targetItems s;
  ext_ring : consistentHasher s' = consistentHasher s;
  ext_collectorObjs : ∀ p c,
    collectorObjs s !! p = Some c → collectorObjs s' !! p = Some c;
  ext_targetObjs : ∀ p t,
    targetObjs s !! p = Some t → targetObjs s' !! p = Some t
}.

(** The copy a snapshot loop makes of [live], from [m0], over [order]. *)
Definition copy_of (live : gmap string ptr) (order : list string)
    (m0 : gmap string ptr) : gmap string ptr :=
  foldl (λ m k, match live !! k with Some v => <[k := v]> m | None => m end)
    m0 order.

(** ** The elementary steps of a call *)

(** The events that are no gauge of a collector. *)
Inductive bookkeeping : event → Prop :=
| bookkeeping_allocatable strategy n :
    bookkeeping (CollectorsAllocatable_Set strategy n)
| bookkeeping_time method strategy :
    bookkeeping (TimeToAssign_Observe method strategy)
| bookkeeping_log msg : bookkeeping (Log_Info msg).

(** What one pass through the body of a loop, or one metric or log line
    outside the loops, does to the state. *)
Inductive kind : Type := Note | Assign | Remove | Clear | Insert.

Inductive elementary_of : kind → state → state → Prop :=
| elementary_note s e :
    bookkeeping e →
    elementary_of Note s (set_events (events s ++ [e]) s)
| elementary_assign s target t owner q po :
    targetObjs s !! target = Some t →
    locate config (dom (consistentHasher s)) (Hash t) = Some owner →
    consistentHasher s !! owner = Some q →
    live_collectors s !! owner = Some po →
    elementary_of Assign s (assigned s t owner po)
| elementary_remove s k target t col :
    live_targets s !! k = Some target →
    targetObjs s !! target = Some t →
    Hash t = k →
    live_collectors s !! CollectorName t = Some col →
    elementary_of Remove s (removed s k t col)
| elementary_clear s p c :
    collectorObjs s !! p = Some c →
    elementary_of Clear s (cleared s (Name c))
| elementary_insert s p c :
    collectorObjs s !! p = Some c →
    elementary_of Insert s (inserted s (Name c)).

Definition elementary (s s' : state) : Prop := ∃ κ, elementary_of κ s s'.

(** What a loop keeps: the state is well formed and is reached by
    elementary steps of the loop's kind. *)
Definition stepping (κ : kind) (s0 : state) (done : list string) (s : state)
    : Prop :=
  well_formed s ∧ rtc (elementary_of κ) s0 s ∧
  collectors s = collectors s0 ∧ targetItems s = targetItems s0.

(** The additions loop of [handleTargets] leaves the entries it finds. *)
Definition keeping (s1 : state) (d : diff.Changes ptr) (done : list string)
    (s : state) : Prop :=
  adding s1 d done s ∧
  ∀ k p, live_targets s1 !! k = Some p → live_targets s !! k = Some p.

(** [grows s s']: what a later state [s'] keeps of [s].  The trace is
    extended; no [TargetItem] is written or dropped; a [Collector] keeps
    its name; the allocator holds the same two maps, and every other map
    has the entries it had. *)
Record grows (s s' : state) : Prop := {
  grows_events : events s `prefix_of` events s';
  grows_targetObjs : targetObjs s `prefix_of` targetObjs s';
  grows_collectorObjs : ∀ p c, collectorObjs s !! p = Some c →
    ∃ c', collectorObjs s' !! p = Some c' ∧ Name c' = Name c;
  grows_collectors_ref : collectors s' = collectors s;
  grows_targets_ref : targetItems s' = targetItems s;
  grows_collectorMaps : ∀ r m, r ≠ collectors s →
    collectorMaps s !! r = Some m → collectorMaps s' !! r = Some m;
  grows_targetMaps : ∀ r m, r ≠ targetItems s →
    targetMaps s !! r = Some m → targetMaps s' !! r = Some m
}.

(** Every live target carries the link the allocator makes for its job. *)
Definition linked (s : state) : Prop :=
  ∀ k p t, live_targets s !! k = Some p → targetObjs s !! p = Some t →
    Link t = "/jobs/" +:+ QueryEscape (JobName t) +:+ "/targets".

(** The value last set on the gauge of targets per collector for the
    collector [n]; a gauge that was never set reads 0. *)
Definition gauge (evs : list event) (n : string) : Z :=
  foldl (λ v e,
           match e with
           | TargetsPerCollector_Set n' _ v' => if decide (n' = n) then v' else v
           | _ => v
           end) 0%Z evs.

Definition gauges_agree (s : state) : Prop :=
  ∀ n, gauge (events s) n
       = match live_collectors s !! n with
         | Some p => NumTargets_at s p
         | None => 0%Z
         end.

(** The states reached when the collector maps are keyed by name; the
    target maps are any. *)
Definition reachable_by_name (s : state) : Prop :=
  rtc (step any_input keyed_by_name) newConsistentHashingAllocator s.


End Allocator.

(** ** A ring and a world to run the allocator in *)

(** A ring over the members ["A"] and ["B"]: a key that starts with [b] goes
    to ["B"] when it is a member, any other key to ["A"]; each goes to the
    other member when its own is absent, and to some member when neither
    is one. *)
Definition example_locate (cfg : Config) (members : gset string) (key : string)
    : option string :=
  let preferred := if String.prefix "b" key then ["B"; "A"] else ["A"; "B"] in
  match filter (λ n, n ∈ members) preferred with
  | n :: _ => Some n
  | [] => head (elements members)
  end.

Definition example_env : Env :=
  {| LabelSet := string;
     fingerprint := λ job url labels, job +:+ url +:+ labels;
     QueryEscape := λ x, x;
     locate := example_locate |}.

Section Example.
#[local] Existing Instance example_env.

(** States of the example are compared by computation. *)
#[local] Instance Collector_eq_dec : EqDecision Collector.
Proof. solve_decision. Defined.

#[local] Instance event_eq_dec : EqDecision event.
Proof. solve_decision. Defined.

#[local] Instance example_LabelSet_eq_dec : EqDecision LabelSet.
Proof. exact (_ : EqDecision string). Defined.

#[local] Instance example_TargetItem_eq_dec : EqDecision TargetItem.
Proof. solve_decision. Defined.

#[local] Instance example_state_eq_dec : EqDecision state.
Proof. solve_decision. Defined.

(** The state a computation returns in. *)
Definition after {A} (m : M A) (s : state) : state :=
  match m s with Some (_, s') => s' | None => s end.

(** A target as discovery makes it, with hash [job ++ url]. *)
Definition example_target (job url owner : string) : TargetItem :=
  {| JobName := job; Link := ""; TargetURL := url; Label := "";
     CollectorName := owner |}.

(** The scenario of the specification: collector A, then targets a1 and
    b1, then collector B joins, then A leaves.  The caller's collector
    objects are at 0 (A) and 1 (B), its target objects at 0 (a1) and
    1 (b1). *)
Definition world1a : state := Eval vm_compute in
  after (alloc_Collector (mkCollector "A" 0)) newConsistentHashingAllocator.

Definition world1 : state := Eval vm_compute in
  after (alloc_Collector (mkCollector "B" 0)) world1a.

Definition world2 : state := Eval vm_compute in
  after (SetCollectors [] ["A"] [] {[ "A" := 0 ]}) world1.

Definition world3a : state := Eval vm_compute in
  after (alloc_TargetItem (example_target "a" "1" "")) world2.

Definition world3 : state := Eval vm_compute in
  after (alloc_TargetItem (example_target "b" "1" "")) world3a.

Definition world4 : state := Eval vm_compute in
  after (SetTargets [] ["a1"; "b1"] {[ "a1" := 0; "b1" := 1 ]}) world3.

Definition world5 : state := Eval vm_compute in
  after (SetCollectors [] ["B"] ["a1"; "b1"] {[ "A" := 0; "B" := 1 ]}) world4.

Definition world6 : state := Eval vm_compute in
  after (SetCollectors ["A"] [] ["b1"; "a1"] {[ "B" := 1 ]}) world5.

(** Calls outside the contract.  In [stray1] the caller passes a new
    target that names the live collector A as its owner; in [stray2] it
    passes one target under two keys, neither its hash; in [stray3] it
    passes the collector A under the key x. *)
Definition stray1a : state := Eval vm_compute in
  after (alloc_TargetItem (example_target "a" "1" "A")) world2.

Definition stray1 : state := Eval vm_compute in
  after (SetTargets [] ["a1"] {[ "a1" := 0 ]}) stray1a.

Definition stray2 : state := Eval vm_compute in
  after (SetTargets [] ["x"; "y"] {[ "x" := 0; "y" := 0 ]}) world3a.

Definition stray3 : state := Eval vm_compute in
  after (SetCollectors ["A"] ["x"] ["a1"; "b1"] {[ "x" := 0 ]}) world4.

(** Without collectors: a target is discovered before any collector. *)
Definition bare : state := Eval vm_compute in
  after (alloc_TargetItem (example_target "a" "1" "")) newConsistentHashingAllocator.

(** The second run of the scenario: the same calls, the loops in other orders. *)
Definition world4' : state := Eval vm_compute in
  after (SetTargets [] ["b1"; "a1"] {[ "a1" := 0; "b1" := 1 ]}) world3.

(** [SetTargets] with a1 under the key x and b1 under the key a1, the
    additions ranged over in the two possible orders. *)
Definition skew1 : state := Eval vm_compute in
  after (SetTargets [] ["x"; "a1"] {[ "x" := 0; "a1" := 1 ]}) world3.

Definition skew2 : state := Eval vm_compute in
  after (SetTargets [] ["a1"; "x"] {[ "x" := 0; "a1" := 1 ]}) world3.

(** [SetTargets] called again with the map that led to [world4]. *)
Definition again : state := Eval vm_compute in
  after (SetTargets ["a1"; "b1"] [] {[ "a1" := 0; "b1" := 1 ]}) world4.

(** [SetCollectors] with the empty map, while A is live. *)
Definition emptied : state := Eval vm_compute in
  after (SetCollectors ["A"] [] ["a1"; "b1"] ∅) world4.

(** Inside the call that leads from [world5] to [world6]: A is cleared, and
    the third loop is about to re-allocate a1, which A owned. *)
Definition departed : state := Eval vm_compute in
  let d := diff.Maps (live_collectors world5) {[ "B" := 1 ]} in
  after (emit (CollectorsAllocatable_Set consistentHashingStrategyName 1) ;;;
         clearCollectors ["A"] d ;;; insertCollectors [] d) world5.

Definition departed' : state := Eval vm_compute in
  after (addTargetToTargetItems 4) departed.

(** A caller takes a snapshot of the collectors of [world4] and sets the
    count of the collector it finds under A to 100. *)
Definition snapshot : state := Eval vm_compute in
  after (Collectors ["A"]) world4.

Definition scribbled : state := Eval vm_compute in
  after (store_Collector 2 (mkCollector "A" 100)) snapshot.

(** [SetCollectors] adds B as in the scenario, after the caller's write. *)
Definition scribbled5 : state := Eval vm_compute in
  after (SetCollectors [] ["B"] ["a1"; "b1"] {[ "A" := 0; "B" := 1 ]})
    scribbled.

(** A caller takes a snapshot of the targets of [world4]. *)
Definition snapshot_targets : state := Eval vm_compute in
  after (TargetItems ["a1"; "b1"]) world4.

(** a1 assigned again in [world5], where its owner A is live. *)
Definition moved : state := Eval vm_compute in
  after (addTargetToTargetItems 4) world5.

(** A third target, c1, is discovered in [world4] and b1 is gone: the
    caller's object is at 4. *)
Definition world4c : state := Eval vm_compute in
  after (alloc_TargetItem (example_target "c" "1" "")) world4.

Definition world4d : state := Eval vm_compute in
  after (SetTargets ["a1"; "b1"] ["c1"] {[ "a1" := 0; "c1" := 4 ]}) world4c.

(** B joins after the snapshot of the targets has been taken. *)
Definition snapshot_targets5 : state := Eval vm_compute in
  after (SetCollectors [] ["B"] ["a1"; "b1"] {[ "A" := 0; "B" := 1 ]})
    snapshot_targets.

End Example.

(** * Facts *)

(** ** The monad *)

Lemma bind_run {S A B} (m : Mem.M S A) (k : A → Mem.M S B) s a s' :
  m s = Some (a, s') → Mem.bind m k s = k a s'.
Proof. unfold Mem.bind. by intros ->. Qed.

Lemma bind_panic {S A B} (m : Mem.M S A) (k : A → Mem.M S B) s :
  m s = None → Mem.bind m k s = None.
Proof. unfold Mem.bind. by intros ->. Qed.

Lemma bind_inv {S A B} (m : Mem.M S A) (k : A → Mem.M S B) s b s'' :
  Mem.bind m k s = Some (b, s'') →
  ∃ a s', m s = Some (a, s') ∧ k a s' = Some (b, s'').
Proof.
  unfold Mem.bind. destruct (m s) as [[a s']|]; [|done]. eauto.
Qed.

Lemma must_run {S A} (o : option A) (a : A) (s : S) :
  o = Some a → Mem.must o s = Some (a, s).
Proof. by intros ->. Qed.

Lemma for_each_app {S A} (l1 l2 : list A) (body : A → Mem.M S unit) s :
  Mem.for_each (l1 ++ l2) body s
  = Mem.bind (Mem.for_each l1 body) (λ _, Mem.for_each l2 body) s.
Proof.
  revert s. induction l1 as [|a l1 IH]; intros s; [reflexivity|].
  simpl. unfold Mem.bind in *. destruct (body a s) as [[[] s']|]; [|reflexivity].
  apply IH.
Qed.

(** The loop rule: an invariant indexed by the elements already done. *)
Lemma for_each_ind {S A} (I : list A → S → Prop) (l : list A)
    (body : A → Mem.M S unit) :
  (∀ done a rest s s', l = done ++ a :: rest → I done s →
     body a s = Some (tt, s') → I (done ++ [a]) s') →
  ∀ s s', I [] s → Mem.for_each l body s = Some (tt, s') → I l s'.
Proof.
  intros Hstep.
  assert (∀ rest done s s', l = done ++ rest → I done s →
            Mem.for_each rest body s = Some (tt, s') → I l s') as Hgen.
  { induction rest as [|a rest IH]; intros done s s' Hl HI Hrun.
    - simpl in Hrun. injection Hrun as <-. by rewrite Hl, app_nil_r.
    - simpl in Hrun. apply bind_inv in Hrun as ([] & s1 & Ha & Hrest).
      apply (IH (done ++ [a]) s1 s'); [by rewrite <-app_assoc| |done].
      by eapply Hstep. }
  intros s s'. by apply (Hgen l []).
Qed.



(** ** Machine integers *)

Lemma int_wrap_small (z : Z) :
  (- 2 ^ 63 ≤ z < 2 ^ 63)%Z → int_wrap z = z.
Proof.
  intros Hz. unfold int_wrap. rewrite Z.mod_small; lia.
Qed.

Lemma int_wrap_add_l (x y : Z) : int_wrap (int_wrap x + y) = int_wrap (x + y).
Proof.
  unfold int_wrap.
  replace ((x + 2 ^ 63) `mod` 2 ^ 64 - 2 ^ 63 + y + 2 ^ 63)%Z
    with ((x + 2 ^ 63) `mod` 2 ^ 64 + y)%Z by lia.
  rewrite Zplus_mod_idemp_l. do 2 f_equal. lia.
Qed.

Lemma int_incr_wrap (x : Z) : int_incr (int_wrap x) = int_wrap (x + 1).
Proof. apply int_wrap_add_l. Qed.

Lemma int_decr_wrap (x : Z) : int_decr (int_wrap x) = int_wrap (x - 1).
Proof. apply (int_wrap_add_l x (-1)). Qed.

Section Facts.
Context `{Env}.

Implicit Types (s : state) (p q r : ptr) (c : Collector) (t : TargetItem).
Implicit Types (m cs ts : gmap string ptr) (k n key name : string).

(** ** Memory operations, run *)

Lemma emit_run e s : emit e s = Some (tt, set_events (events s ++ [e]) s).
Proof. reflexivity. Qed.

Lemma load_Collector_run s p c :
  collectorObjs s !! p = Some c → load_Collector p s = Some (c, s).
Proof. intros Hp. unfold load_Collector, Mem.bind, Mem.get. by rewrite Hp. Qed.

Lemma load_Collector_inv s p c s' :
  load_Collector p s = Some (c, s') → collectorObjs s !! p = Some c ∧ s' = s.
Proof.
  unfold load_Collector, Mem.bind, Mem.get, Mem.must.
  destruct (collectorObjs s !! p); [|done]. by intros [= -> ->].
Qed.

Lemma store_Collector_run s p c c' :
  collectorObjs s !! p = Some c →
  store_Collector p c' s
  = Some (tt, set_collectorObjs (<[p := c']> (collectorObjs s)) s).
Proof.
  intros Hp. unfold store_Collector.
  by rewrite (bind_run _ _ _ _ _ (load_Collector_run _ _ _ Hp)).
Qed.

Lemma NumTargets_decr_run s p c :
  collectorObjs s !! p = Some c →
  NumTargets_decr p s
  = Some (tt, set_collectorObjs (<[p := decr_NumTargets c]> (collectorObjs s)) s).
Proof.
  intros Hp. unfold NumTargets_decr.
  rewrite (bind_run _ _ _ _ _ (load_Collector_run _ _ _ Hp)).
  by apply store_Collector_run with c.
Qed.

Lemma NumTargets_incr_run s p c :
  collectorObjs s !! p = Some c →
  NumTargets_incr p s
  = Some (tt, set_collectorObjs (<[p := incr_NumTargets c]> (collectorObjs s)) s).
Proof.
  intros Hp. unfold NumTargets_incr.
  rewrite (bind_run _ _ _ _ _ (load_Collector_run _ _ _ Hp)).
  by apply store_Collector_run with c.
Qed.

Lemma String_run s p c :
  collectorObjs s !! p = Some c → String p s = Some (Name c, s).
Proof.
  intros Hp. unfold String.
  by rewrite (bind_run _ _ _ _ _ (load_Collector_run _ _ _ Hp)).
Qed.

Lemma load_TargetItem_run s p t :
  targetObjs s !! p = Some t → load_TargetItem p s = Some (t, s).
Proof. intros Hp. unfold load_TargetItem, Mem.bind, Mem.get. by rewrite Hp. Qed.

Lemma load_TargetItem_inv s p t s' :
  load_TargetItem p s = Some (t, s') → targetObjs s !! p = Some t ∧ s' = s.
Proof.
  unfold load_TargetItem, Mem.bind, Mem.get, Mem.must.
  destruct (targetObjs s !! p); [|done]. by intros [= -> ->].
Qed.

Lemma alloc_TargetItem_run s t :
  alloc_TargetItem t s
  = Some (length (targetObjs s), set_targetObjs (targetObjs s ++ [t]) s).
Proof. reflexivity. Qed.

Lemma alloc_Collector_run s c :
  alloc_Collector c s
  = Some (length (collectorObjs s), set_collectorObjs (collectorObjs s ++ [c]) s).
Proof. reflexivity. Qed.

Lemma read_collectorMap_run s r m :
  collectorMaps s !! r = Some m → read_collectorMap r s = Some (m, s).
Proof. intros Hr. unfold read_collectorMap, Mem.bind, Mem.get. by rewrite Hr. Qed.

Lemma read_targetMap_run s r m :
  targetMaps s !! r = Some m → read_targetMap r s = Some (m, s).
Proof. intros Hr. unfold read_targetMap, Mem.bind, Mem.get. by rewrite Hr. Qed.

Lemma read_targetMap_inv s r m s' :
  read_targetMap r s = Some (m, s') → targetMaps s !! r = Some m ∧ s' = s.
Proof.
  unfold read_targetMap, Mem.bind, Mem.get, Mem.must.
  destruct (targetMaps s !! r); [|done]. by intros [= -> ->].
Qed.

Lemma read_collectorMap_inv s r m s' :
  read_collectorMap r s = Some (m, s') → collectorMaps s !! r = Some m ∧ s' = s.
Proof.
  unfold read_collectorMap, Mem.bind, Mem.get, Mem.must.
  destruct (collectorMaps s !! r); [|done]. by intros [= -> ->].
Qed.

Lemma write_collectorMap_run s r m m' :
  collectorMaps s !! r = Some m →
  write_collectorMap r m' s
  = Some (tt, set_collectorMaps (<[r := m']> (collectorMaps s)) s).
Proof.
  intros Hr. unfold write_collectorMap.
  by rewrite (bind_run _ _ _ _ _ (read_collectorMap_run _ _ _ Hr)).
Qed.

Lemma write_targetMap_run s r m m' :
  targetMaps s !! r = Some m →
  write_targetMap r m' s
  = Some (tt, set_targetMaps (<[r := m']> (targetMaps s)) s).
Proof.
  intros Hr. unfold write_targetMap.
  by rewrite (bind_run _ _ _ _ _ (read_targetMap_run _ _ _ Hr)).
Qed.

Lemma collectorMap_assign_run s r m k v :
  collectorMaps s !! r = Some m →
  collectorMap_assign r k v s
  = Some (tt, set_collectorMaps (<[r := <[k := v]> m]> (collectorMaps s)) s).
Proof.
  intros Hr. unfold collectorMap_assign.
  rewrite (bind_run _ _ _ _ _ (read_collectorMap_run _ _ _ Hr)).
  by apply write_collectorMap_run with m.
Qed.

Lemma collectorMap_delete_run s r m k :
  collectorMaps s !! r = Some m →
  collectorMap_delete r k s
  = Some (tt, set_collectorMaps (<[r := delete k m]> (collectorMaps s)) s).
Proof.
  intros Hr. unfold collectorMap_delete.
  rewrite (bind_run _ _ _ _ _ (read_collectorMap_run _ _ _ Hr)).
  by apply write_collectorMap_run with m.
Qed.

Lemma targetMap_assign_run s r m k v :
  targetMaps s !! r = Some m →
  targetMap_assign r k v s
  = Some (tt, set_targetMaps (<[r := <[k := v]> m]> (targetMaps s)) s).
Proof.
  intros Hr. unfold targetMap_assign.
  rewrite (bind_run _ _ _ _ _ (read_targetMap_run _ _ _ Hr)).
  by apply write_targetMap_run with m.
Qed.

Lemma targetMap_delete_run s r m k :
  targetMaps s !! r = Some m →
  targetMap_delete r k s
  = Some (tt, set_targetMaps (<[r := delete k m]> (targetMaps s)) s).
Proof.
  intros Hr. unfold targetMap_delete.
  rewrite (bind_run _ _ _ _ _ (read_targetMap_run _ _ _ Hr)).
  by apply write_targetMap_run with m.
Qed.

Lemma c_collectors_run s cs :
  collectorMaps s !! collectors s = Some cs → c_collectors s = Some (cs, s).
Proof. intros Hr. unfold c_collectors. by apply read_collectorMap_run. Qed.

Lemma c_targetItems_run s ts :
  targetMaps s !! targetItems s = Some ts → c_targetItems s = Some (ts, s).
Proof. intros Hr. unfold c_targetItems. by apply read_targetMap_run. Qed.

Lemma c_collectors_inv s cs s' :
  c_collectors s = Some (cs, s') →
  collectorMaps s !! collectors s = Some cs ∧ s' = s.
Proof. apply read_collectorMap_inv. Qed.

Lemma c_targetItems_inv s ts s' :
  c_targetItems s = Some (ts, s') →
  targetMaps s !! targetItems s = Some ts ∧ s' = s.
Proof. apply read_targetMap_inv. Qed.

Lemma c_collectors_NumTargets_run s cs name p c :
  collectorMaps s !! collectors s = Some cs →
  cs !! name = Some p →
  collectorObjs s !! p = Some c →
  c_collectors_NumTargets name s = Some (NumTargets c, s).
Proof.
  intros Hcs Hp Hc. unfold c_collectors_NumTargets.
  rewrite (bind_run _ _ _ _ _ (c_collectors_run _ _ Hcs)).
  rewrite (bind_run _ _ _ _ _ (must_run _ _ _ Hp)).
  by rewrite (bind_run _ _ _ _ _ (load_Collector_run _ _ _ Hc)).
Qed.

Lemma consistent_LocateKey_run s key :
  consistent_LocateKey key s
  = Some (name ← locate config (dom (consistentHasher s)) key;
          consistentHasher s !! name, s).
Proof. reflexivity. Qed.

Lemma Member_String_run s p c :
  collectorObjs s !! p = Some c → Member_String (Some p) s = Some (Name c, s).
Proof.
  intros Hp. unfold Member_String.
  rewrite (bind_run _ _ _ _ _ (must_run _ _ _ eq_refl)).
  by apply String_run.
Qed.

Lemma live_collectors_Some s cs :
  collectorMaps s !! collectors s = Some cs → live_collectors s = cs.
Proof. unfold live_collectors. by intros ->. Qed.

Lemma live_targets_Some s ts :
  targetMaps s !! targetItems s = Some ts → live_targets s = ts.
Proof. unfold live_targets. by intros ->. Qed.

Lemma well_formed_collectors_ref s :
  well_formed s → collectorMaps s !! collectors s = Some (live_collectors s).
Proof.
  intros [[cs Hcs] _ _ _ _ _]. by rewrite (live_collectors_Some _ _ Hcs).
Qed.

Lemma well_formed_targets_ref s :
  well_formed s → targetMaps s !! targetItems s = Some (live_targets s).
Proof.
  intros [_ [ts Hts] _ _ _ _]. by rewrite (live_targets_Some _ _ Hts).
Qed.

(** ** [addTargetToTargetItems] *)

Lemma list_insert_as_alter {A} (f : A → A) (l : list A) (i : nat) (x : A) :
  l !! i = Some x → <[i := f x]> l = alter f i l.
Proof.
  intros Hi. apply list_eq. intros j.
  destruct (decide (i = j)) as [<-|Hne].
  - rewrite list_lookup_alter_eq, Hi.
    apply list_lookup_insert_eq. by eapply lookup_lt_Some.
  - by rewrite list_lookup_insert_ne, list_lookup_alter_ne.
Qed.

Lemma Hash_item_for t owner : Hash (item_for t owner) = Hash t.
Proof. reflexivity. Qed.

Lemma release_run s t :
  well_formed s →
  (match live_collectors s !! CollectorName t with
   | Some previousColName =>
       NumTargets_decr previousColName ;;;
       name <- String previousColName ;;
       n <- c_collectors_NumTargets name ;;
       emit (TargetsPerCollector_Set name consistentHashingStrategyName n)
   | None => Mem.ret tt
   end) s
  = Some (tt, set_events (events s ++ released_events s t)
                (set_collectorObjs (released_objs s t) s)).
Proof.
  intros Hwf. unfold released_objs, released_events.
  destruct (live_collectors s !! CollectorName t) as [prev|] eqn:Hprev.
  - destruct (wf_collectors s Hwf _ _ Hprev) as (c & Hc & Hname).
    rewrite (bind_run _ _ _ _ _ (NumTargets_decr_run _ _ _ Hc)).
    assert (collectorObjs (set_collectorObjs
              (<[prev := decr_NumTargets c]> (collectorObjs s)) s) !! prev
            = Some (decr_NumTargets c)) as Hc'.
    { simpl. apply list_lookup_insert_eq. by eapply lookup_lt_Some. }
    rewrite (bind_run _ _ _ _ _ (String_run _ _ _ Hc')). simpl Name.
    erewrite bind_run; last first.
    { eapply c_collectors_NumTargets_run; [|by rewrite Hname|exact Hc'].
      simpl. by apply well_formed_collectors_ref. }
    rewrite emit_run. simpl. rewrite Hname.
    rewrite (list_insert_as_alter decr_NumTargets _ _ _ Hc).
    unfold NumTargets_at. by rewrite Hc.
  - simpl. unfold Mem.ret. f_equal. f_equal. destruct s; simpl.
    unfold set_events, set_collectorObjs; simpl. by rewrite app_nil_r.
Qed.

Lemma released_objs_lookup s t p c :
  collectorObjs s !! p = Some c →
  ∃ c', released_objs s t !! p = Some c' ∧ Name c' = Name c.
Proof.
  intros Hp. unfold released_objs.
  destruct (live_collectors s !! CollectorName t) as [prev|]; [|eauto].
  destruct (decide (prev = p)) as [->|Hne].
  - exists (decr_NumTargets c). by rewrite list_lookup_alter_eq, Hp.
  - exists c. by rewrite list_lookup_alter_ne.
Qed.

Lemma addTargetToTargetItems_run s target t owner q :
  well_formed s →
  targetObjs s !! target = Some t →
  locate config (dom (consistentHasher s)) (Hash t) = Some owner →
  consistentHasher s !! owner = Some q →
  ∃ po, live_collectors s !! owner = Some po ∧
    addTargetToTargetItems target s = Some (tt, assigned s t owner po).
Proof.
  intros Hwf Ht Hloc Hq.
  destruct (wf_ring s Hwf _ _ Hq) as (cq & Hcq & Hcqn).
  assert (is_Some (live_collectors s !! owner)) as [po Hpo].
  { apply elem_of_dom. rewrite <-(wf_ring_dom s Hwf). apply elem_of_dom. eauto. }
  destruct (wf_collectors s Hwf _ _ Hpo) as (cpo & Hcpo & Hcpon).
  destruct (released_objs_lookup s t _ _ Hcq) as (cq' & Hcq' & Hcqn').
  destruct (released_objs_lookup s t _ _ Hcpo) as (cpo' & Hcpo' & Hcpon').
  pose proof (well_formed_collectors_ref s Hwf) as Hcs.
  pose proof (well_formed_targets_ref s Hwf) as Hts.
  exists po. split; [done|].
  unfold addTargetToTargetItems.
  rewrite (bind_run _ _ _ _ _ (load_TargetItem_run _ _ _ Ht)).
  rewrite (bind_run _ _ _ _ _ (c_collectors_run _ _ Hcs)).
  rewrite (bind_run _ _ _ _ _ (release_run s t Hwf)).
  set (s1 := set_events _ _).
  rewrite (bind_run _ _ _ _ _ (consistent_LocateKey_run s1 _)).
  replace (consistentHasher s1) with (consistentHasher s) by done.
  rewrite Hloc. simpl mbind. rewrite Hq.
  rewrite (bind_run _ _ _ _ _ (Member_String_run s1 q cq' Hcq')).
  rewrite Hcqn', Hcqn.
  rewrite (bind_run _ _ _ _ _ (alloc_TargetItem_run _ _)).
  set (s2 := set_targetObjs _ _).
  rewrite (bind_run _ _ _ _ _ (eq_refl : Mem.get s2 = Some (s2, s2))).
  rewrite (bind_run _ _ _ _ _
    (targetMap_assign_run s2 _ _ _ _ Hts)).
  set (s3 := set_targetMaps _ _).
  rewrite (bind_run _ _ _ _ _ (c_collectors_run s3 _ Hcs)).
  rewrite (bind_run _ _ _ _ _ (must_run _ _ _ Hpo)).
  rewrite (bind_run _ _ _ _ _ (NumTargets_incr_run s3 po cpo' Hcpo')).
  set (s4 := set_collectorObjs _ _).
  assert (collectorObjs s4 !! po = Some (incr_NumTargets cpo')) as Hpo4.
  { simpl. apply list_lookup_insert_eq. by eapply lookup_lt_Some. }
  rewrite (bind_run _ _ _ _ _
    (c_collectors_NumTargets_run s4 _ _ _ _ Hcs Hpo Hpo4)).
  rewrite emit_run. f_equal. f_equal.
  unfold assigned.
  rewrite <-(list_insert_as_alter incr_NumTargets _ _ _ Hcpo').
  simpl in Hpo4. rewrite Hpo4. simpl.
  unfold set_events. simpl. by rewrite <-app_assoc.
Qed.

Lemma addTargetToTargetItems_no_owner s target t :
  well_formed s →
  targetObjs s !! target = Some t →
  (name ← locate config (dom (consistentHasher s)) (Hash t);
   consistentHasher s !! name) = None →
  addTargetToTargetItems target s = None.
Proof.
  intros Hwf Ht Hnone.
  pose proof (well_formed_collectors_ref s Hwf) as Hcs.
  unfold addTargetToTargetItems.
  rewrite (bind_run _ _ _ _ _ (load_TargetItem_run _ _ _ Ht)).
  rewrite (bind_run _ _ _ _ _ (c_collectors_run _ _ Hcs)).
  rewrite (bind_run _ _ _ _ _ (release_run s t Hwf)).
  set (s1 := set_events _ _).
  rewrite (bind_run _ _ _ _ _ (consistent_LocateKey_run s1 _)).
  replace (consistentHasher s1) with (consistentHasher s) by done.
  rewrite Hnone. by apply bind_panic.
Qed.

Lemma addTargetToTargetItems_inv s target s' :
  well_formed s →
  addTargetToTargetItems target s = Some (tt, s') →
  ∃ t owner q po,
    targetObjs s !! target = Some t ∧
    locate config (dom (consistentHasher s)) (Hash t) = Some owner ∧
    consistentHasher s !! owner = Some q ∧
    live_collectors s !! owner = Some po ∧
    s' = assigned s t owner po.
Proof.
  intros Hwf Hrun.
  destruct (targetObjs s !! target) as [t|] eqn:Ht; last first.
  { unfold addTargetToTargetItems in Hrun.
    apply bind_inv in Hrun as (t & s1 & Hload & _).
    apply load_TargetItem_inv in Hload as [Hload _]. congruence. }
  destruct (locate config (dom (consistentHasher s)) (Hash t)) as [owner|]
    eqn:Hloc; last first.
  { rewrite (addTargetToTargetItems_no_owner s target t) in Hrun; [done..|].
    by rewrite Hloc. }
  destruct (consistentHasher s !! owner) as [q|] eqn:Hq; last first.
  { rewrite (addTargetToTargetItems_no_owner s target t) in Hrun; [done..|].
    by rewrite Hloc. }
  destruct (addTargetToTargetItems_run s target t owner q) as (po & Hpo & Hrun');
    [done..|].
  exists t, owner, q, po. repeat split; [done..|]. congruence.
Qed.

(** What [assigned] changes and what it keeps. *)

Lemma live_collectors_assigned s t owner po :
  live_collectors (assigned s t owner po) = live_collectors s.
Proof. reflexivity. Qed.

Lemma live_targets_assigned s t owner po :
  well_formed s →
  live_targets (assigned s t owner po)
  = <[Hash t := length (targetObjs s)]> (live_targets s).
Proof.
  intros Hwf. unfold live_targets at 1. simpl.
  rewrite list_lookup_insert_eq; [done|].
  destruct (wf_targets_ref s Hwf) as [ts Hts]. by eapply lookup_lt_Some.
Qed.

Lemma collectorObjs_assigned s t owner po p c :
  collectorObjs s !! p = Some c →
  ∃ c', collectorObjs (assigned s t owner po) !! p = Some c' ∧
        Name c' = Name c.
Proof.
  intros Hp. destruct (released_objs_lookup s t _ _ Hp) as (c1 & Hc1 & Hn1).
  simpl. destruct (decide (po = p)) as [->|Hne].
  - exists (incr_NumTargets c1). by rewrite list_lookup_alter_eq, Hc1.
  - exists c1. by rewrite list_lookup_alter_ne.
Qed.

Lemma targetObjs_assigned s t owner po p t' :
  targetObjs s !! p = Some t' →
  targetObjs (assigned s t owner po) !! p = Some t'.
Proof. intros Hp. simpl. by apply lookup_app_l_Some. Qed.

Lemma targetObjs_assigned_new s t owner po :
  targetObjs (assigned s t owner po) !! length (targetObjs s)
  = Some (item_for t owner).
Proof. simpl. by rewrite lookup_app_r, Nat.sub_diag. Qed.

Lemma well_formed_assigned s t owner po :
  well_formed s →
  well_formed (assigned s t owner po).
Proof.
  intros Hwf. split.
  - apply (wf_collectors_ref s Hwf).
  - simpl. apply list_lookup_insert_is_Some, (wf_targets_ref s Hwf).
  - intros n p Hp. rewrite live_collectors_assigned in Hp.
    destruct (wf_collectors s Hwf _ _ Hp) as (c & Hc & Hn).
    destruct (collectorObjs_assigned s t owner po _ _ Hc) as (c' & Hc' & Hn').
    exists c'. split; [done|congruence].
  - intros n p Hp. simpl in Hp.
    destruct (wf_ring s Hwf _ _ Hp) as (c & Hc & Hn).
    destruct (collectorObjs_assigned s t owner po _ _ Hc) as (c' & Hc' & Hn').
    exists c'. split; [done|congruence].
  - apply (wf_ring_dom s Hwf).
  - intros k p. rewrite live_targets_assigned by done.
    intros [[<- <-]|[Hne Hp]]%lookup_insert_Some.
    + exists (item_for t owner). split; [apply targetObjs_assigned_new|done].
    + destruct (wf_targets s Hwf _ _ Hp) as (t' & Ht' & Hk).
      exists t'. split; [by apply targetObjs_assigned|done].
Qed.

Lemma ring_owner_assigned s t owner po key :
  well_formed s →
  ring_owner (assigned s t owner po) key = ring_owner s key.
Proof.
  intros Hwf. unfold ring_owner. simpl consistentHasher.
  destruct (locate config (dom (consistentHasher s)) key) as [name|]; [|done].
  simpl. destruct (consistentHasher s !! name) as [p|] eqn:Hp; [|done].
  simpl. destruct (wf_ring s Hwf _ _ Hp) as (c & Hc & Hn).
  destruct (collectorObjs_assigned s t owner po _ _ Hc) as (c' & Hc' & Hn').
  rewrite Hc. change (collectorObjs (assigned s t owner po) !! p)
    with (alter incr_NumTargets po (released_objs s t) !! p).
  simpl in Hc'. rewrite Hc'. simpl. by rewrite Hn'.
Qed.

Lemma ring_owner_located s t owner q :
  well_formed s →
  locate config (dom (consistentHasher s)) (Hash t) = Some owner →
  consistentHasher s !! owner = Some q →
  ring_owner s (Hash t) = Some owner.
Proof.
  intros Hwf Hloc Hq. unfold ring_owner. rewrite Hloc. simpl. rewrite Hq. simpl.
  destruct (wf_ring s Hwf _ _ Hq) as (c & -> & Hn). simpl. by rewrite Hn.
Qed.

(** ** Counting the targets of a collector *)

Lemma count_delete (A : gmap string string) k n :
  Z.of_nat (size (filter (λ kv, kv.2 = n) (delete k A)))
  = (Z.of_nat (size (filter (λ kv, kv.2 = n) A))
     - (if decide (A !! k = Some n) then 1 else 0))%Z.
Proof.
  rewrite map_filter_delete, map_size_delete.
  destruct (filter (λ kv, kv.2 = n) A !! k) as [o|] eqn:Hk.
  - apply map_lookup_filter_Some in Hk as [Hk Ho]. simpl in Ho. subst o.
    rewrite decide_True by done.
    assert (size (filter (λ kv, kv.2 = n) A) ≠ 0).
    { apply map_size_non_empty_iff. intros Hempty.
      assert (filter (λ kv, kv.2 = n) A !! k = Some n) as Hin
        by (by apply map_lookup_filter_Some).
      by rewrite Hempty in Hin. }
    simpl. lia.
  - rewrite decide_False; [simpl; lia|].
    intros Hk'. rewrite map_lookup_filter_None in Hk.
    destruct Hk as [Hk|Hk]; [congruence|]. by apply (Hk n).
Qed.

Lemma count_insert (A : gmap string string) k o n :
  Z.of_nat (size (filter (λ kv, kv.2 = n) (<[k := o]> A)))
  = (Z.of_nat (size (filter (λ kv, kv.2 = n) A))
     - (if decide (A !! k = Some n) then 1 else 0)
     + (if decide (o = n) then 1 else 0))%Z.
Proof.
  rewrite <-count_delete, <-(insert_delete_eq A), map_filter_insert.
  simpl. destruct (decide (o = n)) as [->|Hne].
  - rewrite map_size_insert_None; [lia|].
    apply map_lookup_filter_None. left. apply lookup_delete_eq.
  - rewrite delete_delete_eq. lia.
Qed.

Lemma live_collectors_inj s n1 n2 p :
  well_formed s →
  live_collectors s !! n1 = Some p → live_collectors s !! n2 = Some p →
  n1 = n2.
Proof.
  intros Hwf H1 H2.
  destruct (wf_collectors s Hwf _ _ H1) as (c1 & Hc1 & <-).
  destruct (wf_collectors s Hwf _ _ H2) as (c2 & Hc2 & <-).
  congruence.
Qed.

Lemma NumTargets_assigned s t owner po n p c :
  well_formed s →
  live_collectors s !! owner = Some po →
  live_collectors s !! n = Some p →
  collectorObjs s !! p = Some c →
  ∃ c', collectorObjs (assigned s t owner po) !! p = Some c' ∧
    NumTargets c'
    = (if decide (owner = n) then int_incr else id)
        ((if decide (CollectorName t = n) then int_decr else id)
           (NumTargets c)).
Proof.
  intros Hwf Hpo Hp Hc.
  assert (∃ c1, released_objs s t !! p = Some c1 ∧
            NumTargets c1
            = (if decide (CollectorName t = n) then int_decr else id)
                (NumTargets c)) as (c1 & Hc1 & Hn1).
  { unfold released_objs.
    destruct (live_collectors s !! CollectorName t) as [prev|] eqn:Hprev.
    - destruct (decide (prev = p)) as [->|Hne].
      + rewrite (decide_True (P := CollectorName t = n))
          by (by eapply live_collectors_inj).
        exists (decr_NumTargets c). by rewrite list_lookup_alter_eq, Hc.
      + rewrite (decide_False (P := CollectorName t = n))
          by (intros <-; congruence).
        exists c. by rewrite list_lookup_alter_ne.
    - rewrite (decide_False (P := CollectorName t = n))
        by (intros <-; congruence).
      by exists c. }
  simpl. destruct (decide (po = p)) as [->|Hne].
  - rewrite (decide_True (P := owner = n)) by (by eapply live_collectors_inj).
    exists (incr_NumTargets c1).
    rewrite list_lookup_alter_eq, Hc1. split; [done|]. simpl. by rewrite Hn1.
  - rewrite (decide_False (P := owner = n)) by (intros <-; congruence).
    exists c1. by rewrite list_lookup_alter_ne.
Qed.

Lemma assignment_assigned s t owner po :
  well_formed s →
  assignment (assigned s t owner po) = <[Hash t := owner]> (assignment s).
Proof.
  intros Hwf. unfold assignment at 1.
  rewrite live_targets_assigned by done.
  rewrite (omap_insert_Some _ _ _ _ owner)
    by (by rewrite targetObjs_assigned_new).
  f_equal. apply map_eq. intros k. unfold assignment.
  rewrite !lookup_omap.
  destruct (live_targets s !! k) as [p|] eqn:Hp; [|done]. simpl.
  destruct (wf_targets s Hwf _ _ Hp) as (t' & Ht' & _).
  by rewrite Ht', (lookup_app_l_Some _ _ _ _ Ht').
Qed.

Lemma counts_exact_assigned s t owner po :
  well_formed s →
  counts_exact s →
  live_collectors s !! owner = Some po →
  assignment s !! Hash t = Some (CollectorName t) ∨
    (assignment s !! Hash t = None ∧
     live_collectors s !! CollectorName t = None) →
  counts_exact (assigned s t owner po).
Proof.
  intros Hwf Hcnt Hpo Hcase n p c' Hp Hc'.
  rewrite live_collectors_assigned in Hp.
  destruct (wf_collectors s Hwf _ _ Hp) as (c & Hc & Hn).
  destruct (NumTargets_assigned s t owner po n p c) as (c'' & Hc'' & Hnum);
    [done..|].
  assert (c'' = c') as -> by congruence.
  rewrite Hnum, (Hcnt n p c Hp Hc).
  unfold owned_count. rewrite assignment_assigned by done.
  rewrite count_insert.
  assert ((if decide (assignment s !! Hash t = Some n) then 1 else 0)%Z
          = (if decide (CollectorName t = n) then 1 else 0)%Z) as ->.
  { destruct Hcase as [Hold|[Hnew Hdead]].
    - rewrite Hold. repeat case_decide; congruence.
    - rewrite Hnew. rewrite decide_False by done.
      rewrite decide_False; [done|]. intros Heq. congruence. }
  repeat case_decide; simpl;
    rewrite ?int_decr_wrap, ?int_incr_wrap; f_equal; lia.
Qed.

(** ** Third loop of [handleCollectors] *)

Lemma reallocate_body_inv s r k s' :
  well_formed s →
  r = targetItems s →
  (m <- read_targetMap r ;;
   match m !! k with
   | Some v => addTargetToTargetItems v
   | None => Mem.ret tt
   end) s = Some (tt, s') →
  (live_targets s !! k = None ∧ s' = s) ∨
  ∃ item t owner q po,
    live_targets s !! k = Some item ∧
    targetObjs s !! item = Some t ∧ Hash t = k ∧
    locate config (dom (consistentHasher s)) k = Some owner ∧
    consistentHasher s !! owner = Some q ∧
    live_collectors s !! owner = Some po ∧
    s' = assigned s t owner po.
Proof.
  intros Hwf -> Hrun.
  rewrite (bind_run _ _ _ _ _
    (read_targetMap_run _ _ _ (well_formed_targets_ref s Hwf))) in Hrun.
  destruct (live_targets s !! k) as [item|] eqn:Hk.
  - right. apply addTargetToTargetItems_inv in Hrun
      as (t & owner & q & po & Ht & Hloc & Hq & Hpo & ->); [|done].
    destruct (wf_targets s Hwf _ _ Hk) as (t' & Ht' & Hhash).
    assert (t' = t) as -> by congruence.
    exists item, t, owner, q, po. by rewrite <-Hhash.
  - left. by injection Hrun as <-.
Qed.

Lemma reallocating_step s0 done k s s' :
  reallocating s0 done s →
  (m <- read_targetMap (targetItems s0) ;;
   match m !! k with
   | Some v => addTargetToTargetItems v
   | None => Mem.ret tt
   end) s = Some (tt, s') →
  reallocating s0 (done ++ [k]) s'.
Proof.
  intros [Hwf Hcs Hring Hcm Hcr Htr Hdom Hheap Hdone Hcnt] Hrun.
  apply reallocate_body_inv in Hrun
    as [[Hk ->]|(item & t & owner & q & po & Hk & Ht & Hhash & Hloc & Hq & Hpo & ->)];
    [| |done..].
  - split; try done. intros k' p t [Hin| ->%list_elem_of_singleton]%elem_of_app;
      [by apply Hdone|congruence].
  - subst k. split.
    + by apply well_formed_assigned.
    + by rewrite live_collectors_assigned.
    + done.
    + done.
    + done.
    + done.
    + rewrite live_targets_assigned, dom_insert_L by done.
      rewrite <-Hdom. apply set_eq. intros k.
      rewrite elem_of_union, elem_of_singleton. split; [|tauto].
      intros [->|Hin]; [|done]. apply elem_of_dom. eauto.
    + simpl. rewrite length_app. lia.
    + intros k p t' Hin. rewrite live_targets_assigned by done.
      rewrite ring_owner_assigned by done.
      intros [[<- <-]|[Hne Hp]]%lookup_insert_Some Ht'.
      * rewrite targetObjs_assigned_new in Ht'. injection Ht' as <-.
        split; [|done]. simpl. by eapply ring_owner_located.
      * destruct (wf_targets s Hwf _ _ Hp) as (t'' & Ht'' & _).
        rewrite (targetObjs_assigned _ _ _ _ _ _ Ht'') in Ht'.
        injection Ht' as <-.
        apply elem_of_app in Hin as [Hin| ->%list_elem_of_singleton];
          [by apply (Hdone k p)|done].
    + intros Hcnt0. apply counts_exact_assigned; [done|by apply Hcnt|done|].
      left. unfold assignment. by rewrite lookup_omap, Hk; simpl; rewrite Ht.
Qed.

Lemma reallocateTargets_inv s order s' :
  well_formed s →
  reallocateTargets order s = Some (tt, s') →
  reallocating s order s'.
Proof.
  intros Hwf Hrun. unfold reallocateTargets in Hrun.
  rewrite (bind_run _ _ _ _ _ (eq_refl : Mem.get s = Some (s, s))) in Hrun.
  unfold range_targetMap in Hrun.
  revert Hrun. apply (for_each_ind (reallocating s)).
  - intros done k rest s1 s2 _ HI Hbody. by eapply reallocating_step.
  - split; try done. intros k p t Hin. by apply elem_of_nil in Hin.
Qed.

Lemma reallocating_located s0 order s :
  is_order order (live_targets s0) →
  reallocating s0 order s →
  located s ∧ ∀ k p, live_targets s !! k = Some p → length (targetObjs s0) ≤ p.
Proof.
  intros [_ Horder] Hrea.
  assert (∀ k p, live_targets s !! k = Some p → k ∈ order) as Hin.
  { intros k p Hk. apply (elem_of_list_to_set (C := gset string)).
    rewrite Horder, <-(rea_dom _ _ _ Hrea). apply elem_of_dom. eauto. }
  split.
  - intros k p t Hk Ht. by apply (rea_done _ _ _ Hrea k p t); [eapply Hin|..].
  - intros k p Hk.
    destruct (wf_targets s (rea_wf _ _ _ Hrea) _ _ Hk) as (t & Ht & _).
    by apply (rea_done _ _ _ Hrea k p t); [eapply Hin|..].
Qed.

(** ** First loop of [handleTargets] *)

Lemma must_inv {S A} (o : option A) (a : A) (s s' : S) :
  Mem.must o s = Some (a, s') → o = Some a ∧ s' = s.
Proof. destruct o; [|done]. by intros [= -> ->]. Qed.

Lemma remove_body_inv s r (d : diff.Changes ptr) k s' :
  well_formed s →
  r = targetItems s →
  (m <- read_targetMap r ;;
   match m !! k with
   | Some target =>
       match diff.removals d !! k with
       | Some _ =>
           t <- load_TargetItem target ;;
           cs <- c_collectors ;;
           col <- Mem.must (cs !! CollectorName t) ;;
           NumTargets_decr col ;;;
           targetMap_delete r k ;;;
           c <- load_Collector col ;;
           emit (TargetsPerCollector_Set (CollectorName t)
                   consistentHashingStrategyName (NumTargets c))
       | None => Mem.ret tt
       end
   | None => Mem.ret tt
   end) s = Some (tt, s') →
  ((live_targets s !! k = None ∨ diff.removals d !! k = None) ∧ s' = s) ∨
  ∃ target t col,
    live_targets s !! k = Some target ∧
    is_Some (diff.removals d !! k) ∧
    targetObjs s !! target = Some t ∧ Hash t = k ∧
    live_collectors s !! CollectorName t = Some col ∧
    s' = removed s k t col.
Proof.
  intros Hwf -> Hrun.
  pose proof (well_formed_targets_ref s Hwf) as Hts.
  pose proof (well_formed_collectors_ref s Hwf) as Hcs.
  rewrite (bind_run _ _ _ _ _ (read_targetMap_run _ _ _ Hts)) in Hrun.
  destruct (live_targets s !! k) as [target|] eqn:Hk; last first.
  { left. injection Hrun as <-. auto. }
  destruct (diff.removals d !! k) as [x|] eqn:Hrem; last first.
  { left. injection Hrun as <-. auto. }
  right.
  destruct (wf_targets s Hwf _ _ Hk) as (t & Ht & Hhash).
  rewrite (bind_run _ _ _ _ _ (load_TargetItem_run _ _ _ Ht)) in Hrun.
  rewrite (bind_run _ _ _ _ _ (c_collectors_run _ _ Hcs)) in Hrun.
  apply bind_inv in Hrun as (col & s1 & [Hcol ->]%must_inv & Hrun).
  destruct (wf_collectors s Hwf _ _ Hcol) as (c & Hc & Hn).
  rewrite (bind_run _ _ _ _ _ (NumTargets_decr_run _ _ _ Hc)) in Hrun.
  set (s1 := set_collectorObjs _ _) in Hrun.
  rewrite (bind_run _ _ _ _ _ (targetMap_delete_run s1 _ _ _ Hts)) in Hrun.
  set (s2 := set_targetMaps _ _) in Hrun.
  assert (collectorObjs s2 !! col = Some (decr_NumTargets c)) as Hc2.
  { simpl. apply list_lookup_insert_eq. by eapply lookup_lt_Some. }
  rewrite (bind_run _ _ _ _ _ (load_Collector_run s2 _ _ Hc2)) in Hrun.
  rewrite emit_run in Hrun. injection Hrun as <-.
  exists target, t, col. repeat split; [eauto|done..|].
  unfold removed, NumTargets_at. rewrite Hc.
  by rewrite <-(list_insert_as_alter decr_NumTargets _ _ _ Hc).
Qed.

Lemma live_targets_removed s k t col :
  well_formed s →
  live_targets (removed s k t col) = delete k (live_targets s).
Proof.
  intros Hwf. unfold live_targets at 1. simpl.
  rewrite list_lookup_insert_eq; [done|].
  destruct (wf_targets_ref s Hwf) as [ts Hts]. by eapply lookup_lt_Some.
Qed.

Lemma collectorObjs_removed s k t col p c :
  collectorObjs s !! p = Some c →
  ∃ c', collectorObjs (removed s k t col) !! p = Some c' ∧ Name c' = Name c.
Proof.
  intros Hp. simpl. destruct (decide (col = p)) as [->|Hne].
  - exists (decr_NumTargets c). by rewrite list_lookup_alter_eq, Hp.
  - exists c. by rewrite list_lookup_alter_ne.
Qed.

Lemma well_formed_removed s k t col :
  well_formed s → well_formed (removed s k t col).
Proof.
  intros Hwf. split.
  - apply (wf_collectors_ref s Hwf).
  - simpl. apply list_lookup_insert_is_Some, (wf_targets_ref s Hwf).
  - intros n p Hp. change (live_collectors s !! n = Some p) in Hp.
    destruct (wf_collectors s Hwf _ _ Hp) as (c & Hc & Hn).
    destruct (collectorObjs_removed s k t col _ _ Hc) as (c' & Hc' & Hn').
    exists c'. split; [done|congruence].
  - intros n p Hp. simpl in Hp.
    destruct (wf_ring s Hwf _ _ Hp) as (c & Hc & Hn).
    destruct (collectorObjs_removed s k t col _ _ Hc) as (c' & Hc' & Hn').
    exists c'. split; [done|congruence].
  - apply (wf_ring_dom s Hwf).
  - intros k' p. rewrite live_targets_removed by done.
    intros [Hne Hp]%lookup_delete_Some. by apply (wf_targets s Hwf).
Qed.

Lemma ring_owner_removed s k t col key :
  well_formed s →
  ring_owner (removed s k t col) key = ring_owner s key.
Proof.
  intros Hwf. unfold ring_owner. simpl consistentHasher.
  destruct (locate config (dom (consistentHasher s)) key) as [name|]; [|done].
  simpl. destruct (consistentHasher s !! name) as [p|] eqn:Hp; [|done].
  simpl. destruct (wf_ring s Hwf _ _ Hp) as (c & Hc & Hn).
  destruct (collectorObjs_removed s k t col _ _ Hc) as (c' & Hc' & Hn').
  rewrite Hc. simpl in Hc'. rewrite Hc'. simpl. by rewrite Hn'.
Qed.

Lemma assignment_removed s k t col :
  well_formed s →
  assignment (removed s k t col) = delete k (assignment s).
Proof.
  intros Hwf. unfold assignment.
  by rewrite live_targets_removed, omap_delete.
Qed.

Lemma counts_exact_removed s k t col target :
  well_formed s →
  counts_exact s →
  live_targets s !! k = Some target →
  targetObjs s !! target = Some t →
  live_collectors s !! CollectorName t = Some col →
  counts_exact (removed s k t col).
Proof.
  intros Hwf Hcnt Hk Ht Hcol n p c' Hp Hc'.
  change (live_collectors s !! n = Some p) in Hp.
  destruct (wf_collectors s Hwf _ _ Hp) as (c & Hc & Hn).
  unfold owned_count. rewrite assignment_removed, count_delete by done.
  assert (assignment s !! k = Some (CollectorName t)) as ->.
  { unfold assignment. by rewrite lookup_omap, Hk; simpl; rewrite Ht. }
  simpl in Hc'. destruct (decide (col = p)) as [->|Hne].
  - assert (CollectorName t = n) as -> by (by eapply live_collectors_inj).
    rewrite list_lookup_alter_eq, Hc in Hc'. injection Hc' as <-.
    rewrite decide_True by done. simpl.
    rewrite (Hcnt n p c Hp Hc). apply int_decr_wrap.
  - rewrite list_lookup_alter_ne in Hc' by done.
    rewrite decide_False by (intros [= <-]; congruence).
    rewrite Z.sub_0_r. apply (Hcnt n p c' Hp Hc').
Qed.

Lemma removing_step s0 d done k s s' :
  removing s0 d done s →
  (m <- read_targetMap (targetItems s0) ;;
   match m !! k with
   | Some target =>
       match diff.removals d !! k with
       | Some _ =>
           t <- load_TargetItem target ;;
           cs <- c_collectors ;;
           col <- Mem.must (cs !! CollectorName t) ;;
           NumTargets_decr col ;;;
           targetMap_delete (targetItems s0) k ;;;
           c <- load_Collector col ;;
           emit (TargetsPerCollector_Set (CollectorName t)
                   consistentHashingStrategyName (NumTargets c))
       | None => Mem.ret tt
       end
   | None => Mem.ret tt
   end) s = Some (tt, s') →
  removing s0 d (done ++ [k]) s'.
Proof.
  intros [Hwf Hcs Hring Hcm Hcr Htr Hobjs Hts Hloc Hcnt] Hrun.
  apply remove_body_inv in Hrun
    as [[Hskip ->]|(target & t & col & Hk & Hrem & Ht & Hhash & Hcol & ->)];
    [| |done..].
  - split; try done. intros k'. rewrite Hts.
    destruct (decide (k' ∈ done ∧ is_Some (diff.removals d !! k')))
      as [[Hin Hsome]|Hno].
    + rewrite decide_True; [done|]. split; [|done].
      apply elem_of_app. by left.
    + destruct (decide (k' ∈ done ++ [k] ∧ is_Some (diff.removals d !! k')))
        as [[Hin Hsome]|Hno']; [|done].
      apply elem_of_app in Hin as [Hin| ->%list_elem_of_singleton];
        [by destruct Hno|].
      destruct Hskip as [Hnone|Hnone].
      * rewrite Hts, decide_False in Hnone by done. by rewrite Hnone.
      * rewrite Hnone in Hsome. by destruct Hsome.
  - split.
    + by apply well_formed_removed.
    + done.
    + done.
    + done.
    + done.
    + done.
    + done.
    + intros k'. rewrite live_targets_removed, lookup_delete by done.
      rewrite Hts. destruct (decide (k = k')) as [<-|Hne].
      * rewrite decide_True; [done|]. split; [|done].
        apply elem_of_app. right. by apply list_elem_of_singleton.
      * destruct (decide (k' ∈ done ∧ is_Some (diff.removals d !! k')))
          as [[Hin Hsome]|Hno].
        -- rewrite decide_True; [done|]. split; [|done].
           apply elem_of_app. by left.
        -- rewrite decide_False; [done|]. intros [Hin Hsome].
           apply elem_of_app in Hin as [Hin|Heq%list_elem_of_singleton];
             [by destruct Hno|congruence].
    + intros Hloc0 k' p t'. rewrite live_targets_removed by done.
      rewrite ring_owner_removed by done.
      intros [Hne Hp]%lookup_delete_Some Ht'. by apply (Hloc Hloc0 k' p t').
    + intros Hcnt0. eapply counts_exact_removed; eauto.
Qed.

Lemma removeTargets_inv s order d s' :
  well_formed s →
  removeTargets order d s = Some (tt, s') →
  removing s d order s'.
Proof.
  intros Hwf Hrun. unfold removeTargets in Hrun.
  rewrite (bind_run _ _ _ _ _ (eq_refl : Mem.get s = Some (s, s))) in Hrun.
  unfold range_targetMap in Hrun.
  revert Hrun. apply (for_each_ind (removing s d)).
  - intros done k rest s1 s2 _ HI Hbody. by eapply removing_step.
  - split; done.
Qed.

(** ** Second loop of [handleTargets] *)

Lemma list_to_set_snoc (done : list string) k :
  list_to_set (done ++ [k]) =@{gset string} list_to_set done ∪ {[k]}.
Proof.
  apply set_eq. intros x.
  rewrite elem_of_union, !elem_of_list_to_set, elem_of_app.
  by rewrite list_elem_of_singleton, elem_of_singleton.
Qed.

Lemma add_body_inv s (d : diff.Changes ptr) k s' :
  well_formed s →
  match diff.additions d !! k with
  | Some target =>
      ts <- c_targetItems ;;
      match ts !! k with
      | Some _ => Mem.ret tt
      | None => addTargetToTargetItems target
      end
  | None => Mem.ret tt
  end s = Some (tt, s') →
  ((diff.additions d !! k = None ∨ is_Some (live_targets s !! k)) ∧ s' = s) ∨
  ∃ target t owner q po,
    diff.additions d !! k = Some target ∧
    live_targets s !! k = None ∧
    targetObjs s !! target = Some t ∧
    locate config (dom (consistentHasher s)) (Hash t) = Some owner ∧
    consistentHasher s !! owner = Some q ∧
    live_collectors s !! owner = Some po ∧
    s' = assigned s t owner po.
Proof.
  intros Hwf Hrun.
  destruct (diff.additions d !! k) as [target|] eqn:Hadd; last first.
  { left. injection Hrun as <-. auto. }
  rewrite (bind_run _ _ _ _ _
    (c_targetItems_run _ _ (well_formed_targets_ref s Hwf))) in Hrun.
  destruct (live_targets s !! k) as [x|] eqn:Hk.
  { left. injection Hrun as <-. eauto. }
  right. apply addTargetToTargetItems_inv in Hrun
    as (t & owner & q & po & Ht & Hloc & Hq & Hpo & ->); [|done].
  by exists target, t, owner, q, po.
Qed.

Lemma adding_step s1 d done k s s' :
  adding s1 d done s →
  match diff.additions d !! k with
  | Some target =>
      ts <- c_targetItems ;;
      match ts !! k with
      | Some _ => Mem.ret tt
      | None => addTargetToTargetItems target
      end
  | None => Mem.ret tt
  end s = Some (tt, s') →
  adding s1 d (done ++ [k]) s'.
Proof.
  intros [Hwf Hcs Hring Hcm Hcr Htr Hheap Hloc Hlow Hdom Hcnt] Hrun.
  apply add_body_inv in Hrun
    as [[Hskip ->]|(target & t & owner & q & po & Hadd & Hk & Ht & Hlc & Hq & Hpo & ->)];
    [| |done].
  - split; try done. intros Hkeyed. rewrite (Hdom Hkeyed).
    rewrite list_to_set_snoc.
    apply set_eq. intros k'. destruct Hskip as [Hnone|Hsome].
    + apply not_elem_of_dom in Hnone. set_solver.
    + apply elem_of_dom in Hsome. rewrite (Hdom Hkeyed) in Hsome. set_solver.
  - split.
    + by apply well_formed_assigned.
    + by rewrite live_collectors_assigned.
    + done.
    + done.
    + done.
    + done.
    + intros p t' Hp. by apply targetObjs_assigned, Hheap.
    + intros Hloc1 k' p t'. rewrite live_targets_assigned by done.
      rewrite ring_owner_assigned by done.
      intros [[<- <-]|[Hne Hp]]%lookup_insert_Some Ht'.
      * rewrite targetObjs_assigned_new in Ht'. injection Ht' as <-.
        simpl. by eapply ring_owner_located.
      * destruct (wf_targets s Hwf _ _ Hp) as (t'' & Ht'' & _).
        rewrite (targetObjs_assigned _ _ _ _ _ _ Ht'') in Ht'.
        injection Ht' as <-. by apply (Hloc Hloc1 k' p).
    + rewrite live_targets_assigned, dom_insert_L by done. set_solver.
    + intros Hkeyed.
      rewrite live_targets_assigned, dom_insert_L, (Hdom Hkeyed) by done.
      rewrite list_to_set_snoc.
      destruct (Hkeyed _ _ Hadd) as (t1 & Ht1 & Hhash).
      rewrite (Hheap _ _ Ht1) in Ht. injection Ht as <-. rewrite Hhash.
      assert (k ∈ dom (diff.additions d)) by (apply elem_of_dom; eauto).
      set_solver.
    + intros Hcontract Hcnt1.
      destruct (Hcontract _ _ Hadd) as (t1 & Ht1 & Hhash & Hdead).
      rewrite (Hheap _ _ Ht1) in Ht. injection Ht as <-.
      apply counts_exact_assigned; [done|by apply Hcnt|done|].
      right. split; [|by rewrite Hcs].
      unfold assignment. by rewrite lookup_omap, Hhash, Hk.
Qed.

Lemma addTargets_inv s order d s' :
  well_formed s →
  addTargets order d s = Some (tt, s') →
  adding s d order s'.
Proof.
  intros Hwf. unfold addTargets, range.
  apply (for_each_ind (adding s d)).
  - intros done k rest s1 s2 _ HI Hbody. by eapply adding_step.
  - split; try done. intros _. set_solver.
Qed.

(** ** First loop of [handleCollectors] *)

Lemma consistent_Remove_run s name :
  consistent_Remove name s
  = Some (tt, set_consistentHasher (delete name (consistentHasher s)) s).
Proof. reflexivity. Qed.

Lemma clear_body_inv s (d : diff.Changes ptr) kk s' :
  well_formed s →
  match diff.removals d !! kk with
  | Some k =>
      s <- Mem.get ;;
      name <- String k ;;
      collectorMap_delete (collectors s) name ;;;
      consistent_Remove name ;;;
      emit (TargetsPerCollector_Set name consistentHashingStrategyName 0)
  | None => Mem.ret tt
  end s = Some (tt, s') →
  (diff.removals d !! kk = None ∧ s' = s) ∨
  ∃ kp c, diff.removals d !! kk = Some kp ∧ collectorObjs s !! kp = Some c ∧
          s' = cleared s (Name c).
Proof.
  intros Hwf Hrun.
  destruct (diff.removals d !! kk) as [kp|] eqn:Hrem; last first.
  { left. by injection Hrun as <-. }
  right.
  rewrite (bind_run _ _ _ _ _ (eq_refl : Mem.get s = Some (s, s))) in Hrun.
  apply bind_inv in Hrun as (name & s1 & Hname & Hrun).
  unfold String in Hname.
  apply bind_inv in Hname as (c & s1' & [Hc ->]%load_Collector_inv & Hname).
  injection Hname as <- <-.
  rewrite (bind_run _ _ _ _ _ (collectorMap_delete_run _ _ _ _
    (well_formed_collectors_ref s Hwf))) in Hrun.
  rewrite (bind_run _ _ _ _ _ (consistent_Remove_run _ _)) in Hrun.
  rewrite emit_run in Hrun. injection Hrun as <-.
  by exists kp, c.
Qed.

Lemma live_collectors_cleared s name :
  well_formed s →
  live_collectors (cleared s name) = delete name (live_collectors s).
Proof.
  intros Hwf. unfold live_collectors at 1. simpl.
  rewrite list_lookup_insert_eq; [done|].
  destruct (wf_collectors_ref s Hwf) as [cs Hcs]. by eapply lookup_lt_Some.
Qed.

Lemma well_formed_cleared s name :
  well_formed s → well_formed (cleared s name).
Proof.
  intros Hwf. split.
  - simpl. apply list_lookup_insert_is_Some, (wf_collectors_ref s Hwf).
  - apply (wf_targets_ref s Hwf).
  - intros n p. rewrite live_collectors_cleared by done.
    intros [_ Hp]%lookup_delete_Some. by apply (wf_collectors s Hwf).
  - intros n p. simpl. intros [_ Hp]%lookup_delete_Some.
    by apply (wf_ring s Hwf).
  - rewrite live_collectors_cleared by done. simpl.
    by rewrite !dom_delete_L, (wf_ring_dom s Hwf).
  - apply (wf_targets s Hwf).
Qed.

Lemma counts_exact_cleared s name :
  well_formed s → counts_exact s → counts_exact (cleared s name).
Proof.
  intros Hwf Hcnt n p c. rewrite live_collectors_cleared by done.
  intros [_ Hp]%lookup_delete_Some Hc. by apply (Hcnt n p c).
Qed.

Lemma clearing_step s0 d done kk s s' :
  well_formed s0 →
  (∀ k p, diff.removals d !! k = Some p → live_collectors s0 !! k = Some p) →
  clearing s0 d done s →
  match diff.removals d !! kk with
  | Some k =>
      s <- Mem.get ;;
      name <- String k ;;
      collectorMap_delete (collectors s) name ;;;
      consistent_Remove name ;;;
      emit (TargetsPerCollector_Set name consistentHashingStrategyName 0)
  | None => Mem.ret tt
  end s = Some (tt, s') →
  clearing s0 d (done ++ [kk]) s'.
Proof.
  intros Hwf0 Hsub [Hwf Hobjs Htobjs Htm Hcr Htr Hcs Hcnt] Hrun.
  apply clear_body_inv in Hrun as [[Hnone ->]|(kp & c & Hrem & Hc & ->)];
    [| |done].
  - split; try done. intros n. rewrite Hcs.
    destruct (decide (n ∈ done ∧ is_Some (diff.removals d !! n)))
      as [[Hin Hsome]|Hno].
    + rewrite decide_True; [done|]. split; [|done].
      apply elem_of_app. by left.
    + rewrite decide_False; [done|]. intros [Hin Hsome].
      apply elem_of_app in Hin as [Hin| ->%list_elem_of_singleton];
        [by destruct Hno|].
      rewrite Hnone in Hsome. by destruct Hsome.
  - assert (Name c = kk) as ->.
    { rewrite Hobjs in Hc.
      destruct (wf_collectors s0 Hwf0 _ _ (Hsub _ _ Hrem)) as (c' & Hc' & <-).
      congruence. }
    split; try done.
    + by apply well_formed_cleared.
    + intros n. rewrite live_collectors_cleared, lookup_delete by done.
      rewrite Hcs. destruct (decide (kk = n)) as [<-|Hne].
      * rewrite decide_True; [done|]. split; [|by eauto].
        apply elem_of_app. right. by apply list_elem_of_singleton.
      * destruct (decide (n ∈ done ∧ is_Some (diff.removals d !! n)))
          as [[Hin Hsome]|Hno].
        -- rewrite decide_True; [done|]. split; [|done].
           apply elem_of_app. by left.
        -- rewrite decide_False; [done|]. intros [Hin Hsome].
           apply elem_of_app in Hin as [Hin|Heq%list_elem_of_singleton];
             [by destruct Hno|congruence].
    + intros Hcnt0. by apply counts_exact_cleared, Hcnt.
Qed.

Lemma clearCollectors_inv s order d s' :
  well_formed s →
  (∀ k p, diff.removals d !! k = Some p → live_collectors s !! k = Some p) →
  clearCollectors order d s = Some (tt, s') →
  clearing s d order s'.
Proof.
  intros Hwf Hsub. unfold clearCollectors, range.
  apply (for_each_ind (clearing s d)).
  - intros done k rest s1 s2 _ HI Hbody. by eapply clearing_step.
  - split; done.
Qed.

(** ** Second loop of [handleCollectors] *)

Lemma consistent_Add_run s p c :
  collectorObjs s !! p = Some c →
  consistent_Add p s
  = Some (tt, match consistentHasher s !! Name c with
              | Some _ => s
              | None =>
                  set_consistentHasher (<[Name c := p]> (consistentHasher s)) s
              end).
Proof.
  intros Hp. unfold consistent_Add.
  rewrite (bind_run _ _ _ _ _ (String_run _ _ _ Hp)).
  rewrite (bind_run _ _ _ _ _ (eq_refl : Mem.get s = Some (s, s))).
  by destruct (consistentHasher s !! Name c).
Qed.

Lemma insert_body_inv s (d : diff.Changes ptr) kk s' :
  well_formed s →
  match diff.additions d !! kk with
  | Some i =>
      s <- Mem.get ;;
      name <- String i ;;
      p <- alloc_Collector (NewCollector name) ;;
      collectorMap_assign (collectors s) name p ;;;
      cs <- c_collectors ;;
      member <- Mem.must (cs !! name) ;;
      consistent_Add member
  | None => Mem.ret tt
  end s = Some (tt, s') →
  (diff.additions d !! kk = None ∧ s' = s) ∨
  ∃ ip c, diff.additions d !! kk = Some ip ∧ collectorObjs s !! ip = Some c ∧
          s' = inserted s (Name c).
Proof.
  intros Hwf Hrun.
  destruct (diff.additions d !! kk) as [ip|] eqn:Hadd; last first.
  { left. by injection Hrun as <-. }
  right.
  pose proof (well_formed_collectors_ref s Hwf) as Hcs.
  rewrite (bind_run _ _ _ _ _ (eq_refl : Mem.get s = Some (s, s))) in Hrun.
  apply bind_inv in Hrun as (name & s1 & Hname & Hrun).
  unfold String in Hname.
  apply bind_inv in Hname as (c & s1' & [Hc ->]%load_Collector_inv & Hname).
  injection Hname as <- <-.
  rewrite (bind_run _ _ _ _ _ (alloc_Collector_run _ _)) in Hrun.
  set (s1 := set_collectorObjs _ _) in Hrun.
  rewrite (bind_run _ _ _ _ _
    (collectorMap_assign_run s1 _ _ _ _ Hcs)) in Hrun.
  set (s2 := set_collectorMaps _ _) in Hrun.
  assert (collectorMaps s2 !! collectors s2
          = Some (<[Name c := length (collectorObjs s)]> (live_collectors s)))
    as Hcs2.
  { simpl. apply list_lookup_insert_eq. by eapply lookup_lt_Some. }
  rewrite (bind_run _ _ _ _ _ (c_collectors_run s2 _ Hcs2)) in Hrun.
  rewrite (bind_run _ _ _ _ _
    (must_run _ _ _ (lookup_insert_eq _ _ _))) in Hrun.
  assert (collectorObjs s2 !! length (collectorObjs s)
          = Some (NewCollector (Name c))) as Hnew.
  { simpl. by rewrite lookup_app_r, Nat.sub_diag. }
  rewrite (consistent_Add_run s2 _ _ Hnew) in Hrun.
  injection Hrun as <-. exists ip, c. repeat split; [done..|].
  unfold inserted. simpl. by destruct (consistentHasher s !! Name c).
Qed.

Lemma live_collectors_inserted s name :
  well_formed s →
  live_collectors (inserted s name)
  = <[name := length (collectorObjs s)]> (live_collectors s).
Proof.
  intros Hwf. unfold live_collectors at 1. simpl.
  rewrite list_lookup_insert_eq; [done|].
  destruct (wf_collectors_ref s Hwf) as [cs Hcs]. by eapply lookup_lt_Some.
Qed.

Lemma collectorObjs_inserted s name p c :
  collectorObjs s !! p = Some c → collectorObjs (inserted s name) !! p = Some c.
Proof. intros Hp. simpl. by apply lookup_app_l_Some. Qed.

Lemma collectorObjs_inserted_new s name :
  collectorObjs (inserted s name) !! length (collectorObjs s)
  = Some (NewCollector name).
Proof. simpl. by rewrite lookup_app_r, Nat.sub_diag. Qed.

Lemma well_formed_inserted s name :
  well_formed s → well_formed (inserted s name).
Proof.
  intros Hwf. split.
  - simpl. apply list_lookup_insert_is_Some, (wf_collectors_ref s Hwf).
  - apply (wf_targets_ref s Hwf).
  - intros n p. rewrite live_collectors_inserted by done.
    intros [[<- <-]|[Hne Hp]]%lookup_insert_Some.
    + exists (NewCollector name). split; [apply collectorObjs_inserted_new|done].
    + destruct (wf_collectors s Hwf _ _ Hp) as (c & Hc & Hn).
      exists c. split; [by apply collectorObjs_inserted|done].
  - intros n p. simpl.
    destruct (consistentHasher s !! name) as [x|] eqn:Hring.
    + intros Hp. destruct (wf_ring s Hwf _ _ Hp) as (c & Hc & Hn).
      exists c. split; [by apply lookup_app_l_Some|done].
    + intros [[<- <-]|[Hne Hp]]%lookup_insert_Some.
      * exists (NewCollector name). split; [|done].
        by rewrite lookup_app_r, Nat.sub_diag.
      * destruct (wf_ring s Hwf _ _ Hp) as (c & Hc & Hn).
        exists c. split; [by apply lookup_app_l_Some|done].
  - rewrite live_collectors_inserted by done. simpl.
    rewrite dom_insert_L, <-(wf_ring_dom s Hwf).
    destruct (consistentHasher s !! name) as [x|] eqn:Hring.
    + assert (name ∈ dom (consistentHasher s)) by (apply elem_of_dom; eauto).
      set_solver.
    + by rewrite dom_insert_L.
  - apply (wf_targets s Hwf).
Qed.

Lemma counts_exact_inserted s name :
  well_formed s →
  counts_exact s →
  live_collectors s !! name = None →
  (∀ key, assignment s !! key ≠ Some name) →
  counts_exact (inserted s name).
Proof.
  intros Hwf Hcnt Hfresh Hnone n p c.
  rewrite live_collectors_inserted by done.
  intros [[<- <-]|[Hne Hp]]%lookup_insert_Some.
  - rewrite collectorObjs_inserted_new. intros [= <-]. simpl.
    assert (owned_count (inserted s name) name = 0) as ->; [|done].
    apply map_size_empty_iff, map_empty. intros key.
    apply map_lookup_filter_None. right. intros o Ho Heq. simpl in Heq.
    subst o. by apply (Hnone key).
  - destruct (wf_collectors s Hwf _ _ Hp) as (c' & Hc' & Hn).
    rewrite (collectorObjs_inserted _ name _ _ Hc'). intros [= <-].
    by apply (Hcnt n p c').
Qed.

Lemma added_names_snoc s1 d done kk :
  added_names s1 d (done ++ [kk])
  = added_names s1 d done ∪
    match diff.additions d !! kk ≫= (λ p, Name <$> collectorObjs s1 !! p) with
    | Some n => {[n]}
    | None => ∅
    end.
Proof.
  unfold added_names. rewrite omap_app, list_to_set_app_L. f_equal. simpl.
  destruct (diff.additions d !! kk ≫= _); simpl; set_solver.
Qed.

Lemma added_names_keyed s1 d done :
  (∀ k p, diff.additions d !! k = Some p →
     ∃ c, collectorObjs s1 !! p = Some c ∧ Name c = k) →
  added_names s1 d done = list_to_set done ∩ dom (diff.additions d).
Proof.
  intros Hkeyed. induction done as [|k done IH] using rev_ind.
  - unfold added_names. set_solver.
  - rewrite added_names_snoc, IH, list_to_set_snoc.
    destruct (diff.additions d !! k) as [p|] eqn:Hk; simpl.
    + destruct (Hkeyed _ _ Hk) as (c & -> & <-). simpl.
      assert (Name c ∈ dom (diff.additions d)) by (apply elem_of_dom; eauto).
      set_solver.
    + apply not_elem_of_dom in Hk. set_solver.
Qed.

Lemma inserting_step s1 d done kk s s' :
  inserting s1 d done s →
  kk ∉ done →
  match diff.additions d !! kk with
  | Some i =>
      s <- Mem.get ;;
      name <- String i ;;
      p <- alloc_Collector (NewCollector name) ;;
      collectorMap_assign (collectors s) name p ;;;
      cs <- c_collectors ;;
      member <- Mem.must (cs !! name) ;;
      consistent_Add member
  | None => Mem.ret tt
  end s = Some (tt, s') →
  inserting s1 d (done ++ [kk]) s'.
Proof.
  intros [Hwf Htobjs Htm Hcr Htr Hheap Hlow Hne Hdom Hcnt] Hfresh Hrun.
  apply insert_body_inv in Hrun as [[Hnone ->]|(ip & c & Hadd & Hc & ->)];
    [| |done].
  - split; try done.
    + intros (k & [Hin| ->%list_elem_of_singleton]%elem_of_app & Hsome).
      * apply Hne. eauto.
      * rewrite Hnone in Hsome. by destruct Hsome.
    + intros Hvalid. rewrite added_names_snoc, Hnone, (Hdom Hvalid). simpl.
      set_solver.
  - split; try done.
    + by apply well_formed_inserted.
    + intros p c' Hp. by apply collectorObjs_inserted, Hheap.
    + rewrite live_collectors_inserted, dom_insert_L by done. set_solver.
    + intros _. rewrite live_collectors_inserted by done.
      apply insert_non_empty.
    + intros Hvalid.
      rewrite live_collectors_inserted, dom_insert_L, (Hdom Hvalid) by done.
      rewrite added_names_snoc, Hadd. simpl.
      destruct (Hvalid _ _ Hadd) as [c1 Hc1]. rewrite Hc1. simpl.
      rewrite (Hheap _ _ Hc1) in Hc. injection Hc as <-. set_solver.
    + intros Hkeyed Hnew Hcnt1.
      destruct (Hkeyed _ _ Hadd) as (c1 & Hc1 & Hname).
      rewrite (Hheap _ _ Hc1) in Hc. injection Hc as <-. rewrite Hname.
      destruct (Hnew kk) as [Hdead Hunowned]; [by eauto|].
      assert (∀ k p, diff.additions d !! k = Some p →
                is_Some (collectorObjs s1 !! p)) as Hvalid.
      { intros k p Hk. destruct (Hkeyed _ _ Hk) as (c & Hc & _). eauto. }
      apply counts_exact_inserted; [done|by apply Hcnt| |].
      * apply not_elem_of_dom.
        rewrite (Hdom Hvalid), (added_names_keyed _ _ _ Hkeyed).
        apply not_elem_of_dom in Hdead.
        assert (kk ∉ (list_to_set done : gset string))
          by (by rewrite elem_of_list_to_set).
        set_solver.
      * intros key. unfold assignment, live_targets.
        rewrite Htm, Htr, Htobjs. apply Hunowned.
Qed.

Lemma insertCollectors_inv s order d s' :
  well_formed s →
  NoDup order →
  insertCollectors order d s = Some (tt, s') →
  inserting s d order s'.
Proof.
  intros Hwf Hnd. unfold insertCollectors, range.
  apply (for_each_ind (inserting s d)).
  - intros done k rest s1 s2 Horder HI Hbody.
    eapply inserting_step; [done| |done].
    rewrite Horder in Hnd. apply NoDup_app in Hnd as (_ & Hnd & _).
    intros Hin. apply (Hnd _ Hin). by left.
  - split; try done.
    + intros (k & Hin & _). by apply elem_of_nil in Hin.
    + intros _. unfold added_names. set_solver.
Qed.

(** ** The diff *)

Lemma additions_Some {T} (current new : gmap string T) k x :
  diff.additions (diff.Maps current new) !! k = Some x
  ↔ new !! k = Some x ∧ current !! k = None.
Proof. unfold diff.Maps. simpl. by rewrite map_lookup_filter_Some. Qed.

Lemma removals_Some {T} (current new : gmap string T) k x :
  diff.removals (diff.Maps current new) !! k = Some x
  ↔ current !! k = Some x ∧ new !! k = None.
Proof. unfold diff.Maps. simpl. by rewrite map_lookup_filter_Some. Qed.

Lemma dom_additions {T} (current new : gmap string T) :
  dom (diff.additions (diff.Maps current new)) = dom new ∖ dom current.
Proof.
  apply set_eq. intros k. split.
  - intros [x [??]%additions_Some]%elem_of_dom. apply elem_of_difference.
    split; [apply elem_of_dom; eauto|by apply not_elem_of_dom].
  - intros [[x Hx]%elem_of_dom Hc%not_elem_of_dom]%elem_of_difference.
    apply elem_of_dom. exists x. by apply additions_Some.
Qed.

Lemma dom_removals {T} (current new : gmap string T) :
  dom (diff.removals (diff.Maps current new)) = dom current ∖ dom new.
Proof.
  apply set_eq. intros k. split.
  - intros [x [??]%removals_Some]%elem_of_dom. apply elem_of_difference.
    split; [apply elem_of_dom; eauto|by apply not_elem_of_dom].
  - intros [[x Hx]%elem_of_dom Hc%not_elem_of_dom]%elem_of_difference.
    apply elem_of_dom. exists x. by apply removals_Some.
Qed.

Lemma has_changes_false {T} (d : diff.Changes T) :
  has_changes d = false ↔ diff.additions d = ∅ ∧ diff.removals d = ∅.
Proof.
  unfold has_changes. rewrite orb_false_iff, !negb_false_iff, !Nat.eqb_eq.
  by rewrite !map_size_empty_iff.
Qed.

Lemma no_changes_dom {T} (current new : gmap string T) :
  has_changes (diff.Maps current new) = false ↔ dom current = dom new.
Proof.
  rewrite has_changes_false, <-!dom_empty_iff_L, dom_additions, dom_removals.
  split.
  - intros [Ha Hr]. apply set_eq. intros k.
    destruct (decide (k ∈ dom current)), (decide (k ∈ dom new)); set_solver.
  - intros ->. set_solver.
Qed.

(** ** States that differ in their events only *)

Lemma well_formed_set_events s evs :
  well_formed s ↔ well_formed (set_events evs s).
Proof. split; intros [? ? ? ? ? ?]; by split. Qed.

(** ** [SetTargets] *)

Lemma SetTargets_inv s order1 order2 targets s' :
  well_formed s →
  SetTargets order1 order2 targets s = Some (tt, s') →
  let d := diff.Maps (live_targets s) targets in
  (live_collectors s = ∅ ∧
   s' = observed "SetTargets"
          (set_events
             (events s ++
                [Log_Info "No collector instances present, cannot set targets"])
             s)) ∨
  (live_collectors s ≠ ∅ ∧ has_changes d = false ∧
   s' = observed "SetTargets" s) ∨
  (live_collectors s ≠ ∅ ∧ has_changes d = true ∧
   ∃ s1 s2, removing s d order1 s1 ∧ adding s1 d order2 s2 ∧
            s' = observed "SetTargets" s2).
Proof.
  intros Hwf Hrun d. unfold SetTargets in Hrun.
  rewrite (bind_run _ _ _ _ _
    (c_collectors_run _ _ (well_formed_collectors_ref s Hwf))) in Hrun.
  destruct (size (live_collectors s) =? 0) eqn:Hsize.
  - left. apply Nat.eqb_eq, map_size_empty_iff in Hsize.
    rewrite (bind_run _ _ _ _ _ (emit_run _ _)) in Hrun.
    rewrite emit_run in Hrun. by injection Hrun as <-.
  - right. apply Nat.eqb_neq, map_size_non_empty_iff in Hsize.
    apply bind_inv in Hrun as ([] & s2 & Hrun & Hemit).
    rewrite emit_run in Hemit. injection Hemit as <-.
    rewrite (bind_run _ _ _ _ _
      (c_targetItems_run _ _ (well_formed_targets_ref s Hwf))) in Hrun.
    fold d in Hrun. destruct (has_changes d).
    + right. split; [done|]. split; [done|].
      unfold handleTargets in Hrun.
      apply bind_inv in Hrun as ([] & s1 & Hrem & Hadd).
      apply removeTargets_inv in Hrem; [|done].
      apply addTargets_inv in Hadd; [|apply (rem_wf _ _ _ _ Hrem)].
      by exists s1, s2.
    + left. by injection Hrun as <-.
Qed.

(** ** [SetCollectors] *)

Lemma SetCollectors_inv s order1 order2 order3 cs s' :
  well_formed s →
  NoDup order2 →
  SetCollectors order1 order2 order3 cs s = Some (tt, s') →
  let d := diff.Maps (live_collectors s) cs in
  let s0 := set_events
              (events s ++
                 [CollectorsAllocatable_Set consistentHashingStrategyName
                    (Z.of_nat (size cs))]) s in
  (cs = ∅ ∧
   s' = observed "SetCollectors"
          (set_events (events s0 ++ [Log_Info "No collector instances present"])
             s0)) ∨
  (cs ≠ ∅ ∧ has_changes d = false ∧ s' = observed "SetCollectors" s0) ∨
  (cs ≠ ∅ ∧ has_changes d = true ∧
   ∃ s1 s2 s3, clearing s0 d order1 s1 ∧ inserting s1 d order2 s2 ∧
               reallocating s2 order3 s3 ∧
               s' = observed "SetCollectors" s3).
Proof.
  intros Hwf Hnd Hrun d s0. unfold SetCollectors in Hrun.
  rewrite (bind_run _ _ _ _ _ (emit_run _ _)) in Hrun. fold s0 in Hrun.
  assert (well_formed s0) as Hwf0 by (by apply well_formed_set_events).
  destruct (size cs =? 0) eqn:Hsize.
  - left. apply Nat.eqb_eq, map_size_empty_iff in Hsize.
    rewrite (bind_run _ _ _ _ _ (emit_run _ _)) in Hrun.
    rewrite emit_run in Hrun. by injection Hrun as <-.
  - right. apply Nat.eqb_neq, map_size_non_empty_iff in Hsize.
    apply bind_inv in Hrun as ([] & s3 & Hrun & Hemit).
    rewrite emit_run in Hemit. injection Hemit as <-.
    rewrite (bind_run _ _ _ _ _
      (c_collectors_run _ _ (well_formed_collectors_ref s0 Hwf0))) in Hrun.
    change (live_collectors s0) with (live_collectors s) in Hrun.
    fold d in Hrun. destruct (has_changes d).
    + right. split; [done|]. split; [done|].
      unfold handleCollectors in Hrun.
      apply bind_inv in Hrun as ([] & s1 & Hclr & Hrun).
      apply bind_inv in Hrun as ([] & s2 & Hins & Hrea).
      apply clearCollectors_inv in Hclr; [|done|].
      2:{ intros k p [??]%removals_Some. done. }
      apply insertCollectors_inv in Hins; [|apply (clr_wf _ _ _ _ Hclr)|done].
      apply reallocateTargets_inv in Hrea; [|apply (ins_wf _ _ _ _ Hins)].
      by exists s1, s2, s3.
    + left. by injection Hrun as <-.
Qed.

(** ** Steps that leave the allocator alone *)

Lemma extends_live_collectors s s' :
  extends s s' → live_collectors s' = live_collectors s.
Proof. intros Hext. unfold live_collectors. by rewrite (ext_collectorMaps _ _ Hext). Qed.

Lemma extends_live_targets s s' :
  extends s s' → live_targets s' = live_targets s.
Proof. intros Hext. unfold live_targets. by rewrite (ext_targetMaps _ _ Hext). Qed.

Lemma extends_well_formed s s' :
  well_formed s → extends s s' → well_formed s'.
Proof.
  intros Hwf Hext. split.
  - rewrite (ext_collectorMaps _ _ Hext). apply (wf_collectors_ref s Hwf).
  - rewrite (ext_targetMaps _ _ Hext). apply (wf_targets_ref s Hwf).
  - intros n p. rewrite (extends_live_collectors _ _ Hext). intros Hp.
    destruct (wf_collectors s Hwf _ _ Hp) as (c & Hc & Hn).
    exists c. split; [by apply (ext_collectorObjs _ _ Hext)|done].
  - intros n p. rewrite (ext_ring _ _ Hext). intros Hp.
    destruct (wf_ring s Hwf _ _ Hp) as (c & Hc & Hn).
    exists c. split; [by apply (ext_collectorObjs _ _ Hext)|done].
  - rewrite (ext_ring _ _ Hext), (extends_live_collectors _ _ Hext).
    apply (wf_ring_dom s Hwf).
  - intros k p. rewrite (extends_live_targets _ _ Hext). intros Hp.
    destruct (wf_targets s Hwf _ _ Hp) as (t & Ht & Hk).
    exists t. split; [by apply (ext_targetObjs _ _ Hext)|done].
Qed.

Lemma extends_ring_owner s s' key :
  well_formed s → extends s s' → ring_owner s' key = ring_owner s key.
Proof.
  intros Hwf Hext. unfold ring_owner. rewrite (ext_ring _ _ Hext).
  destruct (locate config (dom (consistentHasher s)) key) as [name|]; [|done].
  simpl. destruct (consistentHasher s !! name) as [p|] eqn:Hp; [|done].
  simpl. destruct (wf_ring s Hwf _ _ Hp) as (c & Hc & Hn).
  by rewrite Hc, (ext_collectorObjs _ _ Hext _ _ Hc).
Qed.

Lemma extends_assignment s s' :
  well_formed s → extends s s' → assignment s' = assignment s.
Proof.
  intros Hwf Hext. unfold assignment.
  rewrite (extends_live_targets _ _ Hext). apply map_eq. intros k.
  rewrite !lookup_omap. destruct (live_targets s !! k) as [p|] eqn:Hp; [|done].
  simpl. destruct (wf_targets s Hwf _ _ Hp) as (t & Ht & _).
  by rewrite Ht, (ext_targetObjs _ _ Hext _ _ Ht).
Qed.

Lemma extends_located s s' :
  well_formed s → located s → extends s s' → located s'.
Proof.
  intros Hwf Hloc Hext k p t. rewrite (extends_live_targets _ _ Hext).
  rewrite (extends_ring_owner _ _ _ Hwf Hext). intros Hp Ht.
  destruct (wf_targets s Hwf _ _ Hp) as (t' & Ht' & _).
  rewrite (ext_targetObjs _ _ Hext _ _ Ht') in Ht. injection Ht as <-.
  by apply (Hloc k p).
Qed.

Lemma extends_counts_exact s s' :
  well_formed s → counts_exact s → extends s s' → counts_exact s'.
Proof.
  intros Hwf Hcnt Hext n p c. rewrite (extends_live_collectors _ _ Hext).
  intros Hp Hc. destruct (wf_collectors s Hwf _ _ Hp) as (c' & Hc' & _).
  rewrite (ext_collectorObjs _ _ Hext _ _ Hc') in Hc. injection Hc as <-.
  unfold owned_count. rewrite (extends_assignment _ _ Hwf Hext).
  by apply (Hcnt n p c').
Qed.

Lemma extends_set_events s evs : extends s (set_events evs s).
Proof. by split. Qed.

Lemma extends_alloc_TargetItem s t p s' :
  alloc_TargetItem t s = Some (p, s') → extends s s'.
Proof.
  rewrite alloc_TargetItem_run. intros [= <- <-].
  split; try done. intros p t' Hp. simpl. by apply lookup_app_l_Some.
Qed.

Lemma extends_alloc_Collector s c p s' :
  alloc_Collector c s = Some (p, s') → extends s s'.
Proof.
  rewrite alloc_Collector_run. intros [= <- <-].
  split; try done. intros p c' Hp. simpl. by apply lookup_app_l_Some.
Qed.

(** ** The snapshot accessors *)

Lemma copy_of_lookup live order m0 k :
  copy_of live order m0 !! k
  = if decide (k ∈ order) then
      match live !! k with Some v => Some v | None => m0 !! k end
    else m0 !! k.
Proof.
  revert m0. induction order as [|k' order IH]; intros m0.
  - unfold copy_of. cbn [foldl]. rewrite decide_False; [done|].
    apply not_elem_of_nil.
  - change (copy_of live (k' :: order) m0)
      with (copy_of live order
              (match live !! k' with Some v => <[k' := v]> m0 | None => m0 end)).
    rewrite IH. destruct (decide (k = k')) as [->|Hne].
    + rewrite (decide_True (P := k' ∈ k' :: order)) by left.
      destruct (live !! k') as [v|] eqn:Hv.
      * rewrite lookup_insert_eq. by case_decide.
      * by case_decide.
    + destruct (decide (k ∈ order)) as [Hin|Hnin].
      * rewrite (decide_True (P := k ∈ k' :: order)) by (by right).
        destruct (live !! k); [done|].
        destruct (live !! k'); [by rewrite lookup_insert_ne|done].
      * rewrite (decide_False (P := k ∈ k' :: order)).
        -- destruct (live !! k'); [by rewrite lookup_insert_ne|done].
        -- intros [?|?]%elem_of_cons; congruence.
Qed.

Lemma copy_of_order live order :
  list_to_set order = dom live → copy_of live order ∅ = live.
Proof.
  intros Horder. apply map_eq. intros k.
  rewrite copy_of_lookup, lookup_empty.
  destruct (decide (k ∈ order)) as [Hin|Hnin]; [by destruct (live !! k)|].
  symmetry. apply not_elem_of_dom. rewrite <-Horder.
  by rewrite elem_of_list_to_set.
Qed.

Lemma copy_targets_loop s r live order m0 :
  targetMaps s !! targetItems s = Some live →
  r = length (targetMaps s) →
  Mem.for_each order (λ k,
    m <- read_targetMap (targetItems s) ;;
    match m !! k with
    | Some v => targetMap_assign r k v
    | None => Mem.ret tt
    end) (set_targetMaps (targetMaps s ++ [m0]) s)
  = Some (tt, set_targetMaps (targetMaps s ++ [copy_of live order m0]) s).
Proof.
  intros Hlive ->. revert m0.
  induction order as [|k order IH]; intros m0; [done|]. simpl.
  set (s1 := set_targetMaps (targetMaps s ++ [m0]) s).
  assert (targetMaps s1 !! targetItems s = Some live) as Hlive1.
  { simpl. by apply lookup_app_l_Some. }
  assert (targetMaps s1 !! length (targetMaps s) = Some m0) as Hcopy.
  { simpl. by rewrite lookup_app_r, Nat.sub_diag. }
  destruct (live !! k) as [v|] eqn:Hk.
  - erewrite bind_run; last first.
    { rewrite (bind_run _ _ _ _ _ (read_targetMap_run _ _ _ Hlive1)), Hk.
      by apply targetMap_assign_run. }
    simpl. rewrite <-(IH (<[k := v]> m0)). f_equal.
    unfold set_targetMaps. simpl. f_equal.
    rewrite <-(Nat.add_0_r (length (targetMaps s))). by rewrite insert_app_r.
  - erewrite bind_run; last first.
    { by rewrite (bind_run _ _ _ _ _ (read_targetMap_run _ _ _ Hlive1)), Hk. }
    apply IH.
Qed.

Lemma TargetItems_run s order :
  well_formed s →
  TargetItems order s
  = Some (length (targetMaps s),
          set_targetMaps
            (targetMaps s ++ [copy_of (live_targets s) order ∅]) s).
Proof.
  intros Hwf. unfold TargetItems, make_targetMap.
  rewrite (bind_run _ _ _ (length (targetMaps s))
             (set_targetMaps (targetMaps s ++ [∅]) s)) by done.
  set (s1 := set_targetMaps _ s).
  rewrite (bind_run _ _ _ _ _ (eq_refl : Mem.get s1 = Some (s1, s1))).
  unfold range_targetMap. change (targetItems s1) with (targetItems s).
  subst s1.
  by rewrite (bind_run _ _ _ _ _
    (copy_targets_loop s _ _ order ∅ (well_formed_targets_ref s Hwf) eq_refl)).
Qed.

Lemma copy_collectors_loop s r live order m0 :
  collectorMaps s !! collectors s = Some live →
  r = length (collectorMaps s) →
  Mem.for_each order (λ k,
    m <- read_collectorMap (collectors s) ;;
    match m !! k with
    | Some v => collectorMap_assign r k v
    | None => Mem.ret tt
    end) (set_collectorMaps (collectorMaps s ++ [m0]) s)
  = Some (tt, set_collectorMaps (collectorMaps s ++ [copy_of live order m0]) s).
Proof.
  intros Hlive ->. revert m0.
  induction order as [|k order IH]; intros m0; [done|]. simpl.
  set (s1 := set_collectorMaps (collectorMaps s ++ [m0]) s).
  assert (collectorMaps s1 !! collectors s = Some live) as Hlive1.
  { simpl. by apply lookup_app_l_Some. }
  assert (collectorMaps s1 !! length (collectorMaps s) = Some m0) as Hcopy.
  { simpl. by rewrite lookup_app_r, Nat.sub_diag. }
  destruct (live !! k) as [v|] eqn:Hk.
  - erewrite bind_run; last first.
    { rewrite (bind_run _ _ _ _ _ (read_collectorMap_run _ _ _ Hlive1)), Hk.
      by apply collectorMap_assign_run. }
    simpl. rewrite <-(IH (<[k := v]> m0)). f_equal.
    unfold set_collectorMaps. simpl. f_equal.
    rewrite <-(Nat.add_0_r (length (collectorMaps s))). by rewrite insert_app_r.
  - erewrite bind_run; last first.
    { by rewrite (bind_run _ _ _ _ _ (read_collectorMap_run _ _ _ Hlive1)), Hk. }
    apply IH.
Qed.

Lemma Collectors_run s order :
  well_formed s →
  Collectors order s
  = Some (length (collectorMaps s),
          set_collectorMaps
            (collectorMaps s ++ [copy_of (live_collectors s) order ∅]) s).
Proof.
  intros Hwf. unfold Collectors, make_collectorMap.
  rewrite (bind_run _ _ _ (length (collectorMaps s))
             (set_collectorMaps (collectorMaps s ++ [∅]) s)) by done.
  set (s1 := set_collectorMaps _ s).
  rewrite (bind_run _ _ _ _ _ (eq_refl : Mem.get s1 = Some (s1, s1))).
  unfold range_collectorMap. change (collectors s1) with (collectors s).
  subst s1.
  by rewrite (bind_run _ _ _ _ _
    (copy_collectors_loop s _ _ order ∅
       (well_formed_collectors_ref s Hwf) eq_refl)).
Qed.

Lemma extends_TargetItems s order r s' :
  well_formed s → TargetItems order s = Some (r, s') → extends s s'.
Proof.
  intros Hwf. rewrite TargetItems_run by done. intros [= <- <-].
  split; try done. simpl.
  destruct (wf_targets_ref s Hwf) as [ts Hts].
  by rewrite Hts, (lookup_app_l_Some _ _ _ _ Hts).
Qed.

Lemma extends_Collectors s order r s' :
  well_formed s → Collectors order s = Some (r, s') → extends s s'.
Proof.
  intros Hwf. rewrite Collectors_run by done. intros [= <- <-].
  split; try done. simpl.
  destruct (wf_collectors_ref s Hwf) as [cs Hcs].
  by rewrite Hcs, (lookup_app_l_Some _ _ _ _ Hcs).
Qed.

Lemma idle_extends s s' : well_formed s → idle s s' → extends s s'.
Proof.
  intros Hwf Hidle. revert Hwf.
  destruct Hidle as [s o r s' _ Hrun|s o r s' _ Hrun|s t p s' Hrun|s c p s' Hrun];
    intros Hwf.
  - by eapply extends_TargetItems.
  - by eapply extends_Collectors.
  - by eapply extends_alloc_TargetItem.
  - by eapply extends_alloc_Collector.
Qed.

(** ** The contract of the callers *)

Lemma keyed_by_hash_lookup s targets k p :
  keyed_by_hash s targets → targets !! k = Some p →
  ∃ t, targetObjs s !! p = Some t ∧ Hash t = k.
Proof.
  intros Hkeyed Hk. specialize (Hkeyed k p Hk). simpl in Hkeyed.
  destruct (targetObjs s !! p) as [t|]; [|done].
  exists t. split; [done|]. by injection Hkeyed.
Qed.

Lemma new_unowned_lookup s targets k p t :
  new_unowned s targets → targets !! k = Some p →
  live_targets s !! k = None → targetObjs s !! p = Some t →
  live_collectors s !! CollectorName t = None.
Proof.
  intros Hnew Hk Hfresh Ht. specialize (Hnew k p Hk Hfresh). simpl in Hnew.
  by rewrite Ht in Hnew.
Qed.

Lemma keyed_by_name_lookup s cs k p :
  keyed_by_name s cs → cs !! k = Some p →
  ∃ c, collectorObjs s !! p = Some c ∧ Name c = k.
Proof.
  intros Hkeyed Hk. specialize (Hkeyed k p Hk). simpl in Hkeyed.
  destruct (collectorObjs s !! p) as [c|]; [|done].
  exists c. split; [done|]. by injection Hkeyed.
Qed.

(** ** The invariants of the allocator *)

Lemma located_set_events s evs : located s → located (set_events evs s).
Proof. intros Hloc. exact Hloc. Qed.

Lemma counts_exact_set_events s evs :
  counts_exact s → counts_exact (set_events evs s).
Proof. intros Hcnt. exact Hcnt. Qed.

Lemma located_owner_live s key n :
  well_formed s → located s →
  assignment s !! key = Some n → is_Some (live_collectors s !! n).
Proof.
  intros Hwf Hloc. unfold assignment. rewrite lookup_omap.
  destruct (live_targets s !! key) as [p|] eqn:Hp; [|done]. simpl.
  destruct (targetObjs s !! p) as [t|] eqn:Ht; [|done]. simpl. intros [= <-].
  pose proof (Hloc key p t Hp Ht) as Howner. unfold ring_owner in Howner.
  destruct (locate config (dom (consistentHasher s)) key) as [name|]; [|done].
  simpl in Howner.
  destruct (consistentHasher s !! name) as [q|] eqn:Hq; [|done].
  simpl in Howner. destruct (wf_ring s Hwf _ _ Hq) as (c & Hc & Hn).
  rewrite Hc in Howner. simpl in Howner. injection Howner as <-.
  apply elem_of_dom. rewrite <-(wf_ring_dom s Hwf), Hn. apply elem_of_dom. eauto.
Qed.

Lemma SetTargets_invariant s order1 order2 targets s' :
  well_formed s → located s →
  SetTargets order1 order2 targets s = Some (tt, s') →
  well_formed s' ∧ located s'.
Proof.
  intros Hwf Hloc Hrun.
  apply SetTargets_inv in Hrun
    as [[_ ->]|[(_ & _ & ->)|(_ & _ & s1 & s2 & Hrem & Hadd & ->)]]; [| | |done].
  - split; [by do 2 apply ->well_formed_set_events|done].
  - split; [by apply ->well_formed_set_events|done].
  - split.
    + apply ->well_formed_set_events. apply (add_wf _ _ _ _ Hadd).
    + apply located_set_events, (add_located _ _ _ _ Hadd),
        (rem_located _ _ _ _ Hrem), Hloc.
Qed.

Lemma SetTargets_counts s order1 order2 targets s' :
  well_formed s → located s → counts_exact s →
  in_contract_targets s targets →
  SetTargets order1 order2 targets s = Some (tt, s') →
  counts_exact s'.
Proof.
  intros Hwf Hloc Hcnt [Hkeyed Hnew] Hrun.
  apply SetTargets_inv in Hrun
    as [[_ ->]|[(_ & _ & ->)|(_ & _ & s1 & s2 & Hrem & Hadd & ->)]];
    [done|done| |done].
  apply counts_exact_set_events, (add_counts _ _ _ _ Hadd);
    [|by apply (rem_counts _ _ _ _ Hrem)].
  intros k p [Hin Hold]%additions_Some.
  destruct (keyed_by_hash_lookup _ _ _ _ Hkeyed Hin) as (t & Ht & Hhash).
  exists t. rewrite (rem_targetObjs _ _ _ _ Hrem), (rem_collectors _ _ _ _ Hrem).
  split; [done|]. split; [done|]. by apply (new_unowned_lookup s targets k p).
Qed.

Lemma clearing_live_targets s0 d done s :
  clearing s0 d done s → live_targets s = live_targets s0.
Proof.
  intros Hclr. unfold live_targets.
  by rewrite (clr_targetMaps _ _ _ _ Hclr), (clr_targets_ref _ _ _ _ Hclr).
Qed.

Lemma inserting_live_targets s1 d done s :
  inserting s1 d done s → live_targets s = live_targets s1.
Proof.
  intros Hins. unfold live_targets.
  by rewrite (ins_targetMaps _ _ _ _ Hins), (ins_targets_ref _ _ _ _ Hins).
Qed.

Lemma SetCollectors_invariant s order1 order2 order3 cs s' :
  well_formed s → located s →
  NoDup order2 → is_order order3 (live_targets s) →
  SetCollectors order1 order2 order3 cs s = Some (tt, s') →
  well_formed s' ∧ located s'.
Proof.
  intros Hwf Hloc Hnd Horder Hrun.
  apply SetCollectors_inv in Hrun
    as [[_ ->]|[(_ & _ & ->)|(_ & _ & s1 & s2 & s3 & Hclr & Hins & Hrea & ->)]];
    [| | |done..].
  - split; [by do 3 apply ->well_formed_set_events|done].
  - split; [by do 2 apply ->well_formed_set_events|done].
  - split.
    + apply ->well_formed_set_events. apply (rea_wf _ _ _ Hrea).
    + apply located_set_events.
      apply (reallocating_located s2 order3); [|done].
      by rewrite (inserting_live_targets _ _ _ _ Hins),
        (clearing_live_targets _ _ _ _ Hclr).
Qed.

Lemma SetCollectors_counts s order1 order2 order3 cs s' :
  well_formed s → located s → counts_exact s →
  keyed_by_name s cs →
  NoDup order2 →
  SetCollectors order1 order2 order3 cs s = Some (tt, s') →
  counts_exact s'.
Proof.
  intros Hwf Hloc Hcnt Hkeyed Hnd Hrun.
  apply SetCollectors_inv in Hrun
    as [[_ ->]|[(_ & _ & ->)|(_ & _ & s1 & s2 & s3 & Hclr & Hins & Hrea & ->)]];
    [done|done| |done..].
  apply counts_exact_set_events, (rea_counts _ _ _ Hrea).
  apply (ins_counts _ _ _ _ Hins); [| |by apply (clr_counts _ _ _ _ Hclr)].
  - intros k p [Hin _]%additions_Some.
    rewrite (clr_collectorObjs _ _ _ _ Hclr).
    by apply (keyed_by_name_lookup _ cs).
  - intros k [p [Hin Hnew]%additions_Some]. split.
    + rewrite (clr_collectors _ _ _ _ Hclr). by case_decide.
    + intros key Hkey.
      assert (assignment s1 = assignment s) as Heq.
      { unfold assignment.
        by rewrite (clearing_live_targets _ _ _ _ Hclr),
          (clr_targetObjs _ _ _ _ Hclr). }
      rewrite Heq in Hkey.
      destruct (located_owner_live s key k Hwf Hloc Hkey) as [q Hq].
      simpl in Hnew. congruence.
Qed.

Lemma well_formed_new : well_formed newConsistentHashingAllocator.
Proof. split; try done; by eexists. Qed.

Lemma step_invariant okT okC s s' :
  step okT okC s s' → well_formed s ∧ located s → well_formed s' ∧ located s'.
Proof.
  intros Hstep [Hwf Hloc]. destruct Hstep
    as [s o1 o2 targets s' _ _ _ Hrun
       |s o1 o2 o3 cs s' _ _ [Hnd _] Ho3 Hrun
       |s s' Hidle].
  - by eapply SetTargets_invariant.
  - by eapply SetCollectors_invariant.
  - apply idle_extends in Hidle; [|done].
    split; [by eapply extends_well_formed|by eapply extends_located].
Qed.

Lemma run_invariant okT okC s :
  rtc (step okT okC) newConsistentHashingAllocator s →
  well_formed s ∧ located s.
Proof.
  revert s. apply rtc_ind_r.
  - split; [apply well_formed_new|]. intros k p t Hk. done.
  - intros s s' Hrun Hstep IH. by eapply step_invariant.
Qed.

Lemma reachable_well_formed s : reachable s → well_formed s.
Proof. intros Hr. by apply run_invariant in Hr as [? _]. Qed.

Lemma reachable_located s : reachable s → located s.
Proof. intros Hr. by apply run_invariant in Hr as [_ ?]. Qed.

Lemma step_counts s s' :
  step in_contract_targets keyed_by_name s s' →
  well_formed s → located s → counts_exact s → counts_exact s'.
Proof.
  intros Hstep Hwf Hloc Hcnt. destruct Hstep
    as [s o1 o2 targets s' Hok _ _ Hrun
       |s o1 o2 o3 cs s' Hok _ [Hnd _] Ho3 Hrun
       |s s' Hidle].
  - by eapply SetTargets_counts.
  - by eapply SetCollectors_counts.
  - apply idle_extends in Hidle; [|done]. by eapply extends_counts_exact.
Qed.

Lemma reachable_in_contract_counts s :
  reachable_in_contract s → counts_exact s.
Proof.
  revert s. apply rtc_ind_r.
  - intros n p c Hn. done.
  - intros s s' Hrun Hstep IH.
    apply run_invariant in Hrun as [Hwf Hloc]. by eapply step_counts.
Qed.

(** ** Sums over the live collectors *)

Lemma sum_over_empty {X} (f : string → X → Z) : sum_over f ∅ = 0%Z.
Proof. apply map_fold_empty. Qed.

Lemma sum_over_insert {X} (f : string → X → Z) (m : gmap string X) n x :
  m !! n = None → sum_over f (<[n := x]> m) = (f n x + sum_over f m)%Z.
Proof.
  intros Hn. unfold sum_over. rewrite map_fold_insert_L; [done| |done].
  intros. lia.
Qed.

Lemma sum_over_ext {X} (f g : string → X → Z) (m : gmap string X) :
  (∀ n x, m !! n = Some x → f n x = g n x) → sum_over f m = sum_over g m.
Proof.
  induction m as [|n x m Hn IH] using map_ind; intros Hfg.
  - by rewrite !sum_over_empty.
  - rewrite !sum_over_insert by done. rewrite IH.
    + by rewrite (Hfg n x) by apply lookup_insert_eq.
    + intros n' x' Hn'. apply Hfg. rewrite lookup_insert_ne; [done|].
      intros ->. congruence.
Qed.

Lemma sum_over_plus {X} (f g : string → X → Z) (m : gmap string X) :
  sum_over (λ n x, (f n x + g n x)%Z) m = (sum_over f m + sum_over g m)%Z.
Proof.
  induction m as [|n x m Hn IH] using map_ind.
  - by rewrite !sum_over_empty.
  - rewrite !sum_over_insert by done. lia.
Qed.

Lemma sum_over_indicator {X} (m : gmap string X) (o : string) :
  sum_over (λ n _, if decide (o = n) then 1 else 0)%Z m
  = (if decide (is_Some (m !! o)) then 1 else 0)%Z.
Proof.
  induction m as [|n x m Hn IH] using map_ind.
  - rewrite sum_over_empty, lookup_empty. rewrite decide_False; [done|].
    by intros [].
  - rewrite sum_over_insert, IH by done.
    destruct (decide (o = n)) as [->|Hne].
    + rewrite lookup_insert_eq, Hn.
      rewrite (decide_False (P := is_Some None)) by (by intros []).
      by rewrite decide_True by eauto.
    + rewrite lookup_insert_ne by done. by case_decide.
Qed.

(** The targets are shared out among the collectors that own them. *)
Lemma sum_over_counts {X} (A : gmap string string) (C : gmap string X) :
  (∀ k o, A !! k = Some o → is_Some (C !! o)) →
  sum_over (λ n _, Z.of_nat (size (filter (λ kv, kv.2 = n) A))) C
  = Z.of_nat (size A).
Proof.
  induction A as [|k o A Hk IH] using map_ind; intros Howned.
  - rewrite map_size_empty. rewrite (sum_over_ext _ (λ _ _, 0%Z + 0%Z)%Z).
    + rewrite sum_over_plus. clear.
      induction C as [|n x C Hn IH] using map_ind;
        [by rewrite sum_over_empty|].
      rewrite sum_over_insert by done. lia.
    + intros n x _. by rewrite map_filter_empty, map_size_empty.
  - rewrite (sum_over_ext _
      (λ n x, Z.of_nat (size (filter (λ kv, kv.2 = n) A))
              + (if decide (o = n) then 1 else 0))%Z).
    + rewrite sum_over_plus, IH, sum_over_indicator.
      * rewrite decide_True by (apply (Howned k); apply lookup_insert_eq).
        rewrite map_size_insert_None by done. lia.
      * intros k' o' Hk'. apply (Howned k'). rewrite lookup_insert_ne; [done|].
        intros ->. congruence.
    + intros n x _. rewrite count_insert, Hk.
      rewrite (decide_False (P := None = Some n)) by done. lia.
Qed.

Lemma size_assignment s :
  well_formed s → size (assignment s) = size (live_targets s).
Proof.
  intros Hwf. rewrite <-!size_dom. f_equal. apply set_eq. intros k.
  rewrite !elem_of_dom. unfold assignment. rewrite lookup_omap.
  destruct (live_targets s !! k) as [p|] eqn:Hp; simpl.
  - destruct (wf_targets s Hwf _ _ Hp) as (t & -> & _). simpl.
    split; eauto.
  - split; by intros [].
Qed.

(** ** Inside a loop *)

Lemma iteration_inv {S A} (I : list A → S → Prop) (l : list A)
    (body : A → Mem.M S unit) :
  (∀ done a rest (x x' : S), l = done ++ a :: rest → I done x →
     body a x = Some (tt, x') → I (done ++ [a]) x') →
  ∀ (x : S) b (xb : S), I [] x → Mem.iteration body l x b xb →
    ∃ done rest, l = done ++ b :: rest ∧ I done xb.
Proof.
  intros Hstep.
  assert (∀ tail (x : S) b (xb : S), Mem.iteration body tail x b xb →
            ∀ done, l = done ++ tail → I done x →
              ∃ done' rest, l = done' ++ b :: rest ∧ I done' xb) as Hgen.
  { intros tail x b xb Hit.
    induction Hit as [a tail x|a tail x x1 b xb Ha Hit IH]; intros done Hl HI.
    - by exists done, tail.
    - apply (IH (done ++ [a])); [by rewrite <-app_assoc|by eapply Hstep]. }
  intros x b xb HI Hit. by apply (Hgen l x b xb Hit []).
Qed.

Lemma step_any okT okC s s' :
  step okT okC s s' → step any_input any_input s s'.
Proof.
  intros [s0 o1 o2 targets s0' _ Ho1 Ho2 Hrun
         |s0 o1 o2 o3 cs s0' _ Ho1 Ho2 Ho3 Hrun|s0 s0' Hidle].
  - by eapply step_SetTargets.
  - by eapply step_SetCollectors.
  - by apply step_idle.
Qed.

Lemma reachable_in_contract_is_reachable s :
  reachable_in_contract s → reachable s.
Proof.
  unfold reachable_in_contract, reachable.
  revert s. apply rtc_ind_r; [apply rtc_refl|].
  intros s s' _ Hstep IH. eapply rtc_r; [done|]. by eapply step_any.
Qed.

Lemma assignment_lookup s k p :
  well_formed s → live_targets s !! k = Some p →
  ∃ t, targetObjs s !! p = Some t ∧ Hash t = k ∧
       assignment s !! k = Some (CollectorName t).
Proof.
  intros Hwf Hp. destruct (wf_targets s Hwf _ _ Hp) as (t & Ht & Hk).
  exists t. split; [done|]. split; [done|]. unfold assignment.
  by rewrite lookup_omap, Hp; simpl; rewrite Ht.
Qed.

Lemma assignment_dom s :
  well_formed s → dom (assignment s) = dom (live_targets s).
Proof.
  intros Hwf. apply set_eq. intros k. rewrite !elem_of_dom. split.
  - unfold assignment. rewrite lookup_omap.
    destruct (live_targets s !! k); [eauto|by intros []].
  - intros [p Hp]. destruct (assignment_lookup s k p Hwf Hp) as (t & _ & _ & Ht).
    eauto.
Qed.

Lemma SetCollectors_live_targets_dom s order1 order2 order3 cs s' :
  well_formed s →
  NoDup order2 →
  SetCollectors order1 order2 order3 cs s = Some (tt, s') →
  dom (live_targets s') = dom (live_targets s).
Proof.
  intros Hwf Hnd Hrun.
  apply SetCollectors_inv in Hrun
    as [[_ ->]|[(_ & _ & ->)|(_ & _ & s1 & s2 & s3 & Hclr & Hins & Hrea & ->)]];
    [done|done| |done..].
  change (dom (live_targets s3) = dom (live_targets s)).
  rewrite (rea_dom _ _ _ Hrea), (inserting_live_targets _ _ _ _ Hins).
  by rewrite (clearing_live_targets _ _ _ _ Hclr).
Qed.

(** After the first two loops of [handleCollectors] a collector is live. *)
Lemma inserting_collectors_non_empty s cs order1 order2 s0 s1 s2 :
  live_collectors s0 = live_collectors s →
  is_order order2 (diff.additions (diff.Maps (live_collectors s) cs)) →
  cs ≠ ∅ →
  clearing s0 (diff.Maps (live_collectors s) cs) order1 s1 →
  inserting s1 (diff.Maps (live_collectors s) cs) order2 s2 →
  live_collectors s2 ≠ ∅.
Proof.
  intros Hs0 [_ Horder] Hne Hclr Hins.
  set (d := diff.Maps (live_collectors s) cs) in *.
  destruct (decide (diff.additions d = ∅)) as [Hnone|Hsome].
  - apply map_choose in Hne as (k & p & Hk).
    assert (is_Some (live_collectors s !! k)) as [q Hq].
    { destruct (live_collectors s !! k) as [q|] eqn:Hq; [eauto|].
      assert (diff.additions d !! k = Some p) as Hadd
        by (by apply additions_Some).
      by rewrite Hnone in Hadd. }
    assert (k ∈ dom (live_collectors s2)) as Hin.
    { apply (ins_lower _ _ _ _ Hins), elem_of_dom.
      rewrite (clr_collectors _ _ _ _ Hclr), Hs0, Hq.
      rewrite decide_False; [eauto|]. intros [_ [x Hx]].
      apply removals_Some in Hx as [_ Hx]. congruence. }
    intros Hempty. rewrite Hempty in Hin. set_solver.
  - apply map_choose in Hsome as (k & p & Hk).
    apply (ins_nonempty _ _ _ _ Hins). exists k. split; [|eauto].
    apply (elem_of_list_to_set (C := gset string)). rewrite Horder.
    apply elem_of_dom. eauto.
Qed.

(** ** [TargetItems] does not look at the events *)

Lemma for_each_set_events {A} (l : list A) (body : A → M unit) evs s :
  (∀ a s, body a (set_events evs s)
          = match body a s with
            | Some (x, s') => Some (x, set_events evs s')
            | None => None
            end) →
  Mem.for_each l body (set_events evs s)
  = match Mem.for_each l body s with
    | Some (x, s') => Some (x, set_events evs s')
    | None => None
    end.
Proof.
  intros Hbody. revert s. induction l as [|a l IH]; intros s; [done|].
  simpl. unfold Mem.bind. rewrite Hbody.
  destruct (body a s) as [[[] s1]|]; [apply IH|done].
Qed.

Lemma TargetItems_set_events order evs s :
  TargetItems order (set_events evs s)
  = match TargetItems order s with
    | Some (r, s') => Some (r, set_events evs s')
    | None => None
    end.
Proof.
  unfold TargetItems, make_targetMap, range_targetMap.
  unfold Mem.bind, Mem.get, Mem.modify, Mem.ret.
  simpl.
  set (s1 := set_targetMaps _ s).
  change (set_targetMaps _ (set_events evs s)) with (set_events evs s1).
  rewrite for_each_set_events.
  - by destruct (Mem.for_each _ _ s1) as [[[] s2]|].
  - intros k s2.
    unfold range_targetMap_step, range_step, targetMap_assign, write_targetMap,
      read_targetMap, Mem.bind, Mem.get, Mem.must, Mem.modify, Mem.ret,
      Mem.panic.
    simpl. destruct (targetMaps s2 !! targetItems s) as [m|]; [|done].
    destruct (m !! k) as [v|]; [|done].
    change (targetMaps (set_events evs s2)) with (targetMaps s2).
    destruct (targetMaps s2 !! length (targetMaps s)) as [m'|] eqn:Hm'; [|done].
    simpl. change (targetMaps (set_events evs s2)) with (targetMaps s2).
    by rewrite Hm'.
Qed.

Lemma TargetItems_contents_set_events order evs s :
  TargetItems_contents order (set_events evs s) = TargetItems_contents order s.
Proof.
  unfold TargetItems_contents. rewrite TargetItems_set_events.
  by destruct (TargetItems order s) as [[r s']|].
Qed.

(** ** [SetTargets] when there is nothing to do *)

Lemma SetTargets_no_collectors s order1 order2 targets :
  collectorMaps s !! collectors s = Some ∅ →
  SetTargets order1 order2 targets s
  = Some (tt, observed "SetTargets"
                (set_events
                   (events s ++
                      [Log_Info
                         "No collector instances present, cannot set targets"])
                   s)).
Proof.
  intros Hcs. unfold SetTargets.
  rewrite (bind_run _ _ _ _ _ (c_collectors_run _ _ Hcs)).
  rewrite map_size_empty. simpl.
  rewrite (bind_run _ _ _ _ _ (emit_run _ _)). by rewrite emit_run.
Qed.

Lemma SetTargets_no_changes s order1 order2 targets :
  well_formed s →
  live_collectors s ≠ ∅ →
  has_changes (diff.Maps (live_targets s) targets) = false →
  SetTargets order1 order2 targets s = Some (tt, observed "SetTargets" s).
Proof.
  intros Hwf Hlive Hno. unfold SetTargets.
  rewrite (bind_run _ _ _ _ _
    (c_collectors_run _ _ (well_formed_collectors_ref s Hwf))).
  apply map_size_non_empty_iff, Nat.eqb_neq in Hlive. rewrite Hlive.
  erewrite bind_run; [by rewrite emit_run|].
  rewrite (bind_run _ _ _ _ _
    (c_targetItems_run _ _ (well_formed_targets_ref s Hwf))).
  by rewrite Hno.
Qed.

Lemma SetTargets_live s order1 order2 targets s' :
  well_formed s →
  keyed_by_hash s targets →
  is_order order1 (live_targets s) →
  is_order order2 (diff.additions (diff.Maps (live_targets s) targets)) →
  SetTargets order1 order2 targets s = Some (tt, s') →
  live_collectors s' = live_collectors s ∧
  (live_collectors s ≠ ∅ → dom (live_targets s') = dom targets) ∧
  (live_collectors s = ∅ → live_targets s' = live_targets s).
Proof.
  intros Hwf Hkeyed [_ Ho1] [_ Ho2] Hrun.
  apply SetTargets_inv in Hrun
    as [[Hnone ->]|[(Hsome & Hno & ->)|(Hsome & _ & s1 & s2 & Hrem & Hadd & ->)]];
    [| | |done].
  - done.
  - split; [done|]. split; [|done]. intros _. by apply no_changes_dom.
  - split.
    { change (live_collectors s2 = live_collectors s).
      by rewrite (add_collectors _ _ _ _ Hadd), (rem_collectors _ _ _ _ Hrem). }
    split; [|done]. intros _.
    change (dom (live_targets s2) = dom targets).
    rewrite (add_dom _ _ _ _ Hadd); last first.
    { intros k p [Hin _]%additions_Some.
      rewrite (rem_targetObjs _ _ _ _ Hrem).
      by apply (keyed_by_hash_lookup s targets). }
    rewrite Ho2, dom_additions.
    assert (dom (live_targets s1) = dom (live_targets s) ∩ dom targets) as ->.
    { apply set_eq. intros k.
      rewrite elem_of_intersection, !elem_of_dom, (rem_targets _ _ _ _ Hrem).
      destruct (live_targets s !! k) as [p|] eqn:Hp.
      - assert (k ∈ order1).
        { apply (elem_of_list_to_set (C := gset string)). rewrite Ho1.
          apply elem_of_dom. eauto. }
        destruct (targets !! k) as [q|] eqn:Hq.
        + rewrite decide_False; [naive_solver|]. intros [_ [x Hx]].
          apply removals_Some in Hx as [_ Hx]. congruence.
        + rewrite decide_True.
          * split; [by intros [??]|by intros [_ [??]]].
          * split; [done|]. exists p. by apply removals_Some.
      - case_decide; (split; [by intros [??]|by intros [[??] _]]). }
    apply set_eq. intros k.
    destruct (decide (k ∈ dom (live_targets s))); set_solver.
Qed.

(** ** The assignment is a function of the two key sets *)

Lemma ring_owner_dom s k :
  well_formed s →
  ring_owner s k
  = n ← locate config (dom (consistentHasher s)) k;
    if decide (n ∈ dom (consistentHasher s)) then Some n else None.
Proof.
  intros Hwf. unfold ring_owner.
  destruct (locate _ _ _) as [n|]; [|done]. simpl.
  case_decide as Hn.
  - apply elem_of_dom in Hn as [p Hp]. rewrite Hp. simpl.
    by destruct (wf_ring _ Hwf _ _ Hp) as (c & -> & <-).
  - apply not_elem_of_dom in Hn. by rewrite Hn.
Qed.

Lemma assignment_determined s1 s2 :
  well_formed s1 → located s1 → well_formed s2 → located s2 →
  dom (live_targets s1) = dom (live_targets s2) →
  dom (live_collectors s1) = dom (live_collectors s2) →
  assignment s1 = assignment s2.
Proof.
  intros Hwf1 Hloc1 Hwf2 Hloc2 Ht Hc. apply map_eq. intros k.
  destruct (live_targets s1 !! k) as [p1|] eqn:Hp1.
  - assert (is_Some (live_targets s2 !! k)) as [p2 Hp2].
    { apply elem_of_dom. rewrite <-Ht. apply elem_of_dom. eauto. }
    destruct (assignment_lookup _ _ _ Hwf1 Hp1) as (t1 & Ht1 & _ & ->).
    destruct (assignment_lookup _ _ _ Hwf2 Hp2) as (t2 & Ht2 & _ & ->).
    rewrite <-(Hloc1 _ _ _ Hp1 Ht1), <-(Hloc2 _ _ _ Hp2 Ht2).
    rewrite !ring_owner_dom by done.
    by rewrite (wf_ring_dom _ Hwf1), (wf_ring_dom _ Hwf2), Hc.
  - assert (live_targets s2 !! k = None) as Hp2.
    { apply not_elem_of_dom. rewrite <-Ht. by apply not_elem_of_dom. }
    transitivity (@None string).
    + apply not_elem_of_dom. rewrite assignment_dom by done.
      by apply not_elem_of_dom.
    + symmetry. apply not_elem_of_dom. rewrite assignment_dom by done.
      by apply not_elem_of_dom.
Qed.

Lemma elem_of_added_names s1 d order x :
  x ∈ added_names s1 d order ↔
  ∃ k p c, k ∈ order ∧ diff.additions d !! k = Some p ∧
           collectorObjs s1 !! p = Some c ∧ Name c = x.
Proof.
  unfold added_names. rewrite elem_of_list_to_set, list_elem_of_omap. split.
  - intros (k & Hk & Hx).
    destruct (diff.additions d !! k) as [p|] eqn:Hp; [|done]. simpl in Hx.
    destruct (collectorObjs s1 !! p) as [c|] eqn:Hc; [|done]. simpl in Hx.
    exists k, p, c. naive_solver.
  - intros (k & p & c & Hk & Hp & Hc & <-). exists k. split; [done|].
    rewrite Hp. simpl. by rewrite Hc.
Qed.

Lemma clearing_dom s0 current cs order1 s1 :
  live_collectors s0 = current →
  is_order order1 (diff.removals (diff.Maps current cs)) →
  clearing s0 (diff.Maps current cs) order1 s1 →
  dom (live_collectors s1) = dom current ∩ dom cs.
Proof.
  intros Hcur [_ Ho1] Hclr. apply set_eq. intros k.
  rewrite elem_of_intersection, !elem_of_dom, (clr_collectors _ _ _ _ Hclr), Hcur.
  destruct (current !! k) as [p|] eqn:Hp.
  - destruct (cs !! k) as [q|] eqn:Hq.
    + rewrite decide_False; [naive_solver|]. intros [_ [x Hx]].
      apply removals_Some in Hx as [_ Hx]. congruence.
    + rewrite decide_True.
      * split; [by intros [??]|by intros [_ [??]]].
      * assert (is_Some (diff.removals (diff.Maps current cs) !! k)) as Hrm.
        { exists p. by apply removals_Some. }
        split; [|done].
        apply (elem_of_list_to_set (C := gset string)). rewrite Ho1.
        by apply elem_of_dom.
  - case_decide; (split; [by intros [??]|by intros [[??] _]]).
Qed.

Lemma SetCollectors_live_collectors s order1 order2 order3 cs s' :
  well_formed s →
  non_nil s cs →
  is_order order1 (diff.removals (diff.Maps (live_collectors s) cs)) →
  is_order order2 (diff.additions (diff.Maps (live_collectors s) cs)) →
  SetCollectors order1 order2 order3 cs s = Some (tt, s') →
  (cs = ∅ → live_collectors s' = live_collectors s) ∧
  (cs ≠ ∅ → ∀ x, x ∈ dom (live_collectors s') ↔
     (x ∈ dom (live_collectors s) ∧ x ∈ dom cs) ∨
     ∃ k p c, cs !! k = Some p ∧ live_collectors s !! k = None ∧
              collectorObjs s !! p = Some c ∧ Name c = x).
Proof.
  intros Hwf Hnn Ho1 [Hnd2 Ho2] Hrun.
  apply SetCollectors_inv in Hrun
    as [[Hnone ->]|[(Hsome & Hno & ->)|(Hsome & _ & s1 & s2 & s3 & Hclr & Hins
                                         & Hrea & ->)]]; [| | |done..].
  - done.
  - split; [done|]. intros _ x.
    change (live_collectors (observed _ _)) with (live_collectors s).
    apply no_changes_dom in Hno. rewrite <-Hno. split; [set_solver|].
    intros [[? _]|(k & p & c & Hk & Hnk & _)]; [done|].
    apply not_elem_of_dom in Hnk. rewrite Hno in Hnk.
    apply not_elem_of_dom in Hnk. congruence.
  - split; [done|]. intros _ x.
    change (live_collectors (observed _ s3)) with (live_collectors s3).
    rewrite (rea_collectors _ _ _ Hrea).
    rewrite (ins_dom _ _ _ _ Hins); last first.
    { intros k p [Hin _]%additions_Some.
      rewrite (clr_collectorObjs _ _ _ _ Hclr). apply (Hnn k p Hin). }
    rewrite elem_of_union,
      (clearing_dom (set_events _ s) (live_collectors s) cs order1 s1
         eq_refl Ho1 Hclr).
    rewrite elem_of_intersection, elem_of_added_names.
    rewrite (clr_collectorObjs _ _ _ _ Hclr).
    change (live_collectors (set_events _ s)) with (live_collectors s).
    change (collectorObjs (set_events _ s)) with (collectorObjs s).
    split; (intros [?|(k & p & c & Hx)]; [by left|right; exists k, p, c]).
    + destruct Hx as (_ & [??]%additions_Some & ? & ?). done.
    + destruct Hx as (Hk & Hnk & ? & ?).
      assert (diff.additions (diff.Maps (live_collectors s) cs) !! k = Some p)
        as Hadd by by apply additions_Some.
      split; [|done].
      apply (elem_of_list_to_set (C := gset string)). rewrite Ho2.
      apply elem_of_dom. eauto.
Qed.

Lemma targets_of_lookup s m k (x : option TargetItem) :
  targets_of s m !! k = Some x ↔ ∃ p, m !! k = Some p ∧ targetObjs s !! p = x.
Proof.
  unfold targets_of. rewrite lookup_fmap.
  destruct (m !! k) as [p|]; simpl; naive_solver.
Qed.

Lemma collectors_of_lookup s m k (x : option Collector) :
  collectors_of s m !! k = Some x
  ↔ ∃ p, m !! k = Some p ∧ collectorObjs s !! p = x.
Proof.
  unfold collectors_of. rewrite lookup_fmap.
  destruct (m !! k) as [p|]; simpl; naive_solver.
Qed.

Lemma keyed_by_hash_same s1 m1 s2 m2 :
  targets_of s1 m1 = targets_of s2 m2 →
  keyed_by_hash s1 m1 → keyed_by_hash s2 m2.
Proof.
  intros Heq Hk k p2 Hp2.
  assert (targets_of s1 m1 !! k = Some (targetObjs s2 !! p2)) as Hl.
  { rewrite Heq. apply targets_of_lookup. eauto. }
  apply targets_of_lookup in Hl as (p1 & Hp1 & <-). by apply (Hk k p1).
Qed.

Lemma non_nil_same s1 m1 s2 m2 :
  collectors_of s1 m1 = collectors_of s2 m2 →
  non_nil s1 m1 → non_nil s2 m2.
Proof.
  intros Heq Hk k p2 Hp2.
  assert (collectors_of s1 m1 !! k = Some (collectorObjs s2 !! p2)) as Hl.
  { rewrite Heq. apply collectors_of_lookup. eauto. }
  apply collectors_of_lookup in Hl as (p1 & Hp1 & <-). by apply (Hk k p1).
Qed.

Lemma idle_live s s' :
  well_formed s → idle s s' →
  live_collectors s' = live_collectors s ∧ live_targets s' = live_targets s.
Proof.
  intros Hwf Hidle. destruct (idle_extends _ _ Hwf Hidle) as [Hc Ht _ _ _].
  unfold live_collectors, live_targets. by rewrite Hc, Ht.
Qed.

Lemma same_calls_keys s1 s2 :
  same_calls keyed_by_hash non_nil s1 s2 →
  reachable s1 ∧ reachable s2 ∧
  dom (live_targets s1) = dom (live_targets s2) ∧
  dom (live_collectors s1) = dom (live_collectors s2).
Proof.
  induction 1 as
    [|s1 s2 o1 o2 o1' o2' m1 m2 s1' s2' _ (Hr1 & Hr2 & Ht & Hc) Hsame Hok
        Ho1 Ho2 Ho1' Ho2' Hrun1 Hrun2
     |s1 s2 o1 o2 o3 o1' o2' o3' m1 m2 s1' s2' _ (Hr1 & Hr2 & Ht & Hc) Hsame
        Hok Ho1 Ho2 Ho3 Ho1' Ho2' Ho3' Hrun1 Hrun2
     |s1 s2 s1' _ (Hr1 & Hr2 & Ht & Hc) Hidle
     |s1 s2 s2' _ (Hr1 & Hr2 & Ht & Hc) Hidle].
  - repeat split; apply rtc_refl.
  - pose proof (reachable_well_formed _ Hr1) as Hwf1.
    pose proof (reachable_well_formed _ Hr2) as Hwf2.
    pose proof (keyed_by_hash_same _ _ _ _ Hsame Hok) as Hok'.
    split.
    { eapply rtc_r; [exact Hr1|].
      by apply (step_SetTargets _ _ _ o1 o2 m1 _ I). }
    split.
    { eapply rtc_r; [exact Hr2|].
      by apply (step_SetTargets _ _ _ o1' o2' m2 _ I). }
    destruct (SetTargets_live _ _ _ _ _ Hwf1 Hok Ho1 Ho2 Hrun1)
      as (Hc1 & Hsome1 & Hnone1).
    destruct (SetTargets_live _ _ _ _ _ Hwf2 Hok' Ho1' Ho2' Hrun2)
      as (Hc2 & Hsome2 & Hnone2).
    split; [|by rewrite Hc1, Hc2].
    destruct (decide (live_collectors s1 = ∅)) as [He|Hne].
    + assert (live_collectors s2 = ∅) as He'.
      { apply dom_empty_iff_L. rewrite <-Hc, He. apply dom_empty_L. }
      by rewrite Hnone1, Hnone2.
    + assert (live_collectors s2 ≠ ∅) as Hne'.
      { intros He'. apply Hne, dom_empty_iff_L. rewrite Hc, He'.
        apply dom_empty_L. }
      rewrite Hsome1, Hsome2 by done.
      assert (dom (targets_of s1 m1) = dom (targets_of s2 m2)) as Hd
        by by rewrite Hsame.
      unfold targets_of in Hd. by rewrite !dom_fmap_L in Hd.
  - pose proof (reachable_well_formed _ Hr1) as Hwf1.
    pose proof (reachable_well_formed _ Hr2) as Hwf2.
    pose proof (non_nil_same _ _ _ _ Hsame Hok) as Hok'.
    split.
    { eapply rtc_r; [exact Hr1|].
      by apply (step_SetCollectors _ _ _ o1 o2 o3 m1 _ I). }
    split.
    { eapply rtc_r; [exact Hr2|].
      by apply (step_SetCollectors _ _ _ o1' o2' o3' m2 _ I). }
    split.
    { rewrite (SetCollectors_live_targets_dom _ _ _ _ _ _ Hwf1 (proj1 Ho2) Hrun1).
      by rewrite (SetCollectors_live_targets_dom _ _ _ _ _ _ Hwf2 (proj1 Ho2')
                    Hrun2). }
    destruct (SetCollectors_live_collectors _ _ _ _ _ _ Hwf1 Hok Ho1 Ho2 Hrun1)
      as (Hnone1 & Hsome1).
    destruct (SetCollectors_live_collectors _ _ _ _ _ _ Hwf2 Hok' Ho1' Ho2'
                Hrun2) as (Hnone2 & Hsome2).
    assert (dom m1 = dom m2) as Hd.
    { assert (dom (collectors_of s1 m1) = dom (collectors_of s2 m2)) as Hd
        by by rewrite Hsame.
      unfold collectors_of in Hd. by rewrite !dom_fmap_L in Hd. }
    destruct (decide (m1 = ∅)) as [He|Hne].
    + assert (m2 = ∅) as He'.
      { apply dom_empty_iff_L. rewrite <-Hd, He. apply dom_empty_L. }
      by rewrite Hnone1, Hnone2.
    + assert (m2 ≠ ∅) as Hne'.
      { intros He'. apply Hne, dom_empty_iff_L. rewrite Hd, He'.
        apply dom_empty_L. }
      apply set_eq. intros x. rewrite Hsome1, Hsome2, Hc, Hd by done.
      assert (∀ k c, (∃ p, m1 !! k = Some p ∧ collectorObjs s1 !! p = Some c)
                   ↔ (∃ p, m2 !! k = Some p ∧ collectorObjs s2 !! p = Some c))
        as Hrel.
      { intros k c. by rewrite <-!collectors_of_lookup, Hsame. }
      assert (∀ k, live_collectors s1 !! k = None
                 ↔ live_collectors s2 !! k = None) as Hlive.
      { intros k. by rewrite <-!not_elem_of_dom, Hc. }
      split; (intros [?|(k & p & c & Hk & Hnk & Hp & Hx)]; [by left|right]).
      * destruct (proj1 (Hrel k c)) as (p' & ? & ?); [by eauto|].
        exists k, p', c. by rewrite <-Hlive.
      * destruct (proj2 (Hrel k c)) as (p' & ? & ?); [by eauto|].
        exists k, p', c. by rewrite Hlive.
  - destruct (idle_live _ _ (reachable_well_formed _ Hr1) Hidle) as [-> ->].
    split; [|done]. eapply rtc_r; [exact Hr1|]. by apply step_idle.
  - destruct (idle_live _ _ (reachable_well_formed _ Hr2) Hidle) as [-> ->].
    split; [done|]. split; [|done].
    eapply rtc_r; [exact Hr2|]. by apply step_idle.
Qed.

(** ** A run, taken twice *)

Lemma step_weaken (okT okC okT' okC' : state → gmap string ptr → Prop) s s' :
  (∀ s m, okT s m → okT' s m) →
  (∀ s m, okC s m → okC' s m) →
  step okT okC s s' → step okT' okC' s s'.
Proof.
  intros HT HC [s0 o1 o2 targets s0' Hok Ho1 Ho2 Hrun
               |s0 o1 o2 o3 cs s0' Hok Ho1 Ho2 Ho3 Hrun|s0 s0' Hidle].
  - eapply step_SetTargets; eauto.
  - eapply step_SetCollectors; eauto.
  - by apply step_idle.
Qed.

Lemma same_calls_diag okT okC s :
  rtc (step okT okC) newConsistentHashingAllocator s → same_calls okT okC s s.
Proof.
  revert s. apply rtc_ind_r; [apply same_new|].
  intros s s' _ [s0 o1 o2 targets s0' Hok Ho1 Ho2 Hrun
                |s0 o1 o2 o3 cs s0' Hok Ho1 Ho2 Ho3 Hrun|s0 s0' Hidle] IH.
  - by eapply (same_SetTargets _ _ s0 s0 o1 o2 o1 o2 targets targets).
  - by eapply (same_SetCollectors _ _ s0 s0 o1 o2 o3 o1 o2 o3 cs cs).
  - eapply same_idle_l; [|done]. by eapply same_idle_r.
Qed.

Lemma keyed_by_name_non_nil s cs : keyed_by_name s cs → non_nil s cs.
Proof.
  intros Hk k p Hp. specialize (Hk k p Hp). simpl in Hk.
  by destruct (collectorObjs s !! p).
Qed.

Lemma same_calls_in_contract s :
  reachable_in_contract s → same_calls keyed_by_hash non_nil s s.
Proof.
  intros Hr. apply same_calls_diag. revert s Hr.
  apply rtc_ind_r; [apply rtc_refl|].
  intros s s' _ Hstep IH. eapply rtc_r; [done|].
  eapply step_weaken; [| |done].
  - by intros ? ? [? _].
  - apply keyed_by_name_non_nil.
Qed.

Lemma same_calls_any s : reachable s → same_calls any_input any_input s s.
Proof. apply same_calls_diag. Qed.

(** ** The allocator does not read the maps it has handed out *)

Section Simulation.
Variables rc rt : ptr.

Lemma sim_ret {A} (a : A) : sim rc rt (Mem.ret a).
Proof. by intros s1 s2 Hag. Qed.

Lemma sim_must {A} (o : option A) : sim rc rt (Mem.must o).
Proof. intros s1 s2 Hag. by destruct o. Qed.

Lemma sim_bind {A B} (m : M A) (k : A → M B) :
  sim rc rt m → (∀ a, sim rc rt (k a)) → sim rc rt (Mem.bind m k).
Proof.
  intros Hm Hk s1 s2 Hag. specialize (Hm s1 s2 Hag).
  unfold Mem.bind, related in *.
  destruct (m s1) as [[a1 s1']|], (m s2) as [[a2 s2']|]; try done.
  destruct Hm as [-> Hag']. apply (Hk a2 _ _ Hag').
Qed.

Lemma sim_for_each {A} (l : list A) (body : A → M unit) :
  (∀ a, sim rc rt (body a)) → sim rc rt (Mem.for_each l body).
Proof.
  intros Hbody. induction l as [|a l IH]; simpl.
  - apply sim_ret.
  - apply sim_bind; [apply Hbody|]. by intros _.
Qed.

Lemma sim_range_step {T} (m : gmap string T) (body : string → T → M unit) k :
  (∀ k v, sim rc rt (body k v)) → sim rc rt (range_step m body k).
Proof.
  intros Hbody. unfold range_step. destruct (m !! k); [apply Hbody|apply sim_ret].
Qed.

Lemma sim_range {T} order (m : gmap string T) (body : string → T → M unit) :
  (∀ k v, sim rc rt (body k v)) → sim rc rt (range order m body).
Proof. intros Hbody. apply sim_for_each. intros k. by apply sim_range_step. Qed.

Lemma sim_emit e : sim rc rt (emit e).
Proof.
  intros s1 s2 [????????????]. split; [done|]. split; simpl; try done.
  by f_equal.
Qed.

Lemma sim_load_Collector p : sim rc rt (load_Collector p).
Proof.
  intros s1 s2 Hag. unfold load_Collector, Mem.bind, Mem.get. 
  rewrite (agr_collectorObjs _ _ _ _ Hag). 
  destruct (collectorObjs s2 !! p); by simpl.
Qed.

Lemma sim_store_Collector p c : sim rc rt (store_Collector p c).
Proof.
  intros s1 s2 Hag. unfold store_Collector, load_Collector, Mem.bind, Mem.get.
  rewrite (agr_collectorObjs _ _ _ _ Hag).
  destruct (collectorObjs s2 !! p); [|done]. simpl.
  split; [done|]. destruct Hag. split; simpl; try done. by f_equal.
Qed.


Lemma sim_get_refs {A} (m : state → M A) (m' : M A) :
  (∀ s, collectors s = rc → targetItems s = rt → m s = m') →
  sim rc rt m' → sim rc rt (Mem.bind Mem.get m).
Proof.
  intros Heq Hm' s1 s2 Hag. unfold Mem.bind, Mem.get.
  rewrite (Heq s1), (Heq s2) by apply Hag. by apply Hm'.
Qed.

Lemma sim_alloc_Collector c : sim rc rt (alloc_Collector c).
Proof.
  intros s1 s2 Hag. unfold alloc_Collector, Mem.bind, Mem.get. simpl.
  rewrite (agr_collectorObjs _ _ _ _ Hag). split; [done|].
  destruct Hag. by split.
Qed.

Lemma sim_load_TargetItem p : sim rc rt (load_TargetItem p).
Proof.
  intros s1 s2 Hag. unfold load_TargetItem, Mem.bind, Mem.get.
  rewrite (agr_targetObjs _ _ _ _ Hag).
  destruct (targetObjs s2 !! p); by simpl.
Qed.

Lemma sim_alloc_TargetItem t : sim rc rt (alloc_TargetItem t).
Proof.
  intros s1 s2 Hag. unfold alloc_TargetItem, Mem.bind, Mem.get. simpl.
  rewrite (agr_targetObjs _ _ _ _ Hag). split; [done|].
  destruct Hag. by split.
Qed.

Lemma sim_NumTargets_decr p : sim rc rt (NumTargets_decr p).
Proof.
  apply sim_bind; [apply sim_load_Collector|]. intros c.
  apply sim_store_Collector.
Qed.

Lemma sim_NumTargets_incr p : sim rc rt (NumTargets_incr p).
Proof.
  apply sim_bind; [apply sim_load_Collector|]. intros c.
  apply sim_store_Collector.
Qed.

Lemma sim_String p : sim rc rt (String p).
Proof. apply sim_bind; [apply sim_load_Collector|]. intros c. apply sim_ret. Qed.

Lemma sim_Member_String member : sim rc rt (Member_String member).
Proof. apply sim_bind; [apply sim_must|]. intros p. apply sim_String. Qed.

Lemma sim_consistent_Add member : sim rc rt (consistent_Add member).
Proof.
  apply sim_bind; [apply sim_String|]. intros name s1 s2 Hag.
  unfold Mem.bind, Mem.get. rewrite (agr_ring _ _ _ _ Hag).
  destruct (consistentHasher s2 !! name); [by apply sim_ret|].
  split; [done|]. destruct Hag. by split.
Qed.

Lemma sim_consistent_Remove name : sim rc rt (consistent_Remove name).
Proof.
  intros s1 s2 Hag. unfold consistent_Remove, Mem.bind, Mem.get.
  rewrite (agr_ring _ _ _ _ Hag). split; [done|]. destruct Hag. by split.
Qed.

Lemma sim_consistent_LocateKey key : sim rc rt (consistent_LocateKey key).
Proof.
  intros s1 s2 Hag. unfold consistent_LocateKey, Mem.bind, Mem.get.
  by rewrite (agr_ring _ _ _ _ Hag).
Qed.

Lemma sim_c_collectors : sim rc rt c_collectors.
Proof.
  intros s1 s2 Hag.
  unfold c_collectors, read_collectorMap, Mem.bind, Mem.get.
  rewrite (agr_collectors_l _ _ _ _ Hag), (agr_collectors_r _ _ _ _ Hag),
    (agr_live_collectors _ _ _ _ Hag).
  destruct (collectorMaps s2 !! rc); by simpl.
Qed.

Lemma sim_c_targetItems : sim rc rt c_targetItems.
Proof.
  intros s1 s2 Hag.
  unfold c_targetItems, read_targetMap, Mem.bind, Mem.get.
  rewrite (agr_targets_l _ _ _ _ Hag), (agr_targets_r _ _ _ _ Hag),
    (agr_live_targets _ _ _ _ Hag).
  destruct (targetMaps s2 !! rt); by simpl.
Qed.

Lemma sim_c_collectors_NumTargets name : sim rc rt (c_collectors_NumTargets name).
Proof.
  apply sim_bind; [apply sim_c_collectors|]. intros cs.
  apply sim_bind; [apply sim_must|]. intros p.
  apply sim_bind; [apply sim_load_Collector|]. intros c. apply sim_ret.
Qed.

(** Lists of maps *)
Lemma lookup_app_same {X} (l1 l2 l : list X) r :
  length l1 = length l2 → l1 !! r = l2 !! r → (l1 ++ l) !! r = (l2 ++ l) !! r.
Proof.
  intros Hlen Hr. destruct (decide (r < length l1)) as [Hlt|Hge].
  - rewrite !lookup_app_l by lia. done.
  - rewrite !lookup_app_r by lia. by rewrite Hlen.
Qed.

Lemma lookup_insert_same {X} (l1 l2 : list X) r r' x :
  length l1 = length l2 → l1 !! r = l2 !! r →
  <[r' := x]> l1 !! r = <[r' := x]> l2 !! r.
Proof.
  intros Hlen Hr. destruct (decide (r' = r)) as [->|Hne].
  - destruct (decide (r < length l1)) as [Hlt|Hge].
    + rewrite !list_lookup_insert_eq by lia. done.
    + rewrite !list_insert_ge by lia. done.
  - by rewrite !list_lookup_insert_ne.
Qed.

Lemma lookup_same_valid {X} (l1 l2 : list X) r :
  length l1 = length l2 → is_Some (l1 !! r) → is_Some (l2 !! r).
Proof. rewrite !lookup_lt_is_Some. lia. Qed.

Lemma sim_make_targetMap : sim rc rt make_targetMap.
Proof.
  intros s1 s2 Hag. unfold make_targetMap, Mem.bind, Mem.get. simpl.
  destruct Hag. split; [done|]. split; simpl; try done.
  - rewrite !length_app. lia.
  - by apply lookup_app_same.
Qed.

Lemma sim_make_collectorMap : sim rc rt make_collectorMap.
Proof.
  intros s1 s2 Hag. unfold make_collectorMap, Mem.bind, Mem.get. simpl.
  destruct Hag. split; [done|]. split; simpl; try done.
  - rewrite !length_app. lia.
  - by apply lookup_app_same.
Qed.


Lemma sim_read_targetMap : sim rc rt (read_targetMap rt).
Proof.
  intros s1 s2 Hag. unfold read_targetMap, Mem.bind, Mem.get.
  rewrite (agr_live_targets _ _ _ _ Hag).
  destruct (targetMaps s2 !! rt); by simpl.
Qed.

Lemma sim_read_collectorMap : sim rc rt (read_collectorMap rc).
Proof.
  intros s1 s2 Hag. unfold read_collectorMap, Mem.bind, Mem.get.
  rewrite (agr_live_collectors _ _ _ _ Hag).
  destruct (collectorMaps s2 !! rc); by simpl.
Qed.

Lemma sim_targetMap_update r (f : gmap string ptr → gmap string ptr) :
  sim rc rt (m <- read_targetMap r ;; write_targetMap r (f m)).
Proof.
  intros s1 s2 Hag.
  unfold write_targetMap, read_targetMap, Mem.bind, Mem.get, Mem.modify.
  destruct (targetMaps s1 !! r) as [m1|] eqn:Hm1,
    (targetMaps s2 !! r) as [m2|] eqn:Hm2; simpl.
  - rewrite Hm1, Hm2. simpl. split; [done|].
    pose proof (agr_live_targets _ _ _ _ Hag) as Hlive.
    pose proof (agr_targetMaps _ _ _ _ Hag) as Hlen.
    destruct Hag. split; simpl; try done.
    + by rewrite !length_insert.
    + destruct (decide (r = rt)) as [->|Hne].
      * rewrite !list_lookup_insert_eq by by eapply lookup_lt_Some.
        congruence.
      * by rewrite !list_lookup_insert_ne.
  - apply lookup_ge_None in Hm2. apply lookup_lt_Some in Hm1.
    pose proof (agr_targetMaps _ _ _ _ Hag). lia.
  - apply lookup_ge_None in Hm1. apply lookup_lt_Some in Hm2.
    pose proof (agr_targetMaps _ _ _ _ Hag). lia.
  - done.
Qed.

Lemma sim_collectorMap_update r (f : gmap string ptr → gmap string ptr) :
  sim rc rt (m <- read_collectorMap r ;; write_collectorMap r (f m)).
Proof.
  intros s1 s2 Hag.
  unfold write_collectorMap, read_collectorMap, Mem.bind, Mem.get, Mem.modify.
  destruct (collectorMaps s1 !! r) as [m1|] eqn:Hm1,
    (collectorMaps s2 !! r) as [m2|] eqn:Hm2; simpl.
  - rewrite Hm1, Hm2. simpl. split; [done|].
    pose proof (agr_live_collectors _ _ _ _ Hag) as Hlive.
    pose proof (agr_collectorMaps _ _ _ _ Hag) as Hlen.
    destruct Hag. split; simpl; try done.
    + by rewrite !length_insert.
    + destruct (decide (r = rc)) as [->|Hne].
      * rewrite !list_lookup_insert_eq by by eapply lookup_lt_Some.
        congruence.
      * by rewrite !list_lookup_insert_ne.
  - apply lookup_ge_None in Hm2. apply lookup_lt_Some in Hm1.
    pose proof (agr_collectorMaps _ _ _ _ Hag). lia.
  - apply lookup_ge_None in Hm1. apply lookup_lt_Some in Hm2.
    pose proof (agr_collectorMaps _ _ _ _ Hag). lia.
  - done.
Qed.

Lemma sim_targetMap_assign r k v : sim rc rt (targetMap_assign r k v).
Proof. apply (sim_targetMap_update r (λ m, <[k := v]> m)). Qed.

Lemma sim_targetMap_delete r k : sim rc rt (targetMap_delete r k).
Proof. apply (sim_targetMap_update r (λ m, delete k m)). Qed.

Lemma sim_collectorMap_assign r k v : sim rc rt (collectorMap_assign r k v).
Proof. apply (sim_collectorMap_update r (λ m, <[k := v]> m)). Qed.

Lemma sim_collectorMap_delete r k : sim rc rt (collectorMap_delete r k).
Proof. apply (sim_collectorMap_update r (λ m, delete k m)). Qed.

Lemma sim_range_targetMap order (body : string → ptr → M unit) :
  (∀ k v, sim rc rt (body k v)) → sim rc rt (range_targetMap order rt body).
Proof.
  intros Hbody. apply sim_for_each. intros k.
  apply sim_bind; [apply sim_read_targetMap|]. intros m.
  by apply sim_range_step.
Qed.

Lemma sim_range_collectorMap order (body : string → ptr → M unit) :
  (∀ k v, sim rc rt (body k v)) → sim rc rt (range_collectorMap order rc body).
Proof.
  intros Hbody. apply sim_for_each. intros k.
  apply sim_bind; [apply sim_read_collectorMap|]. intros m.
  by apply sim_range_step.
Qed.

Create HintDb sim.
#[local] Hint Resolve sim_ret sim_must sim_emit sim_load_Collector sim_store_Collector
  sim_alloc_Collector sim_load_TargetItem sim_alloc_TargetItem
  sim_NumTargets_decr sim_NumTargets_incr sim_String sim_Member_String
  sim_consistent_Add sim_consistent_Remove sim_consistent_LocateKey
  sim_c_collectors sim_c_targetItems sim_c_collectors_NumTargets
  sim_make_targetMap sim_make_collectorMap sim_targetMap_assign
  sim_targetMap_delete sim_collectorMap_assign sim_collectorMap_delete : sim.

Ltac sim_steps :=
  repeat first
    [ match goal with
      | |- sim _ _ (Mem.bind Mem.get _) =>
          let Hc := fresh in
          let Ht := fresh in
          eapply sim_get_refs;
            [intros ? Hc Ht; rewrite ?Hc, ?Ht; reflexivity|]
      end
    | progress auto with sim
    | apply sim_bind; [|intros ?]
    | apply sim_range_targetMap; intros ? ?
    | apply sim_range_collectorMap; intros ? ?
    | apply sim_range; intros ? ?
    | match goal with
      | |- sim _ _ (match ?x with _ => _ end) => destruct x
      end ].

Lemma sim_addTargetToTargetItems target :
  sim rc rt (addTargetToTargetItems target).
Proof. unfold addTargetToTargetItems. sim_steps. Qed.

#[local] Hint Resolve sim_addTargetToTargetItems : sim.

Lemma sim_handleTargets order1 order2 d :
  sim rc rt (handleTargets order1 order2 d).
Proof.
  unfold handleTargets, removeTargets, addTargets, addTargets_body. sim_steps.
Qed.

Lemma sim_handleCollectors order1 order2 order3 d :
  sim rc rt (handleCollectors order1 order2 order3 d).
Proof.
  unfold handleCollectors, clearCollectors, insertCollectors,
    reallocateTargets, reallocateTargets_body.
  sim_steps.
Qed.

#[local] Hint Resolve sim_handleTargets sim_handleCollectors : sim.

Lemma sim_SetTargets order1 order2 targets :
  sim rc rt (SetTargets order1 order2 targets).
Proof. unfold SetTargets. sim_steps. Qed.

Lemma sim_SetCollectors order1 order2 order3 cs :
  sim rc rt (SetCollectors order1 order2 order3 cs).
Proof. unfold SetCollectors. sim_steps. Qed.

Lemma sim_TargetItems order : sim rc rt (TargetItems order).
Proof. unfold TargetItems. sim_steps. Qed.

Lemma sim_Collectors order : sim rc rt (Collectors order).
Proof. unfold Collectors. sim_steps. Qed.


#[local] Hint Resolve sim_SetTargets sim_SetCollectors sim_TargetItems
  sim_Collectors : sim.

Lemma sim_run_calls calls : sim rc rt (run_calls calls).
Proof.
  induction calls as [|c calls IH]; simpl; [apply sim_ret|].
  apply sim_bind; [destruct c; simpl; sim_steps|]. intros x. sim_steps.
Qed.

End Simulation.

(** ** A call, step by step *)

Lemma elementary_well_formed s s' :
  elementary s s' → well_formed s → well_formed s'.
Proof.
  intros [κ [s0 e _|s0 target t owner q po _ _ _ _|s0 k target t col _ _ _ _
            |s0 p c _|s0 p c _]] Hwf.
  - by apply well_formed_set_events.
  - by apply well_formed_assigned.
  - by apply well_formed_removed.
  - by apply well_formed_cleared.
  - by apply well_formed_inserted.
Qed.

Lemma elementary_refs s s' :
  elementary s s' → collectors s' = collectors s ∧ targetItems s' = targetItems s.
Proof. by intros [κ []]. Qed.

Lemma elementary_steps κ s s' :
  rtc (elementary_of κ) s s' → rtc elementary s s'.
Proof.
  induction 1 as [|s1 s2 s3 Hstep _ IH]; [done|].
  eapply rtc_l; [by exists κ|done].
Qed.

Lemma stepping_start κ s done : well_formed s → stepping κ s done s.
Proof. by split. Qed.

Lemma stepping_step κ s0 done k s s' :
  stepping κ s0 done s → elementary_of κ s s' → stepping κ s0 (done ++ [k]) s'.
Proof.
  intros (Hwf & Hsteps & Hc & Ht) Hstep.
  destruct (elementary_refs s s') as [Hc' Ht']; [by exists κ|].
  split; [eapply elementary_well_formed; [by exists κ|done]|].
  split; [by eapply rtc_r|]. by rewrite Hc', Ht'.
Qed.

Lemma removeTargets_steps s order d s' :
  well_formed s →
  removeTargets order d s = Some (tt, s') →
  stepping Remove s order s'.
Proof.
  intros Hwf Hrun. unfold removeTargets in Hrun.
  rewrite (bind_run _ _ _ _ _ (eq_refl : Mem.get s = Some (s, s))) in Hrun.
  unfold range_targetMap in Hrun.
  revert Hrun. apply (for_each_ind (stepping Remove s)); [|by apply stepping_start].
  intros done k rest s1 s2 _ HI Hbody.
  pose proof HI as (Hwf1 & _ & _ & Ht).
  apply remove_body_inv in Hbody
    as [[_ ->]|(target & t & col & Hk & _ & Hobj & Hhash & Hcol & ->)];
    [done| |done..].
  eapply stepping_step; [done|]. by eapply elementary_remove.
Qed.

Lemma addTargets_steps s order d s' :
  well_formed s →
  addTargets order d s = Some (tt, s') →
  stepping Assign s order s'.
Proof.
  intros Hwf. unfold addTargets, range.
  apply (for_each_ind (stepping Assign s)); [|by apply stepping_start].
  intros done k rest s1 s2 _ HI Hbody.
  pose proof HI as (Hwf1 & _).
  apply add_body_inv in Hbody
    as [[_ ->]|(target & t & owner & q & po & _ & _ & Hobj & Hloc & Hq & Hpo & ->)];
    [done| |done].
  eapply stepping_step; [done|]. by eapply elementary_assign.
Qed.

Lemma reallocateTargets_steps s order s' :
  well_formed s →
  reallocateTargets order s = Some (tt, s') →
  stepping Assign s order s'.
Proof.
  intros Hwf Hrun. unfold reallocateTargets in Hrun.
  rewrite (bind_run _ _ _ _ _ (eq_refl : Mem.get s = Some (s, s))) in Hrun.
  unfold range_targetMap in Hrun.
  revert Hrun. apply (for_each_ind (stepping Assign s)); [|by apply stepping_start].
  intros done k rest s1 s2 _ HI Hbody.
  pose proof HI as (Hwf1 & _ & _ & Ht).
  apply reallocate_body_inv in Hbody
    as [[_ ->]|(item & t & owner & q & po & _ & Hobj & Hhash & Hloc & Hq & Hpo & ->)];
    [done| |done..].
  eapply stepping_step; [done|]. eapply elementary_assign; [done| |done..].
  by rewrite Hhash.
Qed.

Lemma clearCollectors_steps s order d s' :
  well_formed s →
  clearCollectors order d s = Some (tt, s') →
  stepping Clear s order s'.
Proof.
  intros Hwf. unfold clearCollectors, range.
  apply (for_each_ind (stepping Clear s)); [|by apply stepping_start].
  intros done k rest s1 s2 _ HI Hbody.
  pose proof HI as (Hwf1 & _).
  apply clear_body_inv in Hbody as [[_ ->]|(kp & c & _ & Hc & ->)];
    [done| |done].
  eapply stepping_step; [done|]. by eapply elementary_clear.
Qed.

Lemma insertCollectors_steps s order d s' :
  well_formed s →
  insertCollectors order d s = Some (tt, s') →
  stepping Insert s order s'.
Proof.
  intros Hwf. unfold insertCollectors, range.
  apply (for_each_ind (stepping Insert s)); [|by apply stepping_start].
  intros done k rest s1 s2 _ HI Hbody.
  pose proof HI as (Hwf1 & _).
  apply insert_body_inv in Hbody as [[_ ->]|(ip & c & _ & Hc & ->)];
    [done| |done].
  eapply stepping_step; [done|]. by eapply elementary_insert.
Qed.

Lemma grows_refl s : grows s s.
Proof. split; eauto. Qed.

Lemma grows_trans s1 s2 s3 : grows s1 s2 → grows s2 s3 → grows s1 s3.
Proof.
  intros [He Ht Hc Hcr Htr Hcm Htm] [He' Ht' Hc' Hcr' Htr' Hcm' Htm'].
  split.
  - by etrans.
  - by etrans.
  - intros p c Hp. destruct (Hc p c Hp) as (c1 & Hp1 & Hn1).
    destruct (Hc' p c1 Hp1) as (c2 & Hp2 & Hn2). exists c2. split; congruence.
  - congruence.
  - congruence.
  - intros r m Hr Hm. apply Hcm'; [congruence|]. by apply Hcm.
  - intros r m Hr Hm. apply Htm'; [congruence|]. by apply Htm.
Qed.

Lemma alter_keeps_Name (f : Collector → Collector) (l : list Collector)
    (q p : ptr) c :
  (∀ c, Name (f c) = Name c) →
  l !! p = Some c →
  ∃ c', alter f q l !! p = Some c' ∧ Name c' = Name c.
Proof.
  intros Hf Hp. destruct (decide (q = p)) as [->|Hne].
  - exists (f c). split; [|done].
    by rewrite list_lookup_alter_eq, Hp.
  - exists c. split; [|done]. by rewrite list_lookup_alter_ne.
Qed.

Lemma elementary_grows s s' : elementary s s' → grows s s'.
Proof.
  intros [κ [s0 e _|s0 target t owner q po _ _ _ _|s0 k target t col _ _ _ _
            |s0 p c _|s0 p c _]].
  - split; simpl; eauto. by apply prefix_app_r.
  - split; simpl; eauto.
    + by apply prefix_app_r.
    + by apply prefix_app_r.
    + intros p c Hp. unfold released_objs.
      destruct (live_collectors s0 !! CollectorName t) as [prev|].
      * destruct (alter_keeps_Name decr_NumTargets (collectorObjs s0) prev p c)
          as (c1 & Hc1 & Hn1);
          [done|done|].
        destruct (alter_keeps_Name incr_NumTargets
                    (alter decr_NumTargets prev (collectorObjs s0)) po p c1)
          as (c2 & Hc2 & Hn2);
          [done|done|].
        exists c2. split; congruence.
      * by apply alter_keeps_Name.
    + intros r m Hr Hm. by rewrite list_lookup_insert_ne.
  - split; simpl; eauto.
    + by apply prefix_app_r.
    + intros p c Hp. by apply alter_keeps_Name.
    + intros r m Hr Hm. by rewrite list_lookup_insert_ne.
  - split; simpl; eauto.
    + by apply prefix_app_r.
    + intros r m Hr Hm. by rewrite list_lookup_insert_ne.
  - split; simpl; eauto.
    + intros p' c' Hp. exists c'. split; [|done]. by apply lookup_app_l_Some.
    + intros r m Hr Hm. by rewrite list_lookup_insert_ne.
Qed.

Lemma idle_grows s s' : well_formed s → idle s s' → grows s s'.
Proof.
  intros Hwf Hidle. revert Hwf.
  destruct Hidle as [s0 order r s0' _ Hrun|s0 order r s0' _ Hrun
                    |s0 t p s0' Hrun|s0 c p s0' Hrun]; intros Hwf.
  - rewrite TargetItems_run in Hrun by done. injection Hrun as <- <-.
    split; simpl; eauto. intros r m _ Hm. by apply lookup_app_l_Some.
  - rewrite Collectors_run in Hrun by done. injection Hrun as <- <-.
    split; simpl; eauto. intros r m _ Hm. by apply lookup_app_l_Some.
  - rewrite alloc_TargetItem_run in Hrun. injection Hrun as <- <-.
    split; simpl; eauto. by apply prefix_app_r.
  - rewrite alloc_Collector_run in Hrun. injection Hrun as <- <-.
    split; simpl; eauto. intros p' c' Hp. exists c'. split; [|done].
    by apply lookup_app_l_Some.
Qed.

Lemma elementary_steps_grow s s' : rtc elementary s s' → grows s s'.
Proof.
  induction 1 as [|s1 s2 s3 Hstep _ IH]; [apply grows_refl|].
  eapply grows_trans; [by apply elementary_grows|done].
Qed.

Lemma elementary_emit s e :
  bookkeeping e → rtc elementary s (set_events (events s ++ [e]) s).
Proof. intros He. apply rtc_once. exists Note. by constructor. Qed.

Lemma SetTargets_runs s order1 order2 targets s' :
  well_formed s →
  SetTargets order1 order2 targets s = Some (tt, s') →
  let d := diff.Maps (live_targets s) targets in
  (live_collectors s = ∅ ∧
   s' = observed "SetTargets"
          (set_events
             (events s ++
                [Log_Info "No collector instances present, cannot set targets"])
             s)) ∨
  (live_collectors s ≠ ∅ ∧ has_changes d = false ∧
   s' = observed "SetTargets" s) ∨
  (live_collectors s ≠ ∅ ∧ has_changes d = true ∧
   ∃ s1 s2, removeTargets order1 d s = Some (tt, s1) ∧
            addTargets order2 d s1 = Some (tt, s2) ∧
            s' = observed "SetTargets" s2).
Proof.
  intros Hwf Hrun d. unfold SetTargets in Hrun.
  rewrite (bind_run _ _ _ _ _
    (c_collectors_run _ _ (well_formed_collectors_ref s Hwf))) in Hrun.
  destruct (size (live_collectors s) =? 0) eqn:Hsize.
  - left. apply Nat.eqb_eq, map_size_empty_iff in Hsize.
    rewrite (bind_run _ _ _ _ _ (emit_run _ _)) in Hrun.
    rewrite emit_run in Hrun. by injection Hrun as <-.
  - right. apply Nat.eqb_neq, map_size_non_empty_iff in Hsize.
    apply bind_inv in Hrun as ([] & s2 & Hrun & Hemit).
    rewrite emit_run in Hemit. injection Hemit as <-.
    rewrite (bind_run _ _ _ _ _
      (c_targetItems_run _ _ (well_formed_targets_ref s Hwf))) in Hrun.
    fold d in Hrun. destruct (has_changes d).
    + right. split; [done|]. split; [done|].
      unfold handleTargets in Hrun.
      apply bind_inv in Hrun as ([] & s1 & Hrem & Hadd).
      by exists s1, s2.
    + left. by injection Hrun as <-.
Qed.

Lemma SetCollectors_runs s order1 order2 order3 cs s' :
  well_formed s →
  SetCollectors order1 order2 order3 cs s = Some (tt, s') →
  let d := diff.Maps (live_collectors s) cs in
  let s0 := set_events
              (events s ++
                 [CollectorsAllocatable_Set consistentHashingStrategyName
                    (Z.of_nat (size cs))]) s in
  (cs = ∅ ∧
   s' = observed "SetCollectors"
          (set_events (events s0 ++ [Log_Info "No collector instances present"])
             s0)) ∨
  (cs ≠ ∅ ∧ has_changes d = false ∧ s' = observed "SetCollectors" s0) ∨
  (cs ≠ ∅ ∧ has_changes d = true ∧
   ∃ s1 s2 s3, clearCollectors order1 d s0 = Some (tt, s1) ∧
               insertCollectors order2 d s1 = Some (tt, s2) ∧
               reallocateTargets order3 s2 = Some (tt, s3) ∧
               s' = observed "SetCollectors" s3).
Proof.
  intros Hwf Hrun d s0. unfold SetCollectors in Hrun.
  rewrite (bind_run _ _ _ _ _ (emit_run _ _)) in Hrun. fold s0 in Hrun.
  assert (well_formed s0) as Hwf0 by (by apply well_formed_set_events).
  destruct (size cs =? 0) eqn:Hsize.
  - left. apply Nat.eqb_eq, map_size_empty_iff in Hsize.
    rewrite (bind_run _ _ _ _ _ (emit_run _ _)) in Hrun.
    rewrite emit_run in Hrun. by injection Hrun as <-.
  - right. apply Nat.eqb_neq, map_size_non_empty_iff in Hsize.
    apply bind_inv in Hrun as ([] & s3 & Hrun & Hemit).
    rewrite emit_run in Hemit. injection Hemit as <-.
    rewrite (bind_run _ _ _ _ _
      (c_collectors_run _ _ (well_formed_collectors_ref s0 Hwf0))) in Hrun.
    change (live_collectors s0) with (live_collectors s) in Hrun.
    fold d in Hrun. destruct (has_changes d).
    + right. split; [done|]. split; [done|].
      unfold handleCollectors in Hrun.
      apply bind_inv in Hrun as ([] & s1 & Hclr & Hrun).
      apply bind_inv in Hrun as ([] & s2 & Hins & Hrea).
      by exists s1, s2, s3.
    + left. by injection Hrun as <-.
Qed.

Lemma SetTargets_shape s order1 order2 targets s' :
  well_formed s →
  SetTargets order1 order2 targets s = Some (tt, s') →
  ∃ s2, rtc elementary s s2 ∧ s' = observed "SetTargets" s2.
Proof.
  intros Hwf Hrun.
  apply SetTargets_runs in Hrun
    as [[_ ->]|[(_ & _ & ->)|(_ & _ & s1 & s2 & Hrem & Hadd & ->)]]; [| | |done].
  - eexists. split; [|done]. apply elementary_emit. constructor.
  - by exists s.
  - exists s2. split; [|done].
    apply removeTargets_steps in Hrem as (Hwf1 & Hsteps1 & _); [|done].
    apply addTargets_steps in Hadd as (_ & Hsteps2 & _); [|done].
    etrans; by eapply elementary_steps.
Qed.

Lemma SetCollectors_shape s order1 order2 order3 cs s' :
  well_formed s →
  SetCollectors order1 order2 order3 cs s = Some (tt, s') →
  ∃ s4,
    rtc elementary
      (set_events
         (events s ++
            [CollectorsAllocatable_Set consistentHashingStrategyName
               (Z.of_nat (size cs))]) s) s4 ∧
    s' = observed "SetCollectors" s4.
Proof.
  intros Hwf Hrun.
  assert (well_formed
    (set_events
       (events s ++
          [CollectorsAllocatable_Set consistentHashingStrategyName
             (Z.of_nat (size cs))]) s)) as Hwf0
    by (by apply well_formed_set_events).
  apply SetCollectors_runs in Hrun
    as [[_ ->]|[(_ & _ & ->)|(_ & _ & s1 & s2 & s3 & Hclr & Hins & Hrea & ->)]];
    [| | |done].
  - eexists. split; [|done]. apply elementary_emit. constructor.
  - eexists. by split.
  - exists s3. split; [|done].
    apply clearCollectors_steps in Hclr as (Hwf1 & Hsteps1 & _); [|done].
    apply insertCollectors_steps in Hins as (Hwf2 & Hsteps2 & _); [|done].
    apply reallocateTargets_steps in Hrea as (_ & Hsteps3 & _); [|done].
    etrans; [by eapply elementary_steps|].
    etrans; by eapply elementary_steps.
Qed.

Lemma SetTargets_steps s order1 order2 targets s' :
  well_formed s →
  SetTargets order1 order2 targets s = Some (tt, s') →
  rtc elementary s s'.
Proof.
  intros Hwf Hrun.
  apply SetTargets_shape in Hrun as (s2 & Hsteps & ->); [|done].
  eapply rtc_r; [done|]. exists Note. apply elementary_note. constructor.
Qed.

Lemma SetCollectors_steps s order1 order2 order3 cs s' :
  well_formed s →
  SetCollectors order1 order2 order3 cs s = Some (tt, s') →
  rtc elementary s s'.
Proof.
  intros Hwf Hrun.
  apply SetCollectors_shape in Hrun as (s4 & Hsteps & ->); [|done].
  eapply rtc_l; [exists Note; apply elementary_note; constructor|].
  eapply rtc_r; [done|]. exists Note. apply elementary_note. constructor.
Qed.

Lemma step_grows okT okC s s' :
  well_formed s → step okT okC s s' → grows s s'.
Proof.
  intros Hwf Hstep. revert Hwf.
  destruct Hstep as [s0 o1 o2 targets s0' _ _ _ Hrun
                    |s0 o1 o2 o3 cs s0' _ _ _ _ Hrun|s0 s0' Hidle]; intros Hwf.
  - by eapply elementary_steps_grow, SetTargets_steps.
  - by eapply elementary_steps_grow, SetCollectors_steps.
  - by apply idle_grows.
Qed.

Lemma steps_grow s s' :
  reachable s → rtc (step any_input any_input) s s' → grows s s'.
Proof.
  intros Hr Hsteps. induction Hsteps as [|s1 s2 s3 Hstep _ IH];
    [apply grows_refl|].
  eapply grows_trans.
  - eapply step_grows; [by apply reachable_well_formed|done].
  - apply IH. by eapply rtc_r.
Qed.

Lemma reachable_elementary_ind (I : state → Prop) :
  I newConsistentHashingAllocator →
  (∀ s s', well_formed s → I s → elementary s s' → I s') →
  (∀ s s', well_formed s → I s → idle s s' → I s') →
  ∀ s, reachable s → I s.
Proof.
  intros Hnew Hel Hidle.
  assert (∀ s s', rtc elementary s s' → well_formed s → I s → I s') as Hsteps.
  { induction 1 as [|s1 s2 s3 Hstep _ IH]; [done|]. intros Hwf HI.
    apply IH; [by eapply elementary_well_formed|by eapply Hel]. }
  intros s Hr. pose proof Hr as Hr'. revert s Hr' Hr.
  apply (rtc_ind_r (λ s, reachable s → I s)); [done|].
  intros s s' Hr Hstep IH _.
  assert (reachable s) as Hrs by done.
  pose proof (reachable_well_formed _ Hrs) as Hwf. specialize (IH Hrs).
  revert Hwf IH.
  destruct Hstep as [s0 o1 o2 targets s0' _ _ _ Hrun
                    |s0 o1 o2 o3 cs s0' _ _ _ _ Hrun|s0 s0' Hi]; intros Hwf IH.
  - eapply Hsteps; [by eapply SetTargets_steps|done..].
  - eapply Hsteps; [by eapply SetCollectors_steps|done..].
  - by eapply Hidle.
Qed.

Lemma linked_elementary s s' :
  well_formed s → linked s → elementary s s' → linked s'.
Proof.
  intros Hwf Hl Hstep. revert Hwf Hl.
  destruct Hstep as [κ [s0 e _|s0 target t owner q po _ _ _ _
                       |s0 k target t col _ _ _ _|s0 p c _|s0 p c _]];
    intros Hwf Hl; try done.
  - intros k p t'. rewrite live_targets_assigned by done.
    destruct (decide (Hash t = k)) as [<-|Hne].
    + rewrite lookup_insert_eq. intros [= <-].
      rewrite targetObjs_assigned_new. by intros [= <-].
    + rewrite lookup_insert_ne by done. intros Hk.
      destruct (wf_targets _ Hwf _ _ Hk) as (t0 & Ht0 & _).
      rewrite (targetObjs_assigned _ _ _ _ _ _ Ht0). intros [= <-].
      by eapply Hl.
  - intros k' p t'. rewrite live_targets_removed by done.
    intros [_ Hk]%lookup_delete_Some. by apply (Hl k' p t').
Qed.

Lemma linked_idle s s' : well_formed s → linked s → idle s s' → linked s'.
Proof.
  intros Hwf Hl Hidle k p t.
  pose proof (idle_extends _ _ Hwf Hidle) as Hext.
  rewrite (extends_live_targets _ _ Hext). intros Hk.
  destruct (wf_targets _ Hwf _ _ Hk) as (t0 & Ht0 & _).
  rewrite (ext_targetObjs _ _ Hext _ _ Ht0). intros [= <-]. by eapply Hl.
Qed.

Lemma addTargets_keeps s order d s' :
  well_formed s →
  (∀ k p, diff.additions d !! k = Some p →
     ∃ t, targetObjs s !! p = Some t ∧ Hash t = k) →
  addTargets order d s = Some (tt, s') →
  ∀ k p, live_targets s !! k = Some p → live_targets s' !! k = Some p.
Proof.
  intros Hwf Hkeyed Hrun.
  enough (keeping s d order s') as [_ Hkeep] by done.
  revert Hrun. unfold addTargets, range.
  apply (for_each_ind (keeping s d)).
  - intros done k rest s1 s2 _ [Hadd Hkeep] Hbody.
    split; [by eapply adding_step|].
    pose proof (add_wf _ _ _ _ Hadd) as Hwf1.
    apply add_body_inv in Hbody
      as [[_ ->]|(target & t & owner & q & po & Hk & Hnone & Hobj & _ & _ & _
                  & ->)]; [done| |done].
    intros k' p Hk'. rewrite live_targets_assigned by done.
    destruct (Hkeyed _ _ Hk) as (t0 & Ht0 & Hhash).
    rewrite (add_heap _ _ _ _ Hadd _ _ Ht0) in Hobj. injection Hobj as <-.
    rewrite lookup_insert_ne; [by apply Hkeep|].
    rewrite Hhash. intros <-. apply Hkeep in Hk'. congruence.
  - split; [|done]. split; try done. intros _. set_solver.
Qed.

Lemma SetCollectors_same_names s order1 order2 order3 cs :
  well_formed s →
  cs ≠ ∅ →
  dom cs = dom (live_collectors s) →
  SetCollectors order1 order2 order3 cs s
  = Some (tt, observed "SetCollectors"
                (set_events
                   (events s ++
                      [CollectorsAllocatable_Set consistentHashingStrategyName
                         (Z.of_nat (size cs))]) s)).
Proof.
  intros Hwf Hsome Hdom. unfold SetCollectors.
  rewrite (bind_run _ _ _ _ _ (emit_run _ _)).
  set (s0 := set_events _ s).
  assert (well_formed s0) as Hwf0 by (by apply well_formed_set_events).
  apply map_size_non_empty_iff, Nat.eqb_neq in Hsome. rewrite Hsome.
  erewrite bind_run; [by rewrite emit_run|].
  rewrite (bind_run _ _ _ _ _
    (c_collectors_run _ _ (well_formed_collectors_ref s0 Hwf0))).
  change (live_collectors s0) with (live_collectors s).
  assert (has_changes (diff.Maps (live_collectors s) cs) = false) as ->
    by by apply no_changes_dom.
  done.
Qed.

(** ** The gauges *)

Lemma gauge_snoc evs e n :
  gauge (evs ++ [e]) n
  = match e with
    | TargetsPerCollector_Set n' _ v' =>
        if decide (n' = n) then v' else gauge evs n
    | _ => gauge evs n
    end.
Proof. unfold gauge. by rewrite foldl_snoc. Qed.

Lemma gauges_note s e :
  bookkeeping e → gauges_agree s →
  gauges_agree (set_events (events s ++ [e]) s).
Proof.
  intros He Hg n. simpl. rewrite gauge_snoc.
  change (live_collectors (set_events _ s)) with (live_collectors s).
  change (NumTargets_at (set_events (events s ++ [e]) s))
    with (NumTargets_at s).
  destruct He; apply Hg.
Qed.

Lemma gauges_assigned s t owner po :
  well_formed s → gauges_agree s →
  live_collectors s !! owner = Some po →
  gauges_agree (assigned s t owner po).
Proof.
  intros Hwf Hg Hpo n. rewrite live_collectors_assigned.
  change (events (assigned s t owner po))
    with (events s ++ released_events s t ++
          [TargetsPerCollector_Set owner consistentHashingStrategyName
             (NumTargets_at (assigned s t owner po) po)]).
  rewrite app_assoc, gauge_snoc.
  assert (gauge (events s ++ released_events s t) n
          = if decide (CollectorName t = n) then
              match live_collectors s !! n with
              | Some p => int_decr (NumTargets_at s p)
              | None => 0%Z
              end
            else gauge (events s) n) as Hrel.
  { unfold released_events.
    destruct (live_collectors s !! CollectorName t) as [prev|] eqn:Hprev.
    - rewrite gauge_snoc. case_decide as Hn; [|done]. by rewrite <-Hn, Hprev.
    - rewrite app_nil_r. case_decide as Hn; [|done].
      by rewrite Hg, <-Hn, Hprev. }
  destruct (decide (owner = n)) as [<-|Hne].
  { by rewrite Hpo. }
  rewrite Hrel. destruct (live_collectors s !! n) as [p|] eqn:Hp.
  - destruct (wf_collectors _ Hwf _ _ Hp) as (c & Hc & _).
    destruct (NumTargets_assigned s t owner po n p c Hwf Hpo Hp Hc)
      as (c' & Hc' & Hnum).
    assert (NumTargets_at (assigned s t owner po) p = NumTargets c') as ->.
    { unfold NumTargets_at. by rewrite Hc'. }
    assert (NumTargets_at s p = NumTargets c) as Hold.
    { unfold NumTargets_at. by rewrite Hc. }
    rewrite Hnum. destruct (decide (owner = n)); [done|]. simpl.
    destruct (decide (CollectorName t = n)); simpl;
      [by rewrite Hold|by rewrite Hg, Hp, Hold].
  - case_decide; [done|]. by rewrite Hg, Hp.
Qed.

Lemma gauges_removed s k t col :
  well_formed s → gauges_agree s →
  live_collectors s !! CollectorName t = Some col →
  gauges_agree (removed s k t col).
Proof.
  intros Hwf Hg Hcol n. simpl. rewrite gauge_snoc.
  change (live_collectors (removed s k t col)) with (live_collectors s).
  destruct (wf_collectors _ Hwf _ _ Hcol) as (c & Hc & _).
  destruct (decide (CollectorName t = n)) as [<-|Hne].
  - rewrite Hcol. unfold NumTargets_at. simpl.
    by rewrite list_lookup_alter_eq, Hc.
  - rewrite Hg. destruct (live_collectors s !! n) as [p|] eqn:Hp; [|done].
    unfold NumTargets_at. simpl. rewrite list_lookup_alter_ne; [done|].
    intros <-. apply Hne. by eapply live_collectors_inj.
Qed.

Lemma gauges_cleared s name :
  well_formed s → gauges_agree s → gauges_agree (cleared s name).
Proof.
  intros Hwf Hg n. simpl. rewrite gauge_snoc.
  rewrite live_collectors_cleared by done.
  destruct (decide (name = n)) as [<-|Hne].
  - by rewrite lookup_delete_eq.
  - rewrite lookup_delete_ne by done. apply Hg.
Qed.

Lemma gauges_inserted s name :
  well_formed s → gauges_agree s →
  live_collectors s !! name = None →
  gauges_agree (inserted s name).
Proof.
  intros Hwf Hg Hnone n.
  change (events (inserted s name)) with (events s).
  rewrite live_collectors_inserted by done.
  destruct (decide (name = n)) as [<-|Hne].
  - rewrite lookup_insert_eq, Hg, Hnone. unfold NumTargets_at.
    by rewrite collectorObjs_inserted_new.
  - rewrite lookup_insert_ne by done. rewrite Hg.
    destruct (live_collectors s !! n) as [p|] eqn:Hp; [|done].
    destruct (wf_collectors _ Hwf _ _ Hp) as (c & Hc & _).
    unfold NumTargets_at.
    by rewrite (collectorObjs_inserted _ name _ _ Hc), Hc.
Qed.

Lemma gauges_idle s s' :
  well_formed s → gauges_agree s → idle s s' → gauges_agree s'.
Proof.
  intros Hwf Hg Hidle n.
  pose proof (idle_extends _ _ Hwf Hidle) as Hext.
  rewrite (extends_live_collectors _ _ Hext).
  assert (events s' = events s) as ->.
  { revert Hwf. destruct Hidle as [s0 order r s0' _ Hrun|s0 order r s0' _ Hrun
                                  |s0 t p s0' Hrun|s0 c p s0' Hrun]; intros Hwf.
    - rewrite TargetItems_run in Hrun by done. by injection Hrun as <- <-.
    - rewrite Collectors_run in Hrun by done. by injection Hrun as <- <-.
    - rewrite alloc_TargetItem_run in Hrun. by injection Hrun as <- <-.
    - rewrite alloc_Collector_run in Hrun. by injection Hrun as <- <-. }
  rewrite Hg. destruct (live_collectors s !! n) as [p|] eqn:Hp; [|done].
  destruct (wf_collectors _ Hwf _ _ Hp) as (c & Hc & _).
  unfold NumTargets_at. by rewrite (ext_collectorObjs _ _ Hext _ _ Hc), Hc.
Qed.

Lemma elementary_of_closed κ (J : state → Prop) s s' :
  (∀ s s', well_formed s → J s → elementary_of κ s s' → J s') →
  rtc (elementary_of κ) s s' → well_formed s → J s → J s'.
Proof.
  intros Hstep. induction 1 as [|s1 s2 s3 Hs _ IH]; [done|]. intros Hwf HJ.
  apply IH; [|by eapply Hstep].
  eapply elementary_well_formed; [by exists κ|done].
Qed.

Lemma removeTargets_gauges s order d s' :
  well_formed s → gauges_agree s →
  removeTargets order d s = Some (tt, s') → gauges_agree s'.
Proof.
  intros Hwf Hg (_ & Hsteps & _)%removeTargets_steps; [|done].
  eapply (elementary_of_closed Remove gauges_agree); [|done..].
  intros s1 s2 Hwf1 Hg1 Hstep. inversion Hstep; subst.
  by apply gauges_removed.
Qed.

Lemma addTargets_gauges s order d s' :
  well_formed s → gauges_agree s →
  addTargets order d s = Some (tt, s') → gauges_agree s'.
Proof.
  intros Hwf Hg (_ & Hsteps & _)%addTargets_steps; [|done].
  eapply (elementary_of_closed Assign gauges_agree); [|done..].
  intros s1 s2 Hwf1 Hg1 Hstep. inversion Hstep; subst.
  by apply gauges_assigned.
Qed.

Lemma reallocateTargets_gauges s order s' :
  well_formed s → gauges_agree s →
  reallocateTargets order s = Some (tt, s') → gauges_agree s'.
Proof.
  intros Hwf Hg (_ & Hsteps & _)%reallocateTargets_steps; [|done].
  eapply (elementary_of_closed Assign gauges_agree); [|done..].
  intros s1 s2 Hwf1 Hg1 Hstep. inversion Hstep; subst.
  by apply gauges_assigned.
Qed.

Lemma clearCollectors_gauges s order d s' :
  well_formed s → gauges_agree s →
  clearCollectors order d s = Some (tt, s') → gauges_agree s'.
Proof.
  intros Hwf Hg (_ & Hsteps & _)%clearCollectors_steps; [|done].
  eapply (elementary_of_closed Clear gauges_agree); [|done..].
  intros s1 s2 Hwf1 Hg1 Hstep. inversion Hstep; subst.
  by apply gauges_cleared.
Qed.

Lemma insertCollectors_gauges s order d s' :
  well_formed s → NoDup order →
  (∀ k p, diff.additions d !! k = Some p →
     ∃ c, collectorObjs s !! p = Some c ∧ Name c = k) →
  (∀ k, is_Some (diff.additions d !! k) → live_collectors s !! k = None) →
  gauges_agree s →
  insertCollectors order d s = Some (tt, s') → gauges_agree s'.
Proof.
  intros Hwf Hnd Hkeyed Hnew Hg Hrun.
  enough (inserting s d order s' ∧ gauges_agree s') as [_ ?] by done.
  revert Hrun. unfold insertCollectors, range.
  apply (for_each_ind (λ done s1, inserting s d done s1 ∧ gauges_agree s1)).
  - intros done k rest s1 s2 Horder [Hins Hg1] Hbody.
    assert (k ∉ done) as Hk.
    { rewrite Horder in Hnd. apply NoDup_app in Hnd as (_ & Hnd & _).
      intros Hin. apply (Hnd _ Hin). by left. }
    split; [by eapply inserting_step|].
    pose proof (ins_wf _ _ _ _ Hins) as Hwf1.
    apply insert_body_inv in Hbody as [[_ ->]|(ip & c & Hadd & Hc & ->)];
      [done| |done].
    destruct (Hkeyed _ _ Hadd) as (c0 & Hc0 & Hname).
    rewrite (ins_heap _ _ _ _ Hins _ _ Hc0) in Hc. injection Hc as <-.
    apply gauges_inserted; [done..|].
    apply not_elem_of_dom.
    rewrite (ins_dom _ _ _ _ Hins), (added_names_keyed _ _ _ Hkeyed).
    2:{ intros k' p' Hk'. destruct (Hkeyed _ _ Hk') as (? & -> & _). eauto. }
    rewrite Hname. intros [Hin|[Hin _]%elem_of_intersection]%elem_of_union.
    + apply elem_of_dom in Hin as [? Hin]. rewrite Hnew in Hin; [done|eauto].
    + by apply elem_of_list_to_set in Hin.
  - split; [|done]. split; try done.
    + intros (k & Hin & _). by apply elem_of_nil in Hin.
    + intros _. unfold added_names. set_solver.
Qed.

Lemma SetTargets_gauges s order1 order2 targets s' :
  well_formed s → gauges_agree s →
  SetTargets order1 order2 targets s = Some (tt, s') → gauges_agree s'.
Proof.
  intros Hwf Hg Hrun.
  apply SetTargets_runs in Hrun
    as [[_ ->]|[(_ & _ & ->)|(_ & _ & s1 & s2 & Hrem & Hadd & ->)]]; [| | |done].
  - apply gauges_note; [constructor|]. apply gauges_note; [constructor|done].
  - by apply gauges_note; [constructor|].
  - apply gauges_note; [constructor|].
    pose proof (removeTargets_steps _ _ _ _ Hwf Hrem) as (Hwf1 & _).
    eapply addTargets_gauges; [exact Hwf1| |exact Hadd].
    exact (removeTargets_gauges _ _ _ _ Hwf Hg Hrem).
Qed.

Lemma SetCollectors_gauges s order1 order2 order3 cs s' :
  well_formed s → gauges_agree s →
  keyed_by_name s cs →
  NoDup order2 →
  SetCollectors order1 order2 order3 cs s = Some (tt, s') → gauges_agree s'.
Proof.
  intros Hwf Hg Hkeyed Hnd Hrun.
  assert (well_formed
    (set_events
       (events s ++
          [CollectorsAllocatable_Set consistentHashingStrategyName
             (Z.of_nat (size cs))]) s)) as Hwf0
    by (by apply well_formed_set_events).
  apply SetCollectors_runs in Hrun
    as [[_ ->]|[(_ & _ & ->)|(_ & _ & s1 & s2 & s3 & Hclr & Hins & Hrea & ->)]];
    [| | |done].
  - do 3 (apply gauges_note; [constructor|]). done.
  - do 2 (apply gauges_note; [constructor|]). done.
  - apply gauges_note; [constructor|].
    pose proof (clearCollectors_inv _ _ _ _ Hwf0
      (λ k p H, proj1 (proj1 (removals_Some _ _ _ _) H)) Hclr) as Hclr'.
    pose proof (clr_wf _ _ _ _ Hclr') as Hwf1.
    pose proof (insertCollectors_steps _ _ _ _ Hwf1 Hins) as (Hwf2 & _).
    eapply reallocateTargets_gauges; [exact Hwf2| |exact Hrea].
    eapply insertCollectors_gauges; [exact Hwf1|exact Hnd| | | |exact Hins].
    + intros k p [Hin _]%additions_Some.
      rewrite (clr_collectorObjs _ _ _ _ Hclr').
      by apply (keyed_by_name_lookup s cs).
    + intros k [p [_ Hnone]%additions_Some].
      rewrite (clr_collectors _ _ _ _ Hclr'). by case_decide.
    + eapply clearCollectors_gauges; [exact Hwf0| |exact Hclr].
      apply gauges_note; [constructor|done].
Qed.

Lemma reachable_by_name_gauges s :
  reachable_by_name s → well_formed s ∧ gauges_agree s.
Proof.
  revert s. apply rtc_ind_r.
  - split; [apply well_formed_new|]. intros n.
    change (live_collectors newConsistentHashingAllocator)
      with (∅ : gmap string nat).
    by rewrite lookup_empty.
  - intros s s' Hr Hstep [Hwf Hg].
    split.
    { apply (run_invariant any_input keyed_by_name). by eapply rtc_r. }
    revert Hwf Hg.
    destruct Hstep as [s0 o1 o2 targets s0' _ _ _ Hrun
                      |s0 o1 o2 o3 cs s0' Hok _ [Hnd _] _ Hrun|s0 s0' Hi];
      intros Hwf Hg.
    + by eapply SetTargets_gauges.
    + by eapply SetCollectors_gauges.
    + by eapply gauges_idle.
Qed.

(** ** The calls return *)












End Facts.

(** * The claims *)

Section Claims.
Context `{Env}.

Implicit Types (s : state) (p q r : ptr) (c : Collector) (t : TargetItem).
Implicit Types (m cs ts : gmap string ptr) (k n key name : string).

Lemma reachable_in_contract_reachable s :
  reachable_in_contract s → well_formed s ∧ located s.
Proof. apply run_invariant. Qed.

Lemma owned_count_le s n : owned_count s n ≤ size (assignment s).
Proof. apply map_size_filter. Qed.

(** C1, as amended.  In every state reachable by [SetTargets] and
    [SetCollectors] calls whose maps are keyed by the hash of each target
    and by the name of each collector, and whose new targets do not carry
    the name of a live collector, the sum of [NumTargets] over the live
    collectors is the number of live targets (which is within the range
    of an [int]). *)
Theorem conservation s :
  reachable_in_contract s →
  (Z.of_nat (size (live_targets s)) < 2 ^ 63)%Z →
  sum_NumTargets s = Z.of_nat (size (live_targets s)).
Proof.
  intros Hreach Hsize.
  pose proof (reachable_in_contract_counts s Hreach) as Hcnt.
  apply reachable_in_contract_reachable in Hreach as [Hwf Hloc].
  rewrite <-(size_assignment s Hwf) in *.
  rewrite <-(sum_over_counts (assignment s) (live_collectors s)).
  - apply sum_over_ext. intros n p Hp.
    destruct (wf_collectors s Hwf _ _ Hp) as (c & Hc & _).
    unfold NumTargets_at. rewrite Hc. simpl. rewrite (Hcnt n p c Hp Hc).
    apply int_wrap_small. pose proof (owned_count_le s n).
    unfold owned_count in *. lia.
  - intros k o Hk. by eapply located_owner_live.
Qed.

(** C2.  In every reachable state every live target is owned by a live
    collector; and when a [SetCollectors] call removes a collector, each
    target it owned is still live, is owned by another collector, a live
    one, and no live target is left with the name of the removed one. *)
Theorem no_orphan_ownership s :
  reachable s →
  (∀ k p, live_targets s !! k = Some p →
     ∃ t, targetObjs s !! p = Some t ∧
          is_Some (live_collectors s !! CollectorName t)) ∧
  (∀ order1 order2 order3 cs s' gone,
     is_order order1 (diff.removals (diff.Maps (live_collectors s) cs)) →
     is_order order2 (diff.additions (diff.Maps (live_collectors s) cs)) →
     is_order order3 (live_targets s) →
     SetCollectors order1 order2 order3 cs s = Some (tt, s') →
     is_Some (live_collectors s !! gone) →
     live_collectors s' !! gone = None →
     (∀ k, assignment s !! k = Some gone →
        ∃ n, assignment s' !! k = Some n ∧ n ≠ gone ∧
             is_Some (live_collectors s' !! n)) ∧
     (∀ k, assignment s' !! k ≠ Some gone)).
Proof.
  intros Hreach. pose proof (run_invariant _ _ _ Hreach) as [Hwf Hloc].
  split.
  - intros k p Hp. destruct (assignment_lookup s k p Hwf Hp) as (t & Ht & _ & Ha).
    exists t. split; [done|]. by eapply located_owner_live.
  - intros order1 order2 order3 cs s' gone Ho1 Ho2 Ho3 Hrun Hlive Hgone.
    assert (reachable s') as Hreach'.
    { eapply rtc_r; [exact Hreach|]. by eapply step_SetCollectors. }
    pose proof (run_invariant _ _ _ Hreach') as [Hwf' Hloc'].
    assert (∀ k n, assignment s' !! k = Some n → n ≠ gone) as Hother.
    { intros k n Hk ->.
      destruct (located_owner_live s' k gone Hwf' Hloc' Hk) as [q Hq].
      congruence. }
    split; [|intros k Hk; by apply (Hother k gone)].
    intros k Hk.
    assert (k ∈ dom (assignment s')) as [n Hn]%elem_of_dom.
    { rewrite (assignment_dom s' Hwf').
      rewrite (SetCollectors_live_targets_dom s _ _ _ _ _ Hwf (proj1 Ho2) Hrun).
      rewrite <-(assignment_dom s Hwf). apply elem_of_dom. eauto. }
    exists n. split; [done|]. split; [by eapply Hother|].
    by eapply located_owner_live.
Qed.

(** C9, as amended.  After a [SetCollectors] call with a non-empty input
    whose diff against the live collectors is non-empty, the live targets
    are those of before, each is an item made during the call, and each is
    owned by the collector the ring, with its updated members, locates
    for its hash. *)
Theorem SetCollectors_reassigns_all s order1 order2 order3 cs s' :
  reachable s →
  is_order order1 (diff.removals (diff.Maps (live_collectors s) cs)) →
  is_order order2 (diff.additions (diff.Maps (live_collectors s) cs)) →
  is_order order3 (live_targets s) →
  cs ≠ ∅ →
  has_changes (diff.Maps (live_collectors s) cs) = true →
  SetCollectors order1 order2 order3 cs s = Some (tt, s') →
  dom (live_targets s') = dom (live_targets s) ∧
  ∀ k p, live_targets s' !! k = Some p →
    length (targetObjs s) ≤ p ∧
    ∃ t, targetObjs s' !! p = Some t ∧ Hash t = k ∧
         ring_owner s' (Hash t) = Some (CollectorName t).
Proof.
  intros Hreach Ho1 Ho2 Ho3 Hne Hchanges Hrun.
  pose proof (run_invariant _ _ _ Hreach) as [Hwf Hloc].
  split; [by eapply SetCollectors_live_targets_dom; [|apply Ho2|]|].
  apply SetCollectors_inv in Hrun
    as [[-> _]|[(_ & Hno & _)|(_ & _ & s1 & s2 & s3 & Hclr & Hins & Hrea & ->)]];
    [done|congruence| |done|apply Ho2].
  assert (is_order order3 (live_targets s2)) as Ho3'.
  { by rewrite (inserting_live_targets _ _ _ _ Hins),
      (clearing_live_targets _ _ _ _ Hclr). }
  destruct (reallocating_located s2 order3 s3 Ho3' Hrea) as [Hloc3 Hfresh].
  intros k p Hp. change (live_targets s3 !! k = Some p) in Hp. split.
  - pose proof (clr_targetObjs _ _ _ _ Hclr) as Hobjs1.
    pose proof (ins_targetObjs _ _ _ _ Hins) as Hobjs2.
    simpl in Hobjs1. rewrite <-Hobjs1, <-Hobjs2. by eapply Hfresh.
  - destruct (wf_targets s3 (rea_wf _ _ _ Hrea) _ _ Hp) as (t & Ht & Hk).
    exists t. split; [done|]. split; [done|]. rewrite Hk.
    by apply (Hloc3 k p t).
Qed.

(** C10.  Whenever a public operation, called in a reachable state, comes
    to call [addTargetToTargetItems], a collector is live and the ring has
    a member. *)
Theorem addTargetToTargetItems_has_collector s target s' :
  reachable s →
  enters_addTargetToTargetItems s target s' →
  live_collectors s' ≠ ∅ ∧ consistentHasher s' ≠ ∅.
Proof.
  intros Hreach Henters.
  pose proof (run_invariant _ _ _ Hreach) as [Hwf Hloc].
  assert (well_formed s' ∧ live_collectors s' ≠ ∅) as [Hwf' Hlive].
  { destruct Henters
      as [o1 o2 targets s1 k Ho1 Ho2 Hsize Hch Hrem Hit Hadd Hfresh
         |o1 o2 o3 cs s0 s1 s2 k Ho1 Ho2 Ho3 Hemit Hsize Hch Hclr Hins Hit Hk].
    - apply Nat.eqb_neq, map_size_non_empty_iff in Hsize.
      apply removeTargets_inv in Hrem; [|done].
      set (d := diff.Maps (live_targets s) targets) in *.
      assert (∃ done rest, o2 = done ++ k :: rest ∧ adding s1 d done s')
        as (done & rest & _ & Hadding).
      { eapply (iteration_inv (adding s1 d)); [| |exact Hit].
        - intros done a rest sa sb _ HI Hbody. by eapply adding_step.
        - apply (addTargets_inv s1 [] d s1); [apply (rem_wf _ _ _ _ Hrem)|done]. }
      split; [apply (add_wf _ _ _ _ Hadding)|].
      by rewrite (add_collectors _ _ _ _ Hadding),
        (rem_collectors _ _ _ _ Hrem).
    - apply Nat.eqb_neq, map_size_non_empty_iff in Hsize.
      rewrite emit_run in Hemit. injection Hemit as <-.
      apply clearCollectors_inv in Hclr;
        [|by apply ->well_formed_set_events|by intros k' p [??]%removals_Some].
      apply insertCollectors_inv in Hins;
        [|apply (clr_wf _ _ _ _ Hclr)|apply Ho2].
      assert (∃ done rest, o3 = done ++ k :: rest ∧ reallocating s2 done s')
        as (done & rest & _ & Hrea).
      { eapply (iteration_inv (reallocating s2)); [| |exact Hit].
        - intros done a rest sa sb _ HI Hbody. by eapply reallocating_step.
        - apply (reallocateTargets_inv s2 [] s2);
            [apply (ins_wf _ _ _ _ Hins)|done]. }
      split; [apply (rea_wf _ _ _ Hrea)|].
      rewrite (rea_collectors _ _ _ Hrea).
      by refine (inserting_collectors_non_empty s cs o1 o2 (set_events _ s)
                   s1 s2 _ Ho2 Hsize Hclr Hins). }
  split; [done|]. intros Hempty. apply Hlive.
  apply dom_empty_iff_L. by rewrite <-(wf_ring_dom s' Hwf'), Hempty, dom_empty_L.
Qed.

(** C3.  When the live collector map is empty, [SetTargets] returns, and
    all it has done is to log the condition and to observe its duration:
    the targetItems map, every object and every count are as they were,
    and a [TargetItems()] call returns what it returned before. *)
Theorem SetTargets_without_collectors s order1 order2 targets :
  collectorMaps s !! collectors s = Some ∅ →
  ∃ s',
    SetTargets order1 order2 targets s = Some (tt, s') ∧
    s' = set_events
           (events s ++
              [Log_Info "No collector instances present, cannot set targets";
               TimeToAssign_Observe "SetTargets" consistentHashingStrategyName])
           s ∧
    live_targets s' = live_targets s ∧
    targetObjs s' = targetObjs s ∧
    collectorObjs s' = collectorObjs s ∧
    ∀ order, TargetItems_contents order s' = TargetItems_contents order s.
Proof.
  intros Hcs. eexists. split; [by apply SetTargets_no_collectors|].
  split.
  { unfold observed, set_events. simpl. by rewrite <-app_assoc. }
  split; [done|]. split; [done|]. split; [done|].
  intros order. unfold observed.
  by rewrite !TargetItems_contents_set_events.
Qed.

(** C4, as amended.  [addTargetToTargetItems] decrements the count of the
    previous owner of the target when that collector is still in the live
    map, and does so before it counts the target for the new owner: the
    gauge of the previous owner is set first, to its count less one.  When
    the previous owner is no longer in the live map no count is
    decremented: the only object written is that of the new owner. *)
Theorem addTargetToTargetItems_releases_live_owner s target t s' :
  well_formed s →
  targetObjs s !! target = Some t →
  addTargetToTargetItems target s = Some (tt, s') →
  ∃ owner po,
    ring_owner s (Hash t) = Some owner ∧
    live_collectors s !! owner = Some po ∧
    match live_collectors s !! CollectorName t with
    | Some prev =>
        collectorObjs s'
        = alter incr_NumTargets po
            (alter decr_NumTargets prev (collectorObjs s)) ∧
        events s'
        = events s ++
          [TargetsPerCollector_Set (CollectorName t)
             consistentHashingStrategyName (int_decr (NumTargets_at s prev));
           TargetsPerCollector_Set owner consistentHashingStrategyName
             (NumTargets_at s' po)]
    | None =>
        collectorObjs s' = alter incr_NumTargets po (collectorObjs s) ∧
        events s'
        = events s ++
          [TargetsPerCollector_Set owner consistentHashingStrategyName
             (NumTargets_at s' po)]
    end.
Proof.
  intros Hwf Ht Hrun.
  apply addTargetToTargetItems_inv in Hrun
    as (t' & owner & q & po & Ht' & Hloc & Hq & Hpo & ->); [|done].
  assert (t' = t) as -> by congruence.
  exists owner, po. split; [by eapply ring_owner_located|].
  split; [done|].
  unfold assigned, released_objs, released_events, NumTargets_at. simpl.
  by destruct (live_collectors s !! CollectorName t).
Qed.

(** C5, as amended.  A [SetCollectors] call with a non-empty map whose
    keys are the names of its collectors leaves the live collector map
    and the hash ring with exactly the keys of the argument, each live
    entry pointing to a collector of that name.  A call with an empty map
    removes nothing: the live map and the ring are as they were. *)
Theorem SetCollectors_replaces_collectors s order1 order2 order3 cs s' :
  reachable s →
  keyed_by_name s cs →
  is_order order1 (diff.removals (diff.Maps (live_collectors s) cs)) →
  is_order order2 (diff.additions (diff.Maps (live_collectors s) cs)) →
  is_order order3 (live_targets s) →
  SetCollectors order1 order2 order3 cs s = Some (tt, s') →
  (cs ≠ ∅ →
     dom (live_collectors s') = dom cs ∧
     dom (consistentHasher s') = dom cs ∧
     ∀ n p, live_collectors s' !! n = Some p →
       ∃ c, collectorObjs s' !! p = Some c ∧ Name c = n) ∧
  (cs = ∅ →
     live_collectors s' = live_collectors s ∧
     consistentHasher s' = consistentHasher s).
Proof.
  intros Hreach Hkeyed Ho1 [Hnd2 Ho2] Ho3 Hrun.
  pose proof (reachable_well_formed s Hreach) as Hwf.
  pose proof (reachable_located s Hreach) as Hloc.
  destruct (SetCollectors_invariant _ _ _ _ _ _ Hwf Hloc Hnd2 Ho3 Hrun)
    as [Hwf' _].
  assert (dom (live_collectors s') = dom cs →
          dom (live_collectors s') = dom cs ∧
          dom (consistentHasher s') = dom cs ∧
          ∀ n p, live_collectors s' !! n = Some p →
            ∃ c, collectorObjs s' !! p = Some c ∧ Name c = n) as Hdom.
  { intros Hd. split; [done|]. split; [by rewrite (wf_ring_dom _ Hwf')|].
    apply (wf_collectors _ Hwf'). }
  apply SetCollectors_inv in Hrun
    as [[Hnone ->]|[(Hsome & Hno & ->)|(Hsome & _ & s1 & s2 & s3 & Hclr & Hins
                                         & Hrea & ->)]]; [| | |done..].
  - done.
  - split; [|done]. intros _. apply Hdom. by apply no_changes_dom.
  - split; [|done]. intros _. apply Hdom.
    change (dom (live_collectors s3) = dom cs).
    rewrite (rea_collectors _ _ _ Hrea).
    assert (∀ k p,
      diff.additions (diff.Maps (live_collectors s) cs) !! k = Some p →
      ∃ c, collectorObjs s1 !! p = Some c ∧ Name c = k) as Hnames.
    { intros k p [Hin _]%additions_Some.
      rewrite (clr_collectorObjs _ _ _ _ Hclr).
      by apply (keyed_by_name_lookup s cs). }
    rewrite (ins_dom _ _ _ _ Hins); [|intros k p Hk; by destruct (Hnames k p Hk)
      as (c & -> & _)].
    rewrite (added_names_keyed _ _ _ Hnames), Ho2, dom_additions.
    rewrite (clearing_dom (set_events _ s) (live_collectors s) cs order1 s1
               eq_refl Ho1 Hclr).
    apply set_eq. intros k.
    destruct (decide (k ∈ dom (live_collectors s))); set_solver.
Qed.

(** C6, as amended.  After a [SetTargets] call with a map keyed by the
    hashes of its targets, a second call with the same map finds nothing
    to add and nothing to remove, and changes no map, no object and no
    count.  It is not without effect on the metrics: its duration is
    observed (and, when no collector is live, the condition is logged),
    which is all that it does. *)
Theorem SetTargets_twice s order1 order2 targets s1 order1' order2' :
  reachable s →
  keyed_by_hash s targets →
  is_order order1 (live_targets s) →
  is_order order2 (diff.additions (diff.Maps (live_targets s) targets)) →
  SetTargets order1 order2 targets s = Some (tt, s1) →
  (live_collectors s1 ≠ ∅ →
     has_changes (diff.Maps (live_targets s1) targets) = false ∧
     SetTargets order1' order2' targets s1
     = Some (tt, observed "SetTargets" s1)) ∧
  (live_collectors s1 = ∅ →
     SetTargets order1' order2' targets s1
     = Some (tt, observed "SetTargets"
                   (set_events
                      (events s1 ++
                         [Log_Info
                            "No collector instances present, cannot set targets"])
                      s1))).
Proof.
  intros Hreach Hkeyed Ho1 Ho2 Hrun.
  pose proof (reachable_well_formed s Hreach) as Hwf.
  pose proof (reachable_located s Hreach) as Hloc.
  destruct (SetTargets_invariant _ _ _ _ _ Hwf Hloc Hrun) as [Hwf1 _].
  destruct (SetTargets_live _ _ _ _ _ Hwf Hkeyed Ho1 Ho2 Hrun)
    as (Hcs & Hdom & _).
  split.
  - intros Hlive.
    assert (has_changes (diff.Maps (live_targets s1) targets) = false) as Hno.
    { apply no_changes_dom, Hdom. by rewrite <-Hcs. }
    split; [done|]. by apply SetTargets_no_changes.
  - intros Hnone. apply SetTargets_no_collectors.
    destruct (wf_collectors_ref _ Hwf1) as [m Hm].
    unfold live_collectors in Hnone. rewrite Hm in Hnone. simpl in Hnone.
    by rewrite Hm, Hnone.
Qed.

(** C8, as amended.  Two runs of the same [SetTargets] and
    [SetCollectors] calls from the initial state, with the same inputs,
    end with the same assignment of collectors to target hashes, whatever
    the order of each loop of each run: provided the target maps are keyed
    by the hashes of their targets (and no collector pointer is nil). *)
Theorem same_calls_same_assignment s1 s2 :
  same_calls keyed_by_hash non_nil s1 s2 →
  assignment s1 = assignment s2.
Proof.
  intros (Hr1 & Hr2 & Ht & Hc)%same_calls_keys.
  apply assignment_determined;
    auto using reachable_well_formed, reachable_located.
Qed.

(** C7, as amended.  The map [TargetItems()] returns is a new map, not the
    allocator's, with the entries of the live targetItems map; whatever
    the caller then writes into that map, the allocator's maps, objects,
    ring and events are as without the write, and so are the results and
    the effects of every sequence of calls made afterwards.  The same
    holds of [Collectors()].  The entries are pointers to the allocator's
    own objects: nothing is claimed for writes through them. *)
Theorem snapshot_map_is_a_copy s :
  reachable s →
  (∀ order r s1 m',
     is_order order (live_targets s) →
     TargetItems order s = Some (r, s1) →
     r ≠ targetItems s1 ∧
     targetMaps s1 !! r = Some (live_targets s) ∧
     ∃ s2, write_targetMap r m' s1 = Some (tt, s2) ∧
           agree (collectors s) (targetItems s) s1 s2 ∧
           ∀ calls, related (collectors s) (targetItems s)
                      (run_calls calls s1) (run_calls calls s2)) ∧
  (∀ order r s1 m',
     is_order order (live_collectors s) →
     Collectors order s = Some (r, s1) →
     r ≠ collectors s1 ∧
     collectorMaps s1 !! r = Some (live_collectors s) ∧
     ∃ s2, write_collectorMap r m' s1 = Some (tt, s2) ∧
           agree (collectors s) (targetItems s) s1 s2 ∧
           ∀ calls, related (collectors s) (targetItems s)
                      (run_calls calls s1) (run_calls calls s2)).
Proof.
  intros Hwf%reachable_well_formed. split.
  - intros order r s1 m' [_ Ho] Hrun.
    rewrite TargetItems_run in Hrun by done. injection Hrun as <- <-.
    pose proof (wf_targets_ref _ Hwf) as Hlt. apply lookup_lt_is_Some in Hlt.
    split; [simpl; lia|].
    split.
    { simpl. rewrite lookup_app_r, Nat.sub_diag by done. simpl.
      by rewrite copy_of_order. }
    eexists. split.
    { eapply write_targetMap_run. simpl.
      by rewrite lookup_app_r, Nat.sub_diag. }
    assert (agree (collectors s) (targetItems s)
      (set_targetMaps (targetMaps s ++ [copy_of (live_targets s) order ∅]) s)
      (set_targetMaps
         (<[length (targetMaps s) := m']>
            (targetMaps s ++ [copy_of (live_targets s) order ∅]))
         (set_targetMaps
            (targetMaps s ++ [copy_of (live_targets s) order ∅]) s)))
      as Hag.
    { split; simpl; try done.
      - by rewrite length_insert.
      - rewrite list_lookup_insert_ne by lia. done. }
    split; [done|]. intros calls. by apply sim_run_calls.
  - intros order r s1 m' [_ Ho] Hrun.
    rewrite Collectors_run in Hrun by done. injection Hrun as <- <-.
    pose proof (wf_collectors_ref _ Hwf) as Hlt.
    apply lookup_lt_is_Some in Hlt.
    split; [simpl; lia|].
    split.
    { simpl. rewrite lookup_app_r, Nat.sub_diag by done. simpl.
      by rewrite copy_of_order. }
    eexists. split.
    { eapply write_collectorMap_run. simpl.
      by rewrite lookup_app_r, Nat.sub_diag. }
    assert (agree (collectors s) (targetItems s)
      (set_collectorMaps
         (collectorMaps s ++ [copy_of (live_collectors s) order ∅]) s)
      (set_collectorMaps
         (<[length (collectorMaps s) := m']>
            (collectorMaps s ++ [copy_of (live_collectors s) order ∅]))
         (set_collectorMaps
            (collectorMaps s ++ [copy_of (live_collectors s) order ∅]) s)))
      as Hag.
    { split; simpl; try done.
      - by rewrite length_insert.
      - rewrite list_lookup_insert_ne by lia. done. }
    split; [done|]. intros calls. by apply sim_run_calls.
Qed.

End Claims.

(** * What else the code shows *)

Section Extras.
Context `{Env}.
Implicit Types (s : state) (p q r : ptr) (c : Collector) (t : TargetItem).
Implicit Types (m cs ts : gmap string ptr) (k n key name : string).

(** X1.  After a [SetTargets] call made while a collector is live, with a
    map keyed by the hashes of its targets, the live targetItems map has
    exactly the keys of the argument. *)
Theorem SetTargets_replaces_targets s order1 order2 targets s' :
  reachable s →
  keyed_by_hash s targets →
  live_collectors s ≠ ∅ →
  is_order order1 (live_targets s) →
  is_order order2 (diff.additions (diff.Maps (live_targets s) targets)) →
  SetTargets order1 order2 targets s = Some (tt, s') →
  dom (live_targets s') = dom targets.
Proof.
  intros Hr Hkeyed Hlive Ho1 Ho2 Hrun.
  destruct (SetTargets_live _ _ _ _ _ (reachable_well_formed _ Hr) Hkeyed
              Ho1 Ho2 Hrun) as (_ & Hsome & _).
  by apply Hsome.
Qed.

(** X2.  [SetTargets] leaves the collectors alone: whatever its argument,
    the live collector map and the ring are after the call what they were
    before. *)
Theorem SetTargets_keeps_collectors s order1 order2 targets s' :
  reachable s →
  SetTargets order1 order2 targets s = Some (tt, s') →
  live_collectors s' = live_collectors s ∧
  consistentHasher s' = consistentHasher s.
Proof.
  intros Hwf%reachable_well_formed Hrun.
  apply SetTargets_inv in Hrun
    as [[_ ->]|[(_ & _ & ->)|(_ & _ & s1 & s2 & Hrem & Hadd & ->)]];
    [done|done| |done].
  split.
  - change (live_collectors s2 = live_collectors s).
    by rewrite (add_collectors _ _ _ _ Hadd), (rem_collectors _ _ _ _ Hrem).
  - change (consistentHasher s2 = consistentHasher s).
    by rewrite (add_ring _ _ _ _ Hadd), (rem_ring _ _ _ _ Hrem).
Qed.

(** X4.  [SetCollectors] neither adds nor drops a target: whatever its
    argument, the live targetItems map has after the call the keys it had
    before. *)
Theorem SetCollectors_keeps_target_keys s order1 order2 order3 cs s' :
  reachable s →
  is_order order2 (diff.additions (diff.Maps (live_collectors s) cs)) →
  SetCollectors order1 order2 order3 cs s = Some (tt, s') →
  dom (live_targets s') = dom (live_targets s).
Proof.
  intros Hwf%reachable_well_formed [Hnd _] Hrun.
  by eapply SetCollectors_live_targets_dom.
Qed.

(** X6.  Whatever keys the callers use, the allocator's own maps are keyed
    by what they hold: in every reachable state a live collector is found
    under its name, a live target under its hash, and the members of the
    ring are the live collectors. *)
Theorem allocator_maps_are_keyed s :
  reachable s →
  (∀ n p, live_collectors s !! n = Some p →
     ∃ c, collectorObjs s !! p = Some c ∧ Name c = n) ∧
  (∀ k p, live_targets s !! k = Some p →
     ∃ t, targetObjs s !! p = Some t ∧ Hash t = k) ∧
  dom (consistentHasher s) = dom (live_collectors s).
Proof.
  intros Hwf%reachable_well_formed.
  split; [apply (wf_collectors _ Hwf)|].
  split; [apply (wf_targets _ Hwf)|apply (wf_ring_dom _ Hwf)].
Qed.

(** X7.  In every reachable state every live target has the link of its
    job, [/jobs/<escaped job name>/targets], whatever link the target
    passed by the caller had. *)
Theorem live_targets_are_linked s :
  reachable s →
  ∀ k p t, live_targets s !! k = Some p → targetObjs s !! p = Some t →
    Link t = "/jobs/" +:+ QueryEscape (JobName t) +:+ "/targets".
Proof.
  revert s. apply (reachable_elementary_ind linked).
  - intros k p t Hk.
    change (live_targets newConsistentHashingAllocator)
      with (∅ : gmap string nat) in Hk.
    by rewrite lookup_empty in Hk.
  - apply linked_elementary.
  - apply linked_idle.
Qed.

(** X3.  [SetTargets] does not move a target it has already: a key that is
    in the live targetItems map and in the argument (a map keyed by hash)
    has after the call the item, and so the collector, it had before. *)
Theorem SetTargets_keeps_present_targets s order1 order2 targets s' k p :
  reachable s →
  keyed_by_hash s targets →
  SetTargets order1 order2 targets s = Some (tt, s') →
  live_targets s !! k = Some p →
  is_Some (targets !! k) →
  live_targets s' !! k = Some p ∧ assignment s' !! k = assignment s !! k.
Proof.
  intros Hr Hkeyed Hrun Hk [q Hq].
  pose proof (reachable_well_formed _ Hr) as Hwf.
  destruct (SetTargets_invariant _ _ _ _ _ Hwf (reachable_located _ Hr) Hrun)
    as [Hwf' _].
  pose proof (elementary_steps_grow _ _ (SetTargets_steps _ _ _ _ _ Hwf Hrun))
    as Hgrows.
  assert (live_targets s' !! k = Some p) as Hk'.
  { apply SetTargets_runs in Hrun
      as [[_ ->]|[(_ & _ & ->)|(_ & _ & s1 & s2 & Hrem & Hadd & ->)]];
      [done|done| |done].
    change (live_targets s2 !! k = Some p).
    apply removeTargets_inv in Hrem as Hrem'; [|done].
    eapply addTargets_keeps; [apply (rem_wf _ _ _ _ Hrem')| |done|].
    - intros k' p' [Hin _]%additions_Some.
      rewrite (rem_targetObjs _ _ _ _ Hrem').
      by apply (keyed_by_hash_lookup s targets).
    - rewrite (rem_targets _ _ _ _ Hrem'), decide_False; [done|].
      intros [_ [x Hx]]. apply removals_Some in Hx as [_ Hx]. congruence. }
  split; [done|].
  destruct (assignment_lookup _ _ _ Hwf Hk) as (t & Ht & _ & ->).
  destruct (assignment_lookup _ _ _ Hwf' Hk') as (t' & Ht' & _ & ->).
  pose proof (prefix_lookup_Some _ _ _ _ Ht (grows_targetObjs _ _ Hgrows)).
  congruence.
Qed.

(** X5.  [SetCollectors] looks at names only: called with a non-empty map
    that has the keys of the live collector map, it returns, and all it
    has done is to set the gauge of allocatable collectors and to observe
    its duration, whatever collectors the map holds under those keys. *)
Theorem SetCollectors_same_names_changes_nothing s order1 order2 order3 cs :
  reachable s →
  cs ≠ ∅ →
  dom cs = dom (live_collectors s) →
  SetCollectors order1 order2 order3 cs s
  = Some (tt,
      set_events
        (events s ++
           [CollectorsAllocatable_Set consistentHashingStrategyName
              (Z.of_nat (size cs));
            TimeToAssign_Observe "SetCollectors"
              consistentHashingStrategyName]) s).
Proof.
  intros Hwf%reachable_well_formed Hsome Hdom.
  rewrite SetCollectors_same_names by done.
  unfold observed, set_events. simpl. by rewrite <-app_assoc.
Qed.

(** X8.  No call writes a [TargetItem], and none renames a [Collector]:
    from a reachable state on, through every sequence of calls, the target
    objects that exist stay as they are (the caller's among them: the
    owner is recorded in an item of the allocator's own), and a collector
    object keeps its name. *)
Theorem objects_are_kept s s' :
  reachable s →
  rtc (step any_input any_input) s s' →
  (∀ p t, targetObjs s !! p = Some t → targetObjs s' !! p = Some t) ∧
  (∀ p c, collectorObjs s !! p = Some c →
     ∃ c', collectorObjs s' !! p = Some c' ∧ Name c' = Name c).
Proof.
  intros Hr Hsteps. pose proof (steps_grow _ _ Hr Hsteps) as Hgrows.
  split; [|apply (grows_collectorObjs _ _ Hgrows)].
  intros p t Ht. by eapply prefix_lookup_Some, (grows_targetObjs _ _ Hgrows).
Qed.

(** X9.  A snapshot stays as it was taken: the map [TargetItems()] has
    returned holds, after every sequence of later calls, the entries the
    live targetItems map had at the time of the call; and so for
    [Collectors()]. *)
Theorem snapshots_are_stable s :
  reachable s →
  (∀ order r s1 s',
     is_order order (live_targets s) →
     TargetItems order s = Some (r, s1) →
     rtc (step any_input any_input) s1 s' →
     targetMaps s' !! r = Some (live_targets s)) ∧
  (∀ order r s1 s',
     is_order order (live_collectors s) →
     Collectors order s = Some (r, s1) →
     rtc (step any_input any_input) s1 s' →
     collectorMaps s' !! r = Some (live_collectors s)).
Proof.
  intros Hr. pose proof (reachable_well_formed _ Hr) as Hwf. split.
  - intros order r s1 s' Ho Hrun Hsteps.
    assert (reachable s1) as Hr1.
    { eapply rtc_r; [done|]. apply step_idle. by eapply idle_TargetItems. }
    pose proof (steps_grow _ _ Hr1 Hsteps) as Hgrows.
    rewrite TargetItems_run in Hrun by done. injection Hrun as <- <-.
    apply (grows_targetMaps _ _ Hgrows).
    + pose proof (wf_targets_ref _ Hwf) as Hlt.
      apply lookup_lt_is_Some in Hlt. simpl. lia.
    + simpl. rewrite lookup_app_r, Nat.sub_diag by done. simpl.
      rewrite copy_of_order; [done|apply Ho].
  - intros order r s1 s' Ho Hrun Hsteps.
    assert (reachable s1) as Hr1.
    { eapply rtc_r; [done|]. apply step_idle. by eapply idle_Collectors. }
    pose proof (steps_grow _ _ Hr1 Hsteps) as Hgrows.
    rewrite Collectors_run in Hrun by done. injection Hrun as <- <-.
    apply (grows_collectorMaps _ _ Hgrows).
    + pose proof (wf_collectors_ref _ Hwf) as Hlt.
      apply lookup_lt_is_Some in Hlt. simpl. lia.
    + simpl. rewrite lookup_app_r, Nat.sub_diag by done. simpl.
      rewrite copy_of_order; [done|apply Ho].
Qed.

(** X10.  The trace of metrics and log lines is only ever extended, and
    every call that returns reports itself: [SetTargets] ends with the
    observation of its duration; [SetCollectors] begins by setting the
    gauge of allocatable collectors to the size of its argument, empty or
    not, and ends with the observation of its duration. *)
Theorem calls_report s s' :
  reachable s →
  (∀ order1 order2 targets,
     SetTargets order1 order2 targets s = Some (tt, s') →
     ∃ mid, events s'
            = events s ++ mid ++
              [TimeToAssign_Observe "SetTargets"
                 consistentHashingStrategyName]) ∧
  (∀ order1 order2 order3 cs,
     SetCollectors order1 order2 order3 cs s = Some (tt, s') →
     ∃ mid, events s'
            = events s ++
              [CollectorsAllocatable_Set consistentHashingStrategyName
                 (Z.of_nat (size cs))] ++ mid ++
              [TimeToAssign_Observe "SetCollectors"
                 consistentHashingStrategyName]).
Proof.
  intros Hwf%reachable_well_formed. split.
  - intros order1 order2 targets Hrun.
    apply SetTargets_shape in Hrun as (s2 & Hsteps & ->); [|done].
    destruct (grows_events _ _ (elementary_steps_grow _ _ Hsteps))
      as [mid Hmid].
    exists mid. simpl. by rewrite Hmid, <-app_assoc.
  - intros order1 order2 order3 cs Hrun.
    apply SetCollectors_shape in Hrun as (s4 & Hsteps & ->); [|done].
    destruct (grows_events _ _ (elementary_steps_grow _ _ Hsteps))
      as [mid Hmid].
    exists mid. simpl. rewrite Hmid. simpl. by rewrite <-!app_assoc.
Qed.

(** X11.  Within the contract of the interface every live collector counts
    its own targets: in every state so reached, with fewer than 2^63 live
    targets, the [NumTargets] of a live collector is the number of live
    targets whose [CollectorName] is its name. *)
Theorem counts_are_exact s n p :
  reachable_in_contract s →
  (Z.of_nat (size (live_targets s)) < 2 ^ 63)%Z →
  live_collectors s !! n = Some p →
  NumTargets_at s p = Z.of_nat (owned_count s n).
Proof.
  intros Hreach Hsize Hp.
  pose proof (reachable_in_contract_counts s Hreach) as Hcnt.
  apply reachable_in_contract_reachable in Hreach as [Hwf Hloc].
  destruct (wf_collectors s Hwf _ _ Hp) as (c & Hc & _).
  unfold NumTargets_at. rewrite Hc. simpl. rewrite (Hcnt n p c Hp Hc).
  apply int_wrap_small. pose proof (owned_count_le s n).
  rewrite (size_assignment s Hwf) in *. lia.
Qed.



(** X14.  The gauge of targets per collector tells the truth: in every
    state reached by calls whose collector maps are keyed by name, the
    value last set on the gauge of a live collector is its [NumTargets],
    and the gauge of a name that is not live reads 0 (it was never set, or
    was set to 0 when the collector was removed). *)
Theorem gauges_agree_with_counts s n :
  reachable_by_name s →
  gauge (events s) n
  = match live_collectors s !! n with
    | Some p => NumTargets_at s p
    | None => 0%Z
    end.
Proof. intros [_ Hg]%reachable_by_name_gauges. apply Hg. Qed.

(** X15.  The accessors only read: in every reachable state
    [TargetItems()] and [Collectors()] return, and leave the trace, the
    objects, the ring and the two maps of the allocator as they are. *)
Theorem accessors_only_read s order :
  reachable s →
  (∃ r s1, TargetItems order s = Some (r, s1) ∧
     events s1 = events s ∧ collectorObjs s1 = collectorObjs s ∧
     targetObjs s1 = targetObjs s ∧ consistentHasher s1 = consistentHasher s ∧
     live_collectors s1 = live_collectors s ∧
     live_targets s1 = live_targets s) ∧
  (∃ r s1, Collectors order s = Some (r, s1) ∧
     events s1 = events s ∧ collectorObjs s1 = collectorObjs s ∧
     targetObjs s1 = targetObjs s ∧ consistentHasher s1 = consistentHasher s ∧
     live_collectors s1 = live_collectors s ∧
     live_targets s1 = live_targets s).
Proof.
  intros Hwf%reachable_well_formed. split.
  - eexists _, _. split; [by apply TargetItems_run|].
    repeat split. unfold live_targets. simpl.
    rewrite lookup_app_l; [done|].
    apply lookup_lt_is_Some, (wf_targets_ref _ Hwf).
  - eexists _, _. split; [by apply Collectors_run|].
    repeat split. unfold live_collectors. simpl.
    rewrite lookup_app_l; [done|].
    apply lookup_lt_is_Some, (wf_collectors_ref _ Hwf).
Qed.

(** X16.  [SetCollectors] twice: after a call with a non-empty map keyed
    by name, a second call with the same map returns, and all it does is
    to set the gauge of allocatable collectors and to observe its
    duration. *)
Theorem SetCollectors_twice s order1 order2 order3 cs s1
    order1' order2' order3' :
  reachable s →
  keyed_by_name s cs →
  cs ≠ ∅ →
  is_order order1 (diff.removals (diff.Maps (live_collectors s) cs)) →
  is_order order2 (diff.additions (diff.Maps (live_collectors s) cs)) →
  is_order order3 (live_targets s) →
  SetCollectors order1 order2 order3 cs s = Some (tt, s1) →
  SetCollectors order1' order2' order3' cs s1
  = Some (tt,
      set_events
        (events s1 ++
           [CollectorsAllocatable_Set consistentHashingStrategyName
              (Z.of_nat (size cs));
            TimeToAssign_Observe "SetCollectors"
              consistentHashingStrategyName]) s1).
Proof.
  intros Hr Hkeyed Hsome Ho1 Ho2 Ho3 Hrun.
  pose proof (reachable_well_formed _ Hr) as Hwf.
  destruct (SetCollectors_invariant _ _ _ _ _ _ Hwf (reachable_located _ Hr)
              (proj1 Ho2) Ho3 Hrun) as [Hwf1 _].
  destruct (SetCollectors_live_collectors _ _ _ _ _ _ Hwf
              (keyed_by_name_non_nil _ _ Hkeyed) Ho1 Ho2 Hrun) as [_ Hdom].
  rewrite SetCollectors_same_names; [|done|done|].
  { unfold observed, set_events. simpl. by rewrite <-app_assoc. }
  apply set_eq. intros x. rewrite (Hdom Hsome x). split.
  - intros Hx. destruct (decide (x ∈ dom (live_collectors s))); [by left|].
    right. apply elem_of_dom in Hx as [p Hp].
    destruct (keyed_by_name_lookup _ _ _ _ Hkeyed Hp) as (c & Hc & Hn).
    exists x, p, c. split; [done|]. split; [by apply not_elem_of_dom|done].
  - intros [[_ ?]|(k & p & c & Hk & _ & Hc & <-)]; [done|].
    destruct (keyed_by_name_lookup _ _ _ _ Hkeyed Hk) as (c' & Hc' & <-).
    assert (c' = c) as -> by congruence. apply elem_of_dom. eauto.
Qed.

(** X17.  What the comment on [addTargetToTargetItems] demands: called
    while no collector is live, in a reachable state, it panics (the ring
    has no owner for the target, and the name of none is asked for). *)
Theorem addTargetToTargetItems_panics_without_collectors s target :
  reachable s →
  live_collectors s = ∅ →
  addTargetToTargetItems target s = None.
Proof.
  intros Hwf%reachable_well_formed Hnone.
  destruct (addTargetToTargetItems target s) as [[[] s']|] eqn:Hrun; [|done].
  apply addTargetToTargetItems_inv in Hrun
    as (t & owner & q & po & _ & _ & _ & Hpo & _); [|done].
  by rewrite Hnone, lookup_empty in Hpo.
Qed.

End Extras.

(** * The claims on a run *)

Section Witnesses.
#[local] Existing Instance example_env.
#[local] Existing Instance Collector_eq_dec.
#[local] Existing Instance event_eq_dec.
#[local] Existing Instance example_TargetItem_eq_dec.
#[local] Existing Instance example_state_eq_dec.

Ltac by_computation := apply (bool_decide_unpack _); vm_compute; exact I.

Ltac order_ok := split; by_computation.

Lemma world1_reachable : reachable_in_contract world1.
Proof.
  eapply rtc_l.
  { apply step_idle. by eapply (idle_new_Collector _ (mkCollector "A" 0) 0 world1a). }
  eapply rtc_l; [|apply rtc_refl].
  apply step_idle. by eapply (idle_new_Collector _ (mkCollector "B" 0) 1 world1).
Qed.

Lemma world2_reachable : reachable_in_contract world2.
Proof.
  eapply rtc_r; [apply world1_reachable|].
  eapply (step_SetCollectors _ _ _ [] ["A"] [] {[ "A" := 0 ]});
    [by_computation|order_ok..|by_computation].
Qed.

Lemma world3_reachable : reachable_in_contract world3.
Proof.
  eapply rtc_r; [eapply rtc_r; [apply world2_reachable|]|].
  - apply step_idle.
    by eapply (idle_new_TargetItem _ (example_target "a" "1" "") 0 world3a).
  - apply step_idle.
    by eapply (idle_new_TargetItem _ (example_target "b" "1" "") 1 world3).
Qed.

Lemma world4_reachable : reachable_in_contract world4.
Proof.
  eapply rtc_r; [apply world3_reachable|].
  eapply (step_SetTargets _ _ _ [] ["a1"; "b1"] {[ "a1" := 0; "b1" := 1 ]});
    [split; by_computation|order_ok..|by_computation].
Qed.

Lemma world5_reachable : reachable_in_contract world5.
Proof.
  eapply rtc_r; [apply world4_reachable|].
  eapply (step_SetCollectors _ _ _ [] ["B"] ["a1"; "b1"]
            {[ "A" := 0; "B" := 1 ]});
    [by_computation|order_ok..|by_computation].
Qed.

Lemma world6_reachable : reachable_in_contract world6.
Proof.
  eapply rtc_r; [apply world5_reachable|].
  eapply (step_SetCollectors _ _ _ ["A"] [] ["b1"; "a1"] {[ "B" := 1 ]});
    [by_computation|order_ok..|by_computation].
Qed.

(** C1 on the scenario of the specification: after A has left, B counts
    the two targets. *)
Lemma conservation_witness :
  sum_NumTargets world6 = 2%Z ∧ size (live_targets world6) = 2.
Proof.
  split; [|by_computation].
  rewrite (conservation world6 world6_reachable); by_computation.
Defined.


Lemma world3_reachable' : reachable world3.
Proof. apply reachable_in_contract_is_reachable, world3_reachable. Qed.

Lemma world4_reachable' : reachable world4.
Proof. apply reachable_in_contract_is_reachable, world4_reachable. Qed.

Lemma world5_reachable' : reachable world5.
Proof. apply reachable_in_contract_is_reachable, world5_reachable. Qed.

(** C1 fails outside the contract. *)
Lemma conservation_needs_contract :
  (reachable stray1 ∧
   sum_NumTargets stray1 ≠ Z.of_nat (size (live_targets stray1))) ∧
  (reachable stray2 ∧
   sum_NumTargets stray2 ≠ Z.of_nat (size (live_targets stray2))) ∧
  (reachable stray3 ∧
   sum_NumTargets stray3 ≠ Z.of_nat (size (live_targets stray3))).
Proof.
  split; [|split]; (split; [|by_computation]).
  - eapply rtc_r; [eapply rtc_r;
      [apply reachable_in_contract_is_reachable, world2_reachable|]|].
    + apply step_idle.
      by eapply (idle_new_TargetItem _ (example_target "a" "1" "A") 0 stray1a).
    + eapply (step_SetTargets _ _ _ [] ["a1"] {[ "a1" := 0 ]});
        [done|order_ok..|by_computation].
  - eapply rtc_r; [eapply rtc_r;
      [apply reachable_in_contract_is_reachable, world2_reachable|]|].
    + apply step_idle.
      by eapply (idle_new_TargetItem _ (example_target "a" "1" "") 0 world3a).
    + eapply (step_SetTargets _ _ _ [] ["x"; "y"] {[ "x" := 0; "y" := 0 ]});
        [done|order_ok..|by_computation].
  - eapply rtc_r; [apply world4_reachable'|].
    eapply (step_SetCollectors _ _ _ ["A"] ["x"] ["a1"; "b1"] {[ "x" := 0 ]});
      [done|order_ok..|by_computation].
Qed.

(** C2 on the last call of the scenario: when A has left, its targets
    are B's and none names A. *)
Lemma no_orphan_ownership_witness :
  (∀ k, assignment world5 !! k = Some "A" →
     ∃ n, assignment world6 !! k = Some n ∧ n ≠ "A" ∧
          is_Some (live_collectors world6 !! n)) ∧
  (∀ k, assignment world6 !! k ≠ Some "A").
Proof.
  destruct (no_orphan_ownership world5 world5_reachable') as [_ Hremoval].
  apply (Hremoval ["A"] [] ["b1"; "a1"] {[ "B" := 1 ]} world6 "A");
    [order_ok..|by_computation|by_computation|by_computation].
Defined.

(** C3 on a call made before any collector is known. *)
Lemma SetTargets_without_collectors_witness :
  ∃ s',
    SetTargets [] ["a1"] {[ "a1" := 0 ]} bare = Some (tt, s') ∧
    s' = set_events
           (events bare ++
              [Log_Info "No collector instances present, cannot set targets";
               TimeToAssign_Observe "SetTargets" consistentHashingStrategyName])
           bare ∧
    live_targets s' = live_targets bare ∧
    targetObjs s' = targetObjs bare ∧
    collectorObjs s' = collectorObjs bare ∧
    ∀ order, TargetItems_contents order s' = TargetItems_contents order bare.
Proof.
  apply (SetTargets_without_collectors bare [] ["a1"] {[ "a1" := 0 ]}).
  by_computation.
Defined.

Lemma departed_enters : enters_addTargetToTargetItems world5 4 departed.
Proof.
  pose (d := diff.Maps (live_collectors world5) {[ "B" := 1 ]}).
  pose (s0 := after (emit (CollectorsAllocatable_Set
                             consistentHashingStrategyName 1)) world5).
  pose (s1 := after (clearCollectors ["A"] d) s0).
  apply (enters_from_SetCollectors world5 4 departed ["A"] [] ["a1"; "b1"]
           {[ "B" := 1 ]} s0 s1 departed "a1");
    [order_ok..|by_computation|by_computation|by_computation|by_computation|by_computation| |by_computation].
  apply Mem.iteration_here.
Qed.

(** C4 on a1 in [world5]: its owner A is live, and is released first. *)
Lemma addTargetToTargetItems_releases_live_owner_witness :
  collectorObjs moved
  = alter incr_NumTargets 2 (alter decr_NumTargets 2 (collectorObjs world5)) ∧
  events moved
  = events world5 ++
    [TargetsPerCollector_Set "A" consistentHashingStrategyName
       (int_decr (NumTargets_at world5 2));
     TargetsPerCollector_Set "A" consistentHashingStrategyName
       (NumTargets_at moved 2)].
Proof.
  assert (targetObjs world5 !! 4 = Some (item_for (example_target "a" "1" "") "A"))
    as Ht by by_computation.
  destruct (addTargetToTargetItems_releases_live_owner world5 4 _ moved
              (reachable_well_formed _ world5_reachable') Ht)
    as (owner & po & Ho & Hpo & Hm); [by_computation|].
  assert (Some owner = Some "A") as [= ->] by (rewrite <-Ho; by_computation).
  assert (Some po = Some 2) as [= ->] by (rewrite <-Hpo; by_computation).
  assert (live_collectors world5
            !! CollectorName (item_for (example_target "a" "1" "") "A")
          = Some 2) as Hprev by by_computation.
  by rewrite Hprev in Hm.
Defined.

(** C4 as written fails: when [SetCollectors] has cleared A and comes to
    re-allocate a1, which A owned, the count of A is left as it is; the
    only object written is that of B, the new owner. *)
Lemma departed_owner_is_not_decremented :
  enters_addTargetToTargetItems world5 4 departed ∧
  CollectorName <$> targetObjs departed !! 4 = Some "A" ∧
  live_collectors departed !! "A" = None ∧
  collectorObjs departed !! 2 = Some (mkCollector "A" 1) ∧
  addTargetToTargetItems 4 departed = Some (tt, departed') ∧
  collectorObjs departed' !! 2 = Some (mkCollector "A" 1) ∧
  collectorObjs departed' = alter incr_NumTargets 3 (collectorObjs departed).
Proof. split; [apply departed_enters|]. repeat split; by_computation. Qed.

(** C10 on the same entry. *)
Lemma addTargetToTargetItems_has_collector_witness :
  live_collectors departed ≠ ∅ ∧ consistentHasher departed ≠ ∅.
Proof.
  apply (addTargetToTargetItems_has_collector world5 4 departed
           world5_reachable' departed_enters).
Defined.

(** C5 on the call that adds B. *)
Lemma SetCollectors_replaces_collectors_witness :
  dom (live_collectors world5) = {[ "A"; "B" ]} ∧
  dom (consistentHasher world5) = {[ "A"; "B" ]}.
Proof.
  destruct (SetCollectors_replaces_collectors world4 [] ["B"] ["a1"; "b1"]
              {[ "A" := 0; "B" := 1 ]} world5 world4_reachable')
    as [Hsome _]; [by_computation|order_ok..|by_computation|].
  destruct Hsome as (Hlive & Hring & _); [by_computation|].
  rewrite Hlive, Hring. split; by_computation.
Defined.

(** C5 as written fails for the empty map: A stays live, and in the ring.
    It fails as well for a map that holds A under another key: the live
    map has it under its name. *)
Lemma SetCollectors_empty_removes_nothing :
  reachable world4 ∧
  (SetCollectors ["A"] [] ["a1"; "b1"] ∅ world4 = Some (tt, emptied) ∧
   live_collectors emptied !! "A" = Some 2 ∧
   consistentHasher emptied !! "A" = Some 2 ∧
   dom (live_collectors emptied) ≠ dom (∅ : gmap string nat)) ∧
  (SetCollectors ["A"] ["x"] ["a1"; "b1"] {[ "x" := 0 ]} world4
   = Some (tt, stray3) ∧
   dom (live_collectors stray3) = {[ "A" ]} ∧
   dom (live_collectors stray3) ≠ dom ({[ "x" := 0 ]} : gmap string nat)).
Proof.
  split; [apply world4_reachable'|]. repeat split; by_computation.
Qed.

(** C6 on the call that led to [world4], made again. *)
Lemma SetTargets_twice_witness :
  has_changes
    (diff.Maps (live_targets world4) {[ "a1" := 0; "b1" := 1 ]}) = false ∧
  SetTargets ["a1"; "b1"] [] {[ "a1" := 0; "b1" := 1 ]} world4
  = Some (tt, observed "SetTargets" world4).
Proof.
  destruct (SetTargets_twice world3 [] ["a1"; "b1"] {[ "a1" := 0; "b1" := 1 ]}
              world4 ["a1"; "b1"] [] world3_reachable')
    as [Hsome _]; [by_computation|order_ok..|by_computation|].
  apply Hsome. by_computation.
Defined.

(** C6 as written fails: the second call observes its duration.  And
    for a map that is not keyed by hash the second call finds changes. *)
Lemma SetTargets_again_updates_a_metric :
  (SetTargets [] ["a1"; "b1"] {[ "a1" := 0; "b1" := 1 ]} world3
   = Some (tt, world4) ∧
   SetTargets ["a1"; "b1"] [] {[ "a1" := 0; "b1" := 1 ]} world4
   = Some (tt, again) ∧
   events again
   = events world4 ++
     [TimeToAssign_Observe "SetTargets" consistentHashingStrategyName]) ∧
  (SetTargets [] ["x"; "y"] {[ "x" := 0; "y" := 0 ]} world3a
   = Some (tt, stray2) ∧
   has_changes (diff.Maps (live_targets stray2) {[ "x" := 0; "y" := 0 ]})
   = true).
Proof. repeat split; by_computation. Qed.

(** C9 on the call that adds B: a1 and b1 are both assigned anew. *)
Lemma SetCollectors_reassigns_all_witness :
  dom (live_targets world5) = dom (live_targets world4) ∧
  ∀ k p, live_targets world5 !! k = Some p →
    length (targetObjs world4) ≤ p ∧
    ∃ t, targetObjs world5 !! p = Some t ∧ Hash t = k ∧
         ring_owner world5 (Hash t) = Some (CollectorName t).
Proof.
  apply (SetCollectors_reassigns_all world4 [] ["B"] ["a1"; "b1"]
           {[ "A" := 0; "B" := 1 ]} world5 world4_reachable');
    [order_ok..|by_computation|by_computation|by_computation].
Defined.

(** C9 as written fails for the empty map: it differs from the live
    collectors, and no target is assigned anew. *)
Lemma SetCollectors_empty_reassigns_nothing :
  reachable world4 ∧
  has_changes (diff.Maps (live_collectors world4) ∅) = true ∧
  SetCollectors ["A"] [] ["a1"; "b1"] ∅ world4 = Some (tt, emptied) ∧
  targetObjs emptied = targetObjs world4 ∧
  live_targets emptied = live_targets world4 ∧
  live_targets emptied !! "a1" = Some 2 ∧
  2 < length (targetObjs world4).
Proof.
  split; [apply world4_reachable'|]. repeat split; by_computation.
Qed.

(** C8 on the scenario: the two targets added in one order and in the
    other. *)
Lemma same_calls_same_assignment_witness :
  assignment world4 = assignment world4'.
Proof.
  apply same_calls_same_assignment.
  apply (same_SetTargets _ _ world3 world3 [] ["a1"; "b1"] [] ["b1"; "a1"]
           {[ "a1" := 0; "b1" := 1 ]} {[ "a1" := 0; "b1" := 1 ]});
    [apply same_calls_in_contract, world3_reachable|done|by_computation
    |order_ok..|by_computation|by_computation].
Defined.

(** C8 as written fails for a map that is not keyed by hash: with a1 under
    the key x and b1 under the key a1, the order of the additions loop
    decides whether b1 is added. *)
Lemma ill_keyed_targets_depend_on_order :
  same_calls any_input any_input skew1 skew2 ∧
  assignment skew1 !! "b1" = None ∧
  assignment skew2 !! "b1" = Some "A" ∧
  assignment skew1 ≠ assignment skew2.
Proof.
  split.
  { apply (same_SetTargets _ _ world3 world3 [] ["x"; "a1"] [] ["a1"; "x"]
             {[ "x" := 0; "a1" := 1 ]} {[ "x" := 0; "a1" := 1 ]});
      [apply same_calls_any, world3_reachable'|done|done
      |order_ok..|by_computation|by_computation]. }
  split; [by_computation|]. split; [by_computation|by_computation].
Qed.

(** C7 on a snapshot of the targets of [world4], emptied by the caller. *)
Lemma snapshot_map_is_a_copy_witness :
  1 ≠ targetItems snapshot_targets ∧
  targetMaps snapshot_targets !! 1 = Some (live_targets world4) ∧
  ∃ s2, write_targetMap 1 ∅ snapshot_targets = Some (tt, s2) ∧
        agree (collectors world4) (targetItems world4) snapshot_targets s2 ∧
        ∀ calls, related (collectors world4) (targetItems world4)
                   (run_calls calls snapshot_targets) (run_calls calls s2).
Proof.
  destruct (snapshot_map_is_a_copy world4 world4_reachable') as [Htargets _].
  apply (Htargets ["a1"; "b1"] 1 snapshot_targets ∅); [order_ok|by_computation].
Defined.

(** C7 as written fails for the values: the snapshot of the collectors
    holds the allocator's own pointer to A, and what the caller writes
    through it is the count the allocator goes on with. *)
Lemma snapshot_shares_the_collectors :
  reachable world4 ∧
  Collectors ["A"] world4 = Some (1, snapshot) ∧
  collectorMaps snapshot !! 1 = Some {[ "A" := 2 ]} ∧
  live_collectors snapshot !! "A" = Some 2 ∧
  NumTargets_at snapshot 2 = 2%Z ∧
  store_Collector 2 (mkCollector "A" 100) snapshot = Some (tt, scribbled) ∧
  NumTargets_at scribbled 2 = 100%Z ∧
  SetCollectors [] ["B"] ["a1"; "b1"] {[ "A" := 0; "B" := 1 ]} scribbled
  = Some (tt, scribbled5) ∧
  sum_NumTargets scribbled5 = 100%Z ∧
  sum_NumTargets world5 = 2%Z.
Proof. split; [apply world4_reachable'|]. repeat split; by_computation. Qed.

Lemma world6_is_reachable : reachable world6.
Proof. apply reachable_in_contract_is_reachable, world6_reachable. Qed.

Lemma world4c_reachable : reachable world4c.
Proof.
  eapply rtc_r; [apply world4_reachable'|]. apply step_idle.
  apply (idle_new_TargetItem _ (example_target "c" "1" "") 4 world4c).
  by_computation.
Qed.


(** X1 on the call that discovers a1 and b1. *)
Lemma SetTargets_replaces_targets_witness :
  dom (live_targets world4) = {[ "a1"; "b1" ]}.
Proof.
  rewrite (SetTargets_replaces_targets world3 [] ["a1"; "b1"]
             {[ "a1" := 0; "b1" := 1 ]} world4 world3_reachable');
    [by_computation..|order_ok|order_ok|by_computation].
Defined.

(** X2 on the same call. *)
Lemma SetTargets_keeps_collectors_witness :
  live_collectors world4 = live_collectors world3 ∧
  consistentHasher world4 = consistentHasher world3.
Proof.
  apply (SetTargets_keeps_collectors world3 [] ["a1"; "b1"]
           {[ "a1" := 0; "b1" := 1 ]} world4 world3_reachable').
  by_computation.
Defined.

(** X3: c1 comes and b1 goes, a1 stays where it is. *)
Lemma SetTargets_keeps_present_targets_witness :
  live_targets world4d !! "a1" = Some 2 ∧
  assignment world4d !! "a1" = assignment world4c !! "a1".
Proof.
  apply (SetTargets_keeps_present_targets world4c ["a1"; "b1"] ["c1"]
           {[ "a1" := 0; "c1" := 4 ]} world4d "a1" 2 world4c_reachable);
    by_computation.
Defined.

(** X4 on the call that adds B. *)
Lemma SetCollectors_keeps_target_keys_witness :
  dom (live_targets world5) = dom (live_targets world4).
Proof.
  apply (SetCollectors_keeps_target_keys world4 [] ["B"] ["a1"; "b1"]
           {[ "A" := 0; "B" := 1 ]} world5 world4_reachable');
    [order_ok|by_computation].
Defined.

(** X5: the name A again, with the caller's collector B under it. *)
Lemma SetCollectors_same_names_changes_nothing_witness :
  SetCollectors [] [] ["a1"; "b1"] {[ "A" := 1 ]} world4
  = Some (tt,
      set_events
        (events world4 ++
           [CollectorsAllocatable_Set consistentHashingStrategyName
              (Z.of_nat (size ({[ "A" := 1 ]} : gmap string nat)));
            TimeToAssign_Observe "SetCollectors"
              consistentHashingStrategyName]) world4).
Proof.
  apply (SetCollectors_same_names_changes_nothing world4 [] [] ["a1"; "b1"]
           {[ "A" := 1 ]} world4_reachable'); by_computation.
Defined.

(** X6 at the end of the scenario. *)
Lemma allocator_maps_are_keyed_witness :
  (∀ n p, live_collectors world6 !! n = Some p →
     ∃ c, collectorObjs world6 !! p = Some c ∧ Name c = n) ∧
  (∀ k p, live_targets world6 !! k = Some p →
     ∃ t, targetObjs world6 !! p = Some t ∧ Hash t = k) ∧
  dom (consistentHasher world6) = dom (live_collectors world6).
Proof. apply (allocator_maps_are_keyed world6 world6_is_reachable). Defined.

(** X7 at the end of the scenario, on a1. *)
Lemma live_targets_are_linked_witness :
  Link (item_for (example_target "a" "1" "") "B")
  = "/jobs/" +:+ QueryEscape "a" +:+ "/targets".
Proof.
  apply (live_targets_are_linked world6 world6_is_reachable "a1" 7
           (item_for (example_target "a" "1" "") "B")); by_computation.
Defined.

Lemma world3_to_world6 : rtc (step any_input any_input) world3 world6.
Proof.
  apply (rtc_l _ _ world4).
  { eapply (step_SetTargets _ _ _ [] ["a1"; "b1"] {[ "a1" := 0; "b1" := 1 ]});
      [done|order_ok..|by_computation]. }
  apply (rtc_l _ _ world5).
  { eapply (step_SetCollectors _ _ _ [] ["B"] ["a1"; "b1"]
              {[ "A" := 0; "B" := 1 ]}); [done|order_ok..|by_computation]. }
  apply rtc_once.
  eapply (step_SetCollectors _ _ _ ["A"] [] ["b1"; "a1"] {[ "B" := 1 ]});
    [done|order_ok..|by_computation].
Qed.

(** X8 over the three calls of the scenario. *)
Lemma objects_are_kept_witness :
  (∀ p t, targetObjs world3 !! p = Some t → targetObjs world6 !! p = Some t) ∧
  (∀ p c, collectorObjs world3 !! p = Some c →
     ∃ c', collectorObjs world6 !! p = Some c' ∧ Name c' = Name c).
Proof.
  apply (objects_are_kept world3 world6 world3_reachable' world3_to_world6).
Defined.

(** X9: the snapshot of the targets of [world4], after B has joined. *)
Lemma snapshots_are_stable_witness :
  targetMaps snapshot_targets5 !! 1 = Some (live_targets world4).
Proof.
  destruct (snapshots_are_stable world4 world4_reachable') as [Htargets _].
  apply (Htargets ["a1"; "b1"] 1 snapshot_targets snapshot_targets5);
    [order_ok|by_computation|].
  apply rtc_once.
  eapply (step_SetCollectors _ _ _ [] ["B"] ["a1"; "b1"]
            {[ "A" := 0; "B" := 1 ]}); [done|order_ok..|by_computation].
Defined.

(** X10 on the call that adds B. *)
Lemma calls_report_witness :
  ∃ mid, events world5
         = events world4 ++
           [CollectorsAllocatable_Set consistentHashingStrategyName
              (Z.of_nat (size ({[ "A" := 0; "B" := 1 ]} : gmap string nat)))] ++
           mid ++
           [TimeToAssign_Observe "SetCollectors" consistentHashingStrategyName].
Proof.
  destruct (calls_report world4 world5 world4_reachable') as [_ Hcollectors].
  apply (Hcollectors [] ["B"] ["a1"; "b1"]). by_computation.
Defined.

(** X11 at the end of the scenario: B counts its two targets. *)
Lemma counts_are_exact_witness :
  NumTargets_at world6 3 = Z.of_nat (owned_count world6 "B").
Proof.
  apply (counts_are_exact world6 "B" 3 world6_reachable); by_computation.
Defined.



Lemma world6_reachable_by_name : reachable_by_name world6.
Proof.
  pose proof world6_reachable as Hr. revert Hr.
  generalize world6. apply rtc_ind_r; [apply rtc_refl|].
  intros s s' _ Hstep IH. eapply rtc_r; [done|].
  eapply step_weaken; [| |done]; done.
Qed.

(** X14 at the end of the scenario: the gauge of B, and that of A, which
    has left. *)
Lemma gauges_agree_with_counts_witness :
  gauge (events world6) "B" = NumTargets_at world6 3 ∧
  gauge (events world6) "A" = 0%Z.
Proof.
  split.
  - rewrite (gauges_agree_with_counts world6 "B" world6_reachable_by_name).
    by_computation.
  - rewrite (gauges_agree_with_counts world6 "A" world6_reachable_by_name).
    by_computation.
Defined.

(** X15 in [world4]. *)
Lemma accessors_only_read_witness :
  ∃ r s1, TargetItems ["a1"; "b1"] world4 = Some (r, s1) ∧
    events s1 = events world4 ∧ collectorObjs s1 = collectorObjs world4 ∧
    targetObjs s1 = targetObjs world4 ∧
    consistentHasher s1 = consistentHasher world4 ∧
    live_collectors s1 = live_collectors world4 ∧
    live_targets s1 = live_targets world4.
Proof.
  apply (accessors_only_read world4 ["a1"; "b1"] world4_reachable').
Defined.

(** X16 on the call that adds B, made again. *)
Lemma SetCollectors_twice_witness :
  SetCollectors [] [] ["a1"; "b1"] {[ "A" := 0; "B" := 1 ]} world5
  = Some (tt,
      set_events
        (events world5 ++
           [CollectorsAllocatable_Set consistentHashingStrategyName
              (Z.of_nat (size ({[ "A" := 0; "B" := 1 ]} : gmap string nat)));
            TimeToAssign_Observe "SetCollectors"
              consistentHashingStrategyName]) world5).
Proof.
  apply (SetCollectors_twice world4 [] ["B"] ["a1"; "b1"]
           {[ "A" := 0; "B" := 1 ]} world5 [] [] ["a1"; "b1"]
           world4_reachable');
    [by_computation|by_computation|order_ok..|by_computation].
Defined.

Lemma bare_reachable : reachable bare.
Proof.
  apply rtc_once, step_idle.
  apply (idle_new_TargetItem _ (example_target "a" "1" "") 0 bare).
  by_computation.
Qed.

(** X17 on a target discovered before any collector. *)
Lemma addTargetToTargetItems_panics_without_collectors_witness :
  addTargetToTargetItems 0 bare = None.
Proof.
  apply (addTargetToTargetItems_panics_without_collectors bare 0
           bare_reachable).
  by_computation.
Defined.

End Witnesses.
